(** * Response completion utilities: a shallow embedding

    Model of [src/components/DeepResearch/hooks/responseCompletion.ts]:
    the completion controller ([generateWithCompletion]), issue detection,
    the partial-response merge and the resilient JSON decoder with its
    cleanup pipeline.

    JavaScript strings are sequences of UTF-16 code units.  Here a string is
    a [list ascii]: the code units below 256 (Latin-1).  Every statement
    below quantifies over such strings only.  On this domain the built-ins
    used by the source ([trim], [toLowerCase], the regular-expression classes
    [\s], [\w], [\d], [\b]) are modelled exactly as ECMA-262 defines them. *)

From Stdlib Require Import Ascii String List ZArith Lia Bool Arith.
Import ListNotations.

Set Implicit Arguments.
Set Warnings "-register-all".

(** ** Strings *)

Module JS.

Definition str := list ascii.

Definition code (c : ascii) : N := N_of_ascii c.

Definition between (lo hi : N) (c : ascii) : bool :=
  (N.leb lo (code c) && N.leb (code c) hi)%bool.

(** WhiteSpace and LineTerminator code units below 256: TAB, LF, VT, FF,
    CR, SP and NBSP.  This is the set used by [trim] and by [\s]. *)
Definition is_space (c : ascii) : bool :=
  (between 9 13 c || N.eqb (code c) 32 || N.eqb (code c) 160)%bool.

(** LineTerminator code units below 256: LF and CR. *)
Definition is_line_terminator (c : ascii) : bool :=
  (N.eqb (code c) 10 || N.eqb (code c) 13)%bool.

Definition is_digit (c : ascii) : bool := between 48 57 c.

Definition is_upper_ascii (c : ascii) : bool := between 65 90 c.
Definition is_lower_ascii (c : ascii) : bool := between 97 122 c.

(** [\w]: ASCII letters, digits and underscore. *)
Definition is_word (c : ascii) : bool :=
  (is_upper_ascii c || is_lower_ascii c || is_digit c || N.eqb (code c) 95)%bool.

(** Upper-case letters of Latin-1: A-Z and U+00C0-U+00DE except U+00D7. *)
Definition is_upper (c : ascii) : bool :=
  (is_upper_ascii c || (between 192 222 c && negb (N.eqb (code c) 215)))%bool.

(** Lower-case letters of Latin-1 whose upper case is again below 256:
    a-z and U+00E0-U+00FE except U+00F7. *)
Definition is_lower (c : ascii) : bool :=
  (is_lower_ascii c || (between 224 254 c && negb (N.eqb (code c) 247)))%bool.

Definition lower_char (c : ascii) : ascii :=
  if is_upper c then ascii_of_N (code c + 32) else c.

Definition upper_char (c : ascii) : ascii :=
  if is_lower c then ascii_of_N (code c - 32) else c.

(** [String.prototype.toLowerCase]. *)
Definition toLowerCase (s : str) : str := map lower_char s.

Definition eqb (a b : str) : bool :=
  if list_eq_dec ascii_dec a b then true else false.

(** [String.prototype.startsWith]. *)
Fixpoint startsWith (s p : str) {struct p} : bool :=
  match p with
  | [] => true
  | a :: p' =>
      match s with
      | [] => false
      | b :: s' => (Ascii.eqb a b && startsWith s' p')%bool
      end
  end.

(** [String.prototype.includes]. *)
Fixpoint includes (s p : str) : bool :=
  (startsWith s p ||
   match s with
   | [] => false
   | _ :: s' => includes s' p
   end)%bool.

Fixpoint trimStart (s : str) : str :=
  match s with
  | c :: s' => if is_space c then trimStart s' else s
  | [] => []
  end.

Definition trimEnd (s : str) : str := rev (trimStart (rev s)).

(** [String.prototype.trim]. *)
Definition trim (s : str) : str := trimEnd (trimStart s).

(** [s.substring(0, n)] for [0 <= n]. *)
Definition substring0 (n : nat) (s : str) : str := firstn n s.

(** [s.substring(n)] for [0 <= n]. *)
Definition substringFrom (n : nat) (s : str) : str := skipn n s.

(** [Array.prototype.join]. *)
Fixpoint join (sep : str) (l : list str) : str :=
  match l with
  | [] => []
  | [a] => a
  | a :: l' => a ++ sep ++ join sep l'
  end.

(** [a.slice(-n)] for [1 <= n]: the last [n] elements. *)
Definition sliceLast (A : Type) (n : nat) (l : list A) : list A :=
  skipn (length l - n) l.

(** Position of the last occurrence of [p] in [s], if any. *)
Fixpoint lastIndexOf_from (i : nat) (s p : str) (found : option nat) : option nat :=
  let found' := if startsWith s p then Some i else found in
  match s with
  | [] => found'
  | _ :: s' => lastIndexOf_from (S i) s' p found'
  end.

Definition lastIndexOf (s p : str) : option nat := lastIndexOf_from 0 s p None.

Fixpoint count (c : ascii) (s : str) : nat :=
  match s with
  | [] => 0
  | a :: s' => (if Ascii.eqb a c then 1 else 0) + count c s'
  end.

(** Position of the first occurrence of [p] in [s], if any. *)
Fixpoint indexOf_from (i : nat) (s p : str) : option nat :=
  if startsWith s p then Some i
  else
    match s with
    | [] => None
    | _ :: s' => indexOf_from (S i) s' p
    end.

(** [String.prototype.indexOf]; [None] stands for [-1]. *)
Definition indexOf (s p : str) : option nat := indexOf_from 0 s p.

(** [String.prototype.endsWith]. *)
Definition endsWith (s p : str) : bool := startsWith (rev s) (rev p).

End JS.

Abbreviation js s := (list_ascii_of_string s) (only parsing).

(** Characters that cannot be written inside a string literal. *)
Definition dq : ascii := "034"%char.   (* double quote *)
Definition sq : ascii := "039"%char.   (* single quote *)
Definition bs : ascii := "092"%char.   (* backslash *)
Definition lf : ascii := "010"%char.   (* line feed *)

(** ** Regular expressions

    A backtracking matcher in the style of ECMA-262 (22.2.2): a pattern maps
    a match state to the list of states in which a match of the pattern can
    end, in the order in which backtracking tries them.  The first element
    is the match the engine reports. *)

Module Regex.
Import JS.

Inductive item : Type :=
| One (c : ascii)               (* a single character *)
| Range (lo hi : ascii)         (* a-z *)
| Space                         (* \s *)
| Word                          (* \w *)
| Digit                         (* \d *)
| NonSpace                      (* \S *)
| Above255.                     (* a code unit outside the modelled range *)

Inductive regex : Type :=
| Eps
| Chr (c : ascii)
| Cls (negated : bool) (items : list item)
| Seq (r1 r2 : regex)
| Alt (r1 r2 : regex)
| Rep (r : regex) (min : nat) (max : option nat) (greedy : bool)
| Group (n : nat) (r : regex)
| Backref (n : nat)
| WordBoundary
| Bol
| Eol
| Ahead (positive : bool) (r : regex).

Record flags := { ignoreCase : bool; multiline : bool }.

Definition plain := {| ignoreCase := false; multiline := false |}.
Definition flag_i := {| ignoreCase := true; multiline := false |}.
Definition flag_m := {| ignoreCase := false; multiline := true |}.

(** Match state: the consumed input in reverse, the remaining input and
    the captures (latest binding first; [None] is an undefined capture). *)
Record mstate := {
  before : str;
  rest : str;
  caps : list (nat * option str)
}.

Fixpoint capture (n : nat) (cs : list (nat * option str)) : option str :=
  match cs with
  | [] => None
  | (k, v) :: cs' => if Nat.eqb k n then v else capture n cs'
  end.

Definition item_has (it : item) (c : ascii) : bool :=
  match it with
  | One a => Ascii.eqb a c
  | Range lo hi => between (code lo) (code hi) c
  | Space => is_space c
  | Word => is_word c
  | Digit => is_digit c
  | NonSpace => negb (is_space c)
  | Above255 => false
  end.

(** Canonicalize (22.2.5.6) without the unicode flag: the upper-case
    mapping, kept when it is a single code unit.  Two code units below 256
    have the same canonical form exactly when they are equal or one is the
    upper case of the other. *)
Definition canon_eq (fl : flags) (a c : ascii) : bool :=
  if ignoreCase fl
  then Ascii.eqb (upper_char a) (upper_char c)
  else Ascii.eqb a c.

Definition item_matches (fl : flags) (it : item) (c : ascii) : bool :=
  if ignoreCase fl
  then (item_has it c || item_has it (upper_char c) || item_has it (lower_char c))%bool
  else item_has it c.

Definition class_matches (fl : flags) (negated : bool) (items : list item)
    (c : ascii) : bool :=
  xorb negated (existsb (fun it => item_matches fl it c) items).

Definition step1 (x : mstate) (ok : ascii -> bool) : list mstate :=
  match rest x with
  | c :: t =>
      if ok c then [{| before := c :: before x; rest := t; caps := caps x |}]
      else []
  | [] => []
  end.

(** Characters consumed between state [x] and a later state [y]. *)
Definition consumed (x y : mstate) : str :=
  firstn (length (rest x) - length (rest y)) (rest x).

Fixpoint match_prefix (fl : flags) (p : str) (x : mstate) : list mstate :=
  match p with
  | [] => [x]
  | a :: p' => flat_map (match_prefix fl p') (step1 x (canon_eq fl a))
  end.

Fixpoint groups_of (r : regex) : list nat :=
  match r with
  | Seq a b | Alt a b => groups_of a ++ groups_of b
  | Rep a _ _ _ | Ahead _ a => groups_of a
  | Group n a => n :: groups_of a
  | _ => []
  end.

Definition clear (gs : list nat) (x : mstate) : mstate :=
  {| before := before x; rest := rest x;
     caps := map (fun g => (g, None)) gs ++ caps x |}.

Definition is_word_at (o : option ascii) : bool :=
  match o with Some c => is_word c | None => false end.

Definition at_line_start (fl : flags) (x : mstate) : bool :=
  match before x with
  | [] => true
  | c :: _ => (multiline fl && is_line_terminator c)%bool
  end.

Definition at_line_end (fl : flags) (x : mstate) : bool :=
  match rest x with
  | [] => true
  | c :: _ => (multiline fl && is_line_terminator c)%bool
  end.

Definition max_zero (max : option nat) : bool :=
  match max with Some 0 => true | _ => false end.

Definition max_pred (max : option nat) : option nat :=
  match max with Some k => Some (pred k) | None => None end.

(** RepeatMatcher (22.2.2.3.1).  [step] is the matcher of the repeated
    atom.  An iteration at [min = 0] that consumes nothing is rejected;
    [fuel] bounds the number of iterations and is never exhausted when it
    exceeds [min] plus the length of the remaining input. *)
Fixpoint repeat_matcher (step : mstate -> list mstate) (gs : list nat)
    (greedy : bool) (fuel : nat) (min : nat) (max : option nat)
    (x : mstate) : list mstate :=
  match fuel with
  | O => []
  | S fuel' =>
      if max_zero max then [x] else
      let more :=
        flat_map
          (fun y =>
             if (Nat.eqb min 0 && Nat.leb (length (rest x)) (length (rest y)))%bool
             then []
             else repeat_matcher step gs greedy fuel' (pred min) (max_pred max) y)
          (step (clear gs x)) in
      if negb (Nat.eqb min 0) then more
      else if greedy then more ++ [x]
      else x :: more
  end.

Fixpoint matcher (fl : flags) (r : regex) (x : mstate) : list mstate :=
  match r with
  | Eps => [x]
  | Chr c => step1 x (canon_eq fl c)
  | Cls negated items => step1 x (class_matches fl negated items)
  | Seq r1 r2 => flat_map (matcher fl r2) (matcher fl r1 x)
  | Alt r1 r2 => matcher fl r1 x ++ matcher fl r2 x
  | Rep r' min max greedy =>
      repeat_matcher (matcher fl r') (groups_of r') greedy
        (S (min + length (rest x))) min max x
  | Group n r' =>
      map (fun y => {| before := before y; rest := rest y;
                       caps := (n, Some (consumed x y)) :: caps y |})
          (matcher fl r' x)
  | Backref n =>
      match capture n (caps x) with
      | None => [x]
      | Some s => match_prefix fl s x
      end
  | WordBoundary =>
      if xorb (is_word_at (hd_error (before x))) (is_word_at (hd_error (rest x)))
      then [x] else []
  | Bol => if at_line_start fl x then [x] else []
  | Eol => if at_line_end fl x then [x] else []
  | Ahead positive r' =>
      match matcher fl r' x with
      | y :: _ =>
          if positive
          then [{| before := before x; rest := rest x; caps := caps y |}]
          else []
      | [] => if positive then [] else [x]
      end
  end.

(** A successful match: the text before it (in reverse), the matched
    text, the captures and the text after it. *)
Record found := {
  pre : str;
  text : str;
  groups : list (nat * option str);
  post : str
}.

Definition start (b s : str) : mstate :=
  {| before := b; rest := s; caps := [] |}.

(** The match at the current position, if any. *)
Definition match_here (fl : flags) (r : regex) (b s : str) : option found :=
  match matcher fl r (start b s) with
  | y :: _ =>
      Some {| pre := b; text := consumed (start b s) y;
              groups := caps y; post := rest y |}
  | [] => None
  end.

(** RegExpBuiltinExec from [lastIndex = 0]: the leftmost position with a
    match. *)
Fixpoint exec_from (fl : flags) (r : regex) (b s : str) : option found :=
  match match_here fl r b s with
  | Some f => Some f
  | None =>
      match s with
      | [] => None
      | c :: s' => exec_from fl r (c :: b) s'
      end
  end.

Definition exec (fl : flags) (r : regex) (s : str) : option found :=
  exec_from fl r [] s.

(** [RegExp.prototype.test] on a fresh regular expression. *)
Definition test (fl : flags) (r : regex) (s : str) : bool :=
  match exec fl r s with Some _ => true | None => false end.

(** Replacement: either a template ([Lit] text and [$n] references) or a
    function of the match. *)
Inductive piece : Type :=
| Lit (s : str)
| Ref (n : nat).

Definition group_text (f : found) (n : nat) : str :=
  match capture n (groups f) with Some s => s | None => [] end.

Definition expand (tpl : list piece) (f : found) : str :=
  flat_map (fun p => match p with Lit s => s | Ref n => group_text f n end) tpl.

(** [s.replace(re, ...)] without the global flag: the first match only. *)
Definition replace_first (fl : flags) (r : regex) (by_ : found -> str)
    (s : str) : str :=
  match exec fl r s with
  | Some f => rev (pre f) ++ by_ f ++ post f
  | None => s
  end.

(** [s.replace(re, ...)] with the global flag.  Positions are visited from
    left to right; [skip] counts the positions still covered by the
    previous match.  After an empty match the search resumes one position
    further, as [lastIndex] is advanced by one. *)
Fixpoint replace_scan (fl : flags) (r : regex) (by_ : found -> str)
    (skip : nat) (b s : str) : str :=
  match skip with
  | S k =>
      match s with
      | [] => []
      | c :: s' => replace_scan fl r by_ k (c :: b) s'
      end
  | O =>
      match match_here fl r b s with
      | Some f =>
          by_ f ++
          match s with
          | [] => []
          | c :: s' =>
              match length (text f) with
              | O => c :: replace_scan fl r by_ 0 (c :: b) s'
              | S k => replace_scan fl r by_ k (c :: b) s'
              end
          end
      | None =>
          match s with
          | [] => []
          | c :: s' => c :: replace_scan fl r by_ 0 (c :: b) s'
          end
      end
  end.

Definition replace_all (fl : flags) (r : regex) (by_ : found -> str)
    (s : str) : str :=
  replace_scan fl r by_ 0 [] s.

(** [s.split(re)] (22.2.6.14).  [cur] is the current piece in reverse;
    a match that ends where the current piece starts is ignored; captures
    are spliced into the result. *)
Definition capture_list (r : regex) (f : found) : list str :=
  map (group_text f) (groups_of r).

Fixpoint split_scan (fl : flags) (r : regex) (skip : nat) (b cur s : str)
    : list str :=
  match s with
  | [] => [rev cur]
  | c :: s' =>
      match skip with
      | S k => split_scan fl r k (c :: b) cur s'
      | O =>
          match match_here fl r b s with
          | None => split_scan fl r 0 (c :: b) (c :: cur) s'
          | Some f =>
              match length (text f), cur with
              | O, [] => split_scan fl r 0 (c :: b) (c :: cur) s'
              | O, _ :: _ =>
                  rev cur :: capture_list r f ++ split_scan fl r 0 (c :: b) [c] s'
              | S k, _ =>
                  rev cur :: capture_list r f ++ split_scan fl r k (c :: b) [] s'
              end
          end
      end
  end.

Definition split (fl : flags) (r : regex) (s : str) : list str :=
  match s with
  | [] => match match_here fl r [] [] with Some _ => [] | None => [[]] end
  | _ => split_scan fl r 0 [] [] s
  end.

(** Abbreviations for the quantifiers. *)
Definition star (r : regex) := Rep r 0 None true.
Definition plus (r : regex) := Rep r 1 None true.
Definition opt (r : regex) := Rep r 0 (Some 1) true.
Definition lazy_star (r : regex) := Rep r 0 None false.
Definition at_least (n : nat) (r : regex) := Rep r n None true.

Fixpoint lit (s : str) : regex :=
  match s with
  | [] => Eps
  | [c] => Chr c
  | c :: s' => Seq (Chr c) (lit s')
  end.

Fixpoint seq (rs : list regex) : regex :=
  match rs with
  | [] => Eps
  | [r] => r
  | r :: rs' => Seq r (seq rs')
  end.

End Regex.

(** ** What a pattern matches

    The matches of a pattern, stated without backtracking: [matches fl r x w y]
    says that [r] can match the characters [w] from state [x] and end in
    state [y].  The matcher above returns exactly these end states (lemmas
    [matcher_sound] and [matcher_complete] below); its list adds the order
    in which they are tried. *)

Module Semantics.
Import JS Regex.

Definition step_to (x : mstate) (a : ascii) (t : str) : mstate :=
  {| before := a :: before x; rest := t; caps := caps x |}.

(** Repetition of [step] between [min] and [max] times.  As in
    RepeatMatcher, an iteration made when [min] has reached 0 must consume
    input, and the captures [gs] of the repeated atom are cleared before
    each iteration. *)
Inductive reps (step : mstate -> str -> mstate -> Prop) (gs : list nat)
    : nat -> option nat -> mstate -> str -> mstate -> Prop :=
| reps_max : forall min x, reps step gs min (Some 0) x [] x
| reps_stop : forall max x, max_zero max = false -> reps step gs 0 max x [] x
| reps_more : forall min max x w1 z w2 y,
    max_zero max = false ->
    step (clear gs x) w1 z ->
    (min = 0 -> length (rest z) < length (rest x)) ->
    reps step gs (pred min) (max_pred max) z w2 y ->
    reps step gs min max x (w1 ++ w2) y.

(** [w] is a copy of [p], character by character up to [canon_eq]. *)
Fixpoint prefix_matches (fl : flags) (p : str) (x : mstate) (w : str)
    (y : mstate) : Prop :=
  match p with
  | [] => w = [] /\ y = x
  | a :: p' =>
      exists c t w', rest x = c :: t /\ canon_eq fl a c = true /\ w = c :: w' /\
                     prefix_matches fl p' (step_to x c t) w' y
  end.

Fixpoint matches (fl : flags) (r : regex) (x : mstate) (w : str) (y : mstate)
    {struct r} : Prop :=
  match r with
  | Eps => w = [] /\ y = x
  | Chr c =>
      exists a t, rest x = a :: t /\ canon_eq fl c a = true /\
                  w = [a] /\ y = step_to x a t
  | Cls negated items =>
      exists a t, rest x = a :: t /\ class_matches fl negated items a = true /\
                  w = [a] /\ y = step_to x a t
  | Seq r1 r2 =>
      exists w1 z w2, matches fl r1 x w1 z /\ matches fl r2 z w2 y /\ w = w1 ++ w2
  | Alt r1 r2 => matches fl r1 x w y \/ matches fl r2 x w y
  | Rep r' min max _ => reps (matches fl r') (groups_of r') min max x w y
  | Group n r' =>
      exists z, matches fl r' x w z /\
                y = {| before := before z; rest := rest z;
                       caps := (n, Some w) :: caps z |}
  | Backref n =>
      match capture n (caps x) with
      | None => w = [] /\ y = x
      | Some s => prefix_matches fl s x w y
      end
  | WordBoundary =>
      xorb (is_word_at (hd_error (before x))) (is_word_at (hd_error (rest x))) = true
      /\ w = [] /\ y = x
  | Bol => at_line_start fl x = true /\ w = [] /\ y = x
  | Eol => at_line_end fl x = true /\ w = [] /\ y = x
  | Ahead positive r' =>
      w = [] /\
      match matcher fl r' x with
      | z :: _ => positive = true /\
                  y = {| before := before x; rest := rest x; caps := caps z |}
      | [] => positive = false /\ y = x
      end
  end.

End Semantics.

(** ** JSON.parse

    The JSON grammar of ECMA-404, as [JSON.parse] accepts it.  A number is
    kept as its lexeme.  A [\u] escape of a code unit above 255 is outside
    the modelled strings and reported as [Unmodelled]. *)

Module Json.
Import JS.

Inductive value : Type :=
| Null
| Bool (b : bool)
| Number (lexeme : str)
| String (s : str)
| Array (items : list value)
| Object (members : list (str * value)).

Inductive failure : Type :=
| SyntaxError
| Unmodelled
| NoFuel.

Inductive parsed (A : Type) : Type :=
| Ok (a : A) (rest : str)
| Fail (e : failure).
Arguments Fail {A} e.

Definition is_json_space (c : ascii) : bool :=
  (N.eqb (code c) 9 || N.eqb (code c) 10 || N.eqb (code c) 13 || N.eqb (code c) 32)%bool.

Fixpoint skip_space (s : str) : str :=
  match s with
  | c :: s' => if is_json_space c then skip_space s' else s
  | [] => []
  end.

Definition hex_value (c : ascii) : option N :=
  if is_digit c then Some (code c - 48)%N
  else if between 97 102 c then Some (code c - 87)%N
  else if between 65 70 c then Some (code c - 55)%N
  else None.

Definition hex4 (a b c d : ascii) : option N :=
  match hex_value a, hex_value b, hex_value c, hex_value d with
  | Some x, Some y, Some z, Some w => Some (((x * 16 + y) * 16 + z) * 16 + w)%N
  | _, _, _, _ => None
  end.

Definition escape (c : ascii) : option ascii :=
  if Ascii.eqb c dq then Some dq
  else if Ascii.eqb c bs then Some bs
  else if Ascii.eqb c "/" then Some "/"%char
  else if Ascii.eqb c "b" then Some "008"%char
  else if Ascii.eqb c "f" then Some "012"%char
  else if Ascii.eqb c "n" then Some lf
  else if Ascii.eqb c "r" then Some "013"%char
  else if Ascii.eqb c "t" then Some "009"%char
  else None.

(** The characters of a string after its opening quote. *)
Fixpoint string_body (acc : str) (s : str) : parsed str :=
  match s with
  | [] => Fail SyntaxError
  | c :: s1 =>
      if Ascii.eqb c dq then Ok (rev acc) s1
      else if Ascii.eqb c bs then
        match s1 with
        | [] => Fail SyntaxError
        | e :: s2 =>
            if Ascii.eqb e "u" then
              match s2 with
              | h1 :: h2 :: h3 :: h4 :: s3 =>
                  match hex4 h1 h2 h3 h4 with
                  | Some n =>
                      if N.ltb n 256 then string_body (ascii_of_N n :: acc) s3
                      else Fail Unmodelled
                  | None => Fail SyntaxError
                  end
              | _ => Fail SyntaxError
              end
            else
              match escape e with
              | Some a => string_body (a :: acc) s2
              | None => Fail SyntaxError
              end
        end
      else if N.ltb (code c) 32 then Fail SyntaxError
      else string_body (c :: acc) s1
  end.

Fixpoint digits (s : str) : str * str :=
  match s with
  | c :: s1 =>
      if is_digit c then let '(d, r) := digits s1 in (c :: d, r) else ([], s)
  | [] => ([], [])
  end.

Definition number_int (s : str) : option (str * str) :=
  match s with
  | c :: s1 =>
      if Ascii.eqb c "0" then Some ([c], s1)
      else if is_digit c then let '(d, r) := digits s1 in Some (c :: d, r)
      else None
  | [] => None
  end.

Definition number_frac (s : str) : option (str * str) :=
  match s with
  | c :: s1 =>
      if Ascii.eqb c "." then
        match digits s1 with
        | ([], _) => None
        | (d, r) => Some (c :: d, r)
        end
      else Some ([], s)
  | [] => Some ([], s)
  end.

Definition number_exp (s : str) : option (str * str) :=
  match s with
  | c :: s1 =>
      if (Ascii.eqb c "e" || Ascii.eqb c "E")%bool then
        let '(sign, s2) :=
          match s1 with
          | g :: t =>
              if (Ascii.eqb g "+" || Ascii.eqb g "-")%bool then ([g], t) else ([], s1)
          | [] => ([], s1)
          end in
        match digits s2 with
        | ([], _) => None
        | (d, r) => Some (c :: sign ++ d, r)
        end
      else Some ([], s)
  | [] => Some ([], s)
  end.

Definition number (s : str) : parsed str :=
  let '(sign, s1) :=
    match s with
    | c :: t => if Ascii.eqb c "-" then ([c], t) else ([], s)
    | [] => ([], s)
    end in
  match number_int s1 with
  | None => Fail SyntaxError
  | Some (i, s2) =>
      match number_frac s2 with
      | None => Fail SyntaxError
      | Some (f, s3) =>
          match number_exp s3 with
          | None => Fail SyntaxError
          | Some (e, s4) => Ok (sign ++ i ++ f ++ e) s4
          end
      end
  end.

Definition keyword (k : str) (v : value) (s : str) : parsed value :=
  if startsWith s k then Ok v (skipn (length k) s) else Fail SyntaxError.

(** A later member with the same key replaces the earlier value. *)
Fixpoint set_member (k : str) (v : value) (ms : list (str * value))
    : list (str * value) :=
  match ms with
  | [] => [(k, v)]
  | (k1, v1) :: ms1 =>
      if JS.eqb k k1 then (k, v) :: ms1 else (k1, v1) :: set_member k v ms1
  end.

Fixpoint parse_value (fuel : nat) (s : str) : parsed value :=
  match fuel with
  | O => Fail NoFuel
  | S fuel1 =>
      match skip_space s with
      | [] => Fail SyntaxError
      | c :: s1 =>
          if Ascii.eqb c "n" then keyword (js "null") Null (c :: s1)
          else if Ascii.eqb c "t" then keyword (js "true") (Bool true) (c :: s1)
          else if Ascii.eqb c "f" then keyword (js "false") (Bool false) (c :: s1)
          else if Ascii.eqb c dq then
            match string_body [] s1 with
            | Ok t r => Ok (String t) r
            | Fail e => Fail e
            end
          else if Ascii.eqb c "[" then
            match skip_space s1 with
            | d :: s2 =>
                if Ascii.eqb d "]" then Ok (Array []) s2
                else parse_elements fuel1 [] (d :: s2)
            | [] => Fail SyntaxError
            end
          else if Ascii.eqb c "{" then
            match skip_space s1 with
            | d :: s2 =>
                if Ascii.eqb d "}" then Ok (Object []) s2
                else parse_members fuel1 [] (d :: s2)
            | [] => Fail SyntaxError
            end
          else if (Ascii.eqb c "-" || is_digit c)%bool then
            match number (c :: s1) with
            | Ok n r => Ok (Number n) r
            | Fail e => Fail e
            end
          else Fail SyntaxError
      end
  end

with parse_elements (fuel : nat) (acc : list value) (s : str) : parsed value :=
  match fuel with
  | O => Fail NoFuel
  | S fuel1 =>
      match parse_value fuel1 s with
      | Fail e => Fail e
      | Ok v r =>
          match skip_space r with
          | c :: r1 =>
              if Ascii.eqb c "," then parse_elements fuel1 (v :: acc) r1
              else if Ascii.eqb c "]" then Ok (Array (rev (v :: acc))) r1
              else Fail SyntaxError
          | [] => Fail SyntaxError
          end
      end
  end

with parse_members (fuel : nat) (acc : list (str * value)) (s : str)
    : parsed value :=
  match fuel with
  | O => Fail NoFuel
  | S fuel1 =>
      match skip_space s with
      | c :: s1 =>
          if Ascii.eqb c dq then
            match string_body [] s1 with
            | Fail e => Fail e
            | Ok k r =>
                match skip_space r with
                | d :: r1 =>
                    if Ascii.eqb d ":" then
                      match parse_value fuel1 r1 with
                      | Fail e => Fail e
                      | Ok v r2 =>
                          match skip_space r2 with
                          | e :: r3 =>
                              if Ascii.eqb e "," then
                                parse_members fuel1 (set_member k v acc) r3
                              else if Ascii.eqb e "}" then
                                Ok (Object (set_member k v acc)) r3
                              else Fail SyntaxError
                          | [] => Fail SyntaxError
                          end
                      end
                    else Fail SyntaxError
                | [] => Fail SyntaxError
                end
            end
          else Fail SyntaxError
      | [] => Fail SyntaxError
      end
  end.

(** [JSON.parse(text)]: one value, surrounded by white space only. *)
Definition parse (text : str) : parsed value :=
  match parse_value (2 * length text + 2) text with
  | Fail e => Fail e
  | Ok v r =>
      match skip_space r with
      | [] => Ok v []
      | _ :: _ => Fail SyntaxError
      end
  end.

End Json.

(** ** responseCompletion.ts: the pure text routines *)

Module Completion.
Import JS Regex.
Local Open Scope char_scope.

Definition RESPONSE_TIMEOUT : Z := 600000.
Definition MAX_RETRIES : Z := 3.
Definition CONTINUATION_PROMPT : str :=
  js "Please complete your previous response starting from where you left off.".

Record CompletionIssue := { hasIssue : bool; reason : str }.

(** The comments show each pattern of the source token by token, the
    tokens separated by blanks, with \x22 written for the double quote
    and \x20 for a blank of the pattern. *)

(** Character classes that occur in several patterns. *)
Definition ws : regex := Cls false [Space].                      (* \s *)
Definition any : regex := Cls false [Space; NonSpace].           (* [\s\S] *)
Definition not_quote : regex := Cls true [One dq].               (* [^\x22] *)
Definition closer : regex := Cls false [One "}"; One "]"].       (* [}\]] *)
Definition not_delim : regex :=                                  (* [^\x22,}\]] *)
  Cls true [One dq; One ","; One "}"; One "]"].
Definition letter : regex := Cls false [Range "a" "z"; Range "A" "Z"].

(** /  ( \b \w+ \b )  (?: \s+ \1 ){5,}  /gi *)
Definition loopPattern : regex :=
  Seq (Group 1 (seq [WordBoundary; plus (Cls false [Word]); WordBoundary]))
      (at_least 5 (Seq (plus ws) (Backref 1))).

(** /  [.!?]  $  / *)
Definition endPunctuation : regex :=
  Seq (Cls false [One "."; One "!"; One "?"]) Eol.

Definition detectResponseIssues (text : str) : CompletionIssue :=
  if test flag_i loopPattern text then
    {| hasIssue := true; reason := js "Repetitive loop detected" |}
  else if (Nat.ltb 100 (length text) && negb (test plain endPunctuation (trim text)))%bool then
    {| hasIssue := true; reason := js "Abrupt ending without punctuation" |}
  else if (includes text (js "{") && negb (includes text (js "}")))%bool then
    {| hasIssue := true; reason := js "Incomplete JSON structure" |}
  else if (includes text (js "<think>") && negb (includes text (js "</think>")))%bool then
    {| hasIssue := true; reason := js "Unclosed thinking tags" |}
  else
    {| hasIssue := false; reason := [] |}.

(** The loop of [combinePartialResponses]: [i] runs from [i] to
    [maxOverlap]; [n] is the number of iterations left. *)
Fixpoint overlap_loop (words1 words2 : list str) (n i overlap : nat) : nat :=
  match n with
  | O => overlap
  | S n' =>
      let end1 := join (js " ") (sliceLast i words1) in
      let start2 := join (js " ") (firstn i words2) in
      overlap_loop words1 words2 n' (S i)
        (if JS.eqb (toLowerCase end1) (toLowerCase start2) then i else overlap)
  end.

Definition combinePartialResponses (first second : str) : str :=
  let firstTrimmed := trim first in
  let secondTrimmed := trim second in
  let words1 := split plain (plus ws) firstTrimmed in
  let words2 := split plain (plus ws) secondTrimmed in
  let maxOverlap := Nat.min 10 (Nat.min (length words1) (length words2)) in
  let overlap := overlap_loop words1 words2 maxOverlap 1 0 in
  if Nat.ltb 0 overlap then
    join (js " ") (words1 ++ skipn overlap words2)
  else
    firstTrimmed ++ [lf; lf] ++ secondTrimmed.

(** /  (?: Query | Question | User\x20ask s? )  :  \s*  [\x22']?
       ( [^\x22'\n]+ )  [\x22']?  /i *)
Definition queryPattern : regex :=
  seq [Alt (lit (js "Query"))
         (Alt (lit (js "Question")) (Seq (lit (js "User ask")) (opt (Chr "s"))));
       Chr ":"; star ws;
       opt (Cls false [One dq; One sq]);
       Group 1 (plus (Cls true [One dq; One sq; One lf]));
       opt (Cls false [One dq; One sq])].

Definition createSimplifiedPrompt (originalPrompt : str) : str :=
  let query :=
    match exec flag_i queryPattern originalPrompt with
    | Some f => group_text f 1
    | None => js "Please extract relevant information"
    end in
  js "Extract information to answer: " ++ query ++ [lf; lf] ++
  js "Provide a direct, simple answer with key facts only." ++ [lf] ++
  js "No thinking, no analysis, just the facts.".

(** *** fixArrayElementSeparation *)

(** Fix 1:  /  \}  \s*  \{  /g   by   },{ *)
Definition fix1 : str -> str :=
  replace_all plain (seq [Chr "}"; star ws; Chr "{"]) (expand [Lit (js "},{")]).

(** Fix 2:  /  \x22  \s+  \x22  ( [^\x22,}\]]+ )  \x22  /g
    by   \x22,\x20\x22  $1  \x22 *)
Definition fix2 : str -> str :=
  replace_all plain
    (seq [Chr dq; plus ws; Chr dq; Group 1 (plus not_delim); Chr dq])
    (expand [Lit [dq; ","; " "; dq]; Ref 1; Lit [dq]]).

(** Fix 3:  /  ( [^,\s] )  \s*  \]  /g   by   $1  ] *)
Definition fix3 : str -> str :=
  replace_all plain
    (seq [Group 1 (Cls true [One ","; Space]); star ws; Chr "]"])
    (expand [Ref 1; Lit (js "]")]).

(** Fix 4:  /  \{  \s*  \x22  ( [^\x22]* )  \x22  :  \s*  \x22  ( [^\x22]* )  \x22
       ( [^,}]* )  \s*  \}  /g
    by   {\x22  $1  \x22:\x20\x22  $2  \x22} *)
Definition fix4 : str -> str :=
  replace_all plain
    (seq [Chr "{"; star ws; Chr dq; Group 1 (star not_quote); Chr dq; Chr ":";
          star ws; Chr dq; Group 2 (star not_quote); Chr dq;
          Group 3 (star (Cls true [One ","; One "}"])); star ws; Chr "}"])
    (expand [Lit ("{"%char :: [dq]); Ref 1; Lit [dq; ":"; " "; dq]; Ref 2;
             Lit (dq :: js "}")]).

(** Fix 5, first pattern:  /  :  \s*  \x22  ( [^\x22]* [a-zA-Z] )  \.\.\.  /g
    by   :\x20\x22  $1  \x22 *)
Definition fix5a : str -> str :=
  replace_all plain
    (seq [Chr ":"; star ws; Chr dq; Group 1 (Seq (star not_quote) letter);
          lit (js "...")])
    (expand [Lit [":"; " "; dq]; Ref 1; Lit [dq]]).

(** Fix 5, second pattern:  /  :  \s*  \x22  ( [^\x22]* )  \s*  $  /gm
    by   :\x20\x22  $1  \x22 *)
Definition fix5b : str -> str :=
  replace_all flag_m
    (seq [Chr ":"; star ws; Chr dq; Group 1 (star not_quote); star ws; Eol])
    (expand [Lit [":"; " "; dq]; Ref 1; Lit [dq]]).

(** Fix 6:  /  \x22:\x20\x22  ( [^\x22]* )  \x22  ( [^\x22,}\]]* )  \x22
       ( [^\x22,}\]]* )  \x22,  /g
    by   \x22:\x20\x22  $1  \\\x22  $2  \\\x22  $3  \x22,
    (in the replacement, \\ is one backslash) *)
Definition fix6 : str -> str :=
  replace_all plain
    (seq [Chr dq; Chr ":"; Chr " "; Chr dq; Group 1 (star not_quote); Chr dq;
          Group 2 (star not_delim); Chr dq; Group 3 (star not_delim); Chr dq;
          Chr ","])
    (expand [Lit [dq; ":"; " "; dq]; Ref 1; Lit [bs; dq]; Ref 2; Lit [bs; dq];
             Ref 3; Lit [dq; ","]]).

(** Fix 7: close the braces of a text that has an opening brace and no
    closing brace. *)
Definition fix7 (fixed : str) : str :=
  if (includes fixed (js "{") && negb (includes fixed (js "}")))%bool then
    let openBraces := count "{" fixed in
    let closeBraces := count "}" fixed in
    if Nat.ltb closeBraces openBraces
    then fixed ++ repeat "}"%char (openBraces - closeBraces)
    else fixed
  else fixed.

(** Fix 8, first pattern:  /  ,+  /g   by   , *)
Definition fix8a : str -> str :=
  replace_all plain (plus (Chr ",")) (expand [Lit (js ",")]).

(** Fix 8, second pattern:  /  ,  ( \s* [}\]] )  /g   by   $1 *)
Definition fix8b : str -> str :=
  replace_all plain (Seq (Chr ",") (Group 1 (Seq (star ws) closer)))
    (expand [Ref 1]).

(** No step of the [try] block can throw on a string, so its [catch]
    branch is not reachable. *)
Definition fixArrayElementSeparation (jsonText : str) : str :=
  let fixed := jsonText in
  let fixed := fix1 fixed in
  let fixed := fix2 fixed in
  let fixed := fix3 fixed in
  let fixed := fix4 fixed in
  let fixed := fix5a fixed in
  let fixed := fix5b fixed in
  let fixed := fix6 fixed in
  let fixed := fix7 fixed in
  let fixed := fix8a fixed in
  let fixed := fix8b fixed in
  fixed.

(** *** fixEscapeCharacterIssues *)

(** /  \\  [^\x22\\\/bfnrtux]  /g   with the callback of the source: a
    backslash before a letter or digit is doubled. *)
Definition escape1 : str -> str :=
  replace_all plain
    (Seq (Chr bs)
         (Cls true [One dq; One bs; One "/"; One "b"; One "f"; One "n";
                    One "r"; One "t"; One "u"; One "x"]))
    (fun f =>
       match text f with
       | _ :: char :: _ =>
           if test plain (Cls false [Range "a" "z"; Range "A" "Z"; Range "0" "9"]) [char]
           then [bs; bs; char]
           else text f
       | _ => text f
       end).

(** /  \\  (?= [^\x22\\\/bfnrtu] )  /g   by two backslashes *)
Definition escape2 : str -> str :=
  replace_all plain
    (Seq (Chr bs)
         (Ahead true
            (Cls true [One dq; One bs; One "/"; One "b"; One "f"; One "n";
                       One "r"; One "t"; One "u"])))
    (expand [Lit [bs; bs]]).

(** /  \\+  $  /g   by the empty string *)
Definition escape3 : str -> str :=
  replace_all plain (Seq (plus (Chr bs)) Eol) (expand []).

(** /  \\+  \x22  /g   by a backslash and a double quote *)
Definition escape4 : str -> str :=
  replace_all plain (Seq (plus (Chr bs)) (Chr dq)) (expand [Lit [bs; dq]]).

Definition hex_digit : regex :=
  Cls false [Range "0" "9"; Range "a" "f"; Range "A" "F"].

(** /  \\  u  (?! [0-9a-fA-F]{4} )  /g   by two backslashes and u *)
Definition escape5 : str -> str :=
  replace_all plain
    (seq [Chr bs; Chr "u"; Ahead false (Rep hex_digit 4 (Some 4) true)])
    (expand [Lit [bs; bs; "u"%char]]).

Definition fixEscapeCharacterIssues (text : str) : str :=
  escape5 (escape4 (escape3 (escape2 (escape1 text)))).

(** *** cleanJsonText *)

(** /  ^  -?  \d+  (?: \. \d+ )?  $  / *)
Definition numberPattern : regex :=
  seq [Bol; opt (Chr "-"); plus (Cls false [Digit]);
       opt (Seq (Chr ".") (plus (Cls false [Digit]))); Eol].

(** /  :  \s*  (?! true \b | false \b | null \b )
       ( [A-Za-z] [A-Za-z0-9_\-\/.\s]*? )  (?= \s* [,}\]] )  /g *)
Definition bareValuePattern : regex :=
  seq [Chr ":"; star ws;
       Ahead false
         (Alt (Seq (lit (js "true")) WordBoundary)
            (Alt (Seq (lit (js "false")) WordBoundary)
               (Seq (lit (js "null")) WordBoundary)));
       Group 1
         (Seq (Cls false [Range "A" "Z"; Range "a" "z"])
            (lazy_star
               (Cls false [Range "A" "Z"; Range "a" "z"; Range "0" "9";
                           One "_"; One "-"; One "/"; One "."; Space])));
       Ahead true (Seq (star ws) (Cls false [One ","; One "}"; One "]"]))].

(** The callback of the last replacement of [cleanJsonText]. *)
Definition quoteBareValue (f : found) : str :=
  let v := group_text f 1 in
  let val := trim v in
  match val with
  | [] => [":"; " "; dq; dq]%char
  | _ :: _ =>
      if (startsWith val [dq] || startsWith val [sq] || startsWith val (js "[")
          || startsWith val (js "{") || test plain numberPattern val)%bool
      then js ": " ++ val
      else js ": " ++ [dq]
           ++ replace_all plain (Chr dq) (expand [Lit [bs; dq]]) val ++ [dq]
  end.

(** The steps of [cleanJsonText], in the order of the source. *)

(** /  [\u201C\u201D]  /g   by   \x22 ; the curly quotes are code units
    above 255 *)
Definition straightenDoubleQuotes : str -> str :=
  replace_all plain (Cls false [Above255; Above255]) (expand [Lit [dq]]).

(** /  [\u2018\u2019]  /g   by   ' *)
Definition straightenSingleQuotes : str -> str :=
  replace_all plain (Cls false [Above255; Above255]) (expand [Lit [sq]]).

(** /  ,  ( \s* [}\]] )  /g   by   $1 *)
Definition dropTrailingCommas : str -> str :=
  replace_all plain (Seq (Chr ",") (Group 1 (Seq (star ws) closer)))
    (expand [Ref 1]).

(** /  :\x20\x22  ( [^\x22]* )  \x22  ( [^\x22,}\]]* )  \x22  ( [^\x22,}\]]* )  \x22,  /g
    by   :\x20\x22  $1  \\\x22  $2  \\\x22  $3  \x22,
    (in the replacement, \\ is one backslash) *)
Definition escapeInnerQuotes : str -> str :=
  replace_all plain
    (seq [Chr ":"; Chr " "; Chr dq; Group 1 (star not_quote); Chr dq;
          Group 2 (star not_delim); Chr dq; Group 3 (star not_delim);
          Chr dq; Chr ","])
    (expand [Lit [":"; " "; dq]; Ref 1; Lit [bs; dq]; Ref 2;
             Lit [bs; dq]; Ref 3; Lit [dq; ","]]).

(** /  \/\/  [^\n]*  /g   by the empty string *)
Definition stripLineComments : str -> str :=
  replace_all plain (Seq (lit (js "//")) (star (Cls true [One lf])))
    (expand []).

(** /  \/  \*  [\s\S]*?  \*  \/  /g   by the empty string *)
Definition stripBlockComments : str -> str :=
  replace_all plain (seq [lit (js "/*"); lazy_star any; lit (js "*/")])
    (expand []).

(** /  ```json  \s*  /   by the empty string *)
Definition stripFenceStart : str -> str :=
  replace_first plain (Seq (lit (js "```json")) (star ws)) (expand []).

(** /  ```  \s*  $  /   by the empty string *)
Definition stripFenceEnd : str -> str :=
  replace_first plain (seq [lit (js "```"); star ws; Eol]) (expand []).

(** /  ( \w+ )  :  /g   by   \x22  $1  \x22: *)
Definition quoteKeys : str -> str :=
  replace_all plain (Seq (Group 1 (plus (Cls false [Word]))) (Chr ":"))
    (expand [Lit [dq]; Ref 1; Lit [dq; ":"]]).

(** /  :\x20  ( [a-zA-Z_] [a-zA-Z0-9_]* )  /g   by   :\x20\x22  $1  \x22 *)
Definition quoteWordValues : str -> str :=
  replace_all plain
    (seq [Chr ":"; Chr " ";
          Group 1 (Seq (Cls false [Range "a" "z"; Range "A" "Z"; One "_"])
                       (star (Cls false [Range "a" "z"; Range "A" "Z";
                                         Range "0" "9"; One "_"])))])
    (expand [Lit [":"; " "; dq]; Ref 1; Lit [dq]]).

(** /  :\x20\x22true\x22  /g   by   :\x20true *)
Definition unquoteTrue : str -> str :=
  replace_all plain (lit (js ": " ++ dq :: js "true" ++ [dq]))
    (expand [Lit (js ": true")]).

(** /  :\x20\x22false\x22  /g   by   :\x20false *)
Definition unquoteFalse : str -> str :=
  replace_all plain (lit (js ": " ++ dq :: js "false" ++ [dq]))
    (expand [Lit (js ": false")]).

(** /  :\x20\x22null\x22  /g   by   :\x20null *)
Definition unquoteNull : str -> str :=
  replace_all plain (lit (js ": " ++ dq :: js "null" ++ [dq]))
    (expand [Lit (js ": null")]).

(** /  '  ( [A-Za-z0-9_]+ )  '  \s*  :  /g   by   \x22  $1  \x22: *)
Definition doubleQuoteKeys : str -> str :=
  replace_all plain
    (seq [Chr sq;
          Group 1 (plus (Cls false [Range "A" "Z"; Range "a" "z";
                                    Range "0" "9"; One "_"]));
          Chr sq; star ws; Chr ":"])
    (expand [Lit [dq]; Ref 1; Lit [dq; ":"]]).

(** /  :  \s*  '  ( [^']* )  '  /g   by   :\x20\x22  $1  \x22 *)
Definition doubleQuoteValues : str -> str :=
  replace_all plain
    (seq [Chr ":"; star ws; Chr sq; Group 1 (star (Cls true [One sq])); Chr sq])
    (expand [Lit [":"; " "; dq]; Ref 1; Lit [dq]]).

(** The last replacement: the bare value pattern with the callback. *)
Definition quoteBareValues : str -> str :=
  replace_all plain bareValuePattern quoteBareValue.

Definition cleanJsonText (jsonText : str) : str :=
  let cleaned := jsonText in
  let cleaned := straightenDoubleQuotes cleaned in
  let cleaned := straightenSingleQuotes cleaned in
  let cleaned := dropTrailingCommas cleaned in
  let cleaned := escapeInnerQuotes cleaned in
  let cleaned := stripLineComments cleaned in
  let cleaned := stripBlockComments cleaned in
  let cleaned := stripFenceStart cleaned in
  let cleaned := stripFenceEnd cleaned in
  let cleaned := quoteKeys cleaned in
  let cleaned := quoteWordValues cleaned in
  let cleaned := unquoteTrue cleaned in
  let cleaned := unquoteFalse cleaned in
  let cleaned := unquoteNull cleaned in
  let cleaned := fixArrayElementSeparation cleaned in
  let cleaned := fixEscapeCharacterIssues cleaned in
  let cleaned := doubleQuoteKeys cleaned in
  let cleaned := doubleQuoteValues cleaned in
  let cleaned := quoteBareValues cleaned in
  trim cleaned.

(** *** parseJsonWithResilience *)

Inductive decoded : Type :=
| Returns (v : Json.value)
| Throws (message : str)
| OutsideModel (e : Json.failure).

(** [try { return JSON.parse(t) } catch { otherwise }] *)
Definition try_parse (t : str) (wrap : Json.value -> Json.value)
    (otherwise : decoded) : decoded :=
  match Json.parse t with
  | Json.Ok v _ => Returns (wrap v)
  | Json.Fail Json.SyntaxError => otherwise
  | Json.Fail e => OutsideModel e
  end.

Definition as_array (v : Json.value) : Json.value :=
  match v with
  | Json.Array _ => v
  | _ => Json.Array [v]
  end.

Definition parseJsonWithResilience (text : str) : decoded :=
  try_parse text (fun v => v)
    (let cleanText :=
       if (includes text (js "<think>") && includes text (js "</think>"))%bool then
         match lastIndexOf text (js "</think>") with
         | Some thinkEnd => trim (substringFrom (thinkEnd + 8) text)
         | None => text
         end
       else text in
     let array_attempt :=
       let failed := Throws (js "Invalid JSON after all extraction attempts") in
       (* /  \[  [\s\S]*  \]  / *)
       match exec plain (seq [Chr "["; star any; Chr "]"]) cleanText with
       | Some arrayMatch => try_parse (cleanJsonText (Regex.text arrayMatch)) as_array failed
       | None => failed
       end in
     (* /  \{  [\s\S]*  \}  / *)
     match exec plain (seq [Chr "{"; star any; Chr "}"]) cleanText with
     | Some jsonMatch =>
         try_parse (cleanJsonText (Regex.text jsonMatch)) (fun v => v) array_attempt
     | None => array_attempt
     end).

(** *** extractPartialContent *)

(** /  \x22content\x22:\x22  ( [^\x22]+ )  \x22  /i *)
Definition contentPattern : regex :=
  seq [lit (dq :: js "content" ++ [dq; ":"; dq]); Group 1 (plus not_quote);
       Chr dq].

(** /  \{  [\s\S]*  $  /i *)
Definition partialJsonPattern : regex :=
  seq [Chr "{"; star any; Eol].

(** /  \x22  ( [^\x22]* )  \x22  /i *)
Definition valuePattern : regex :=
  seq [Chr dq; Group 1 (star not_quote); Chr dq].

(** /  \\  n  /g   by a line feed: [.replace(/\\n/g, '\n')] *)
Definition unescapeNewlines : str -> str :=
  replace_all plain (lit [bs; "n"]) (expand [Lit [lf]]).

(** The argument is [error.message]; [None] stands for [null].  No step of
    the two [try] blocks can throw on a string, so their [catch] branches
    are not reachable. *)
Definition extractPartialContent (errorMessage : str) : option str :=
  match exec flag_i contentPattern errorMessage with
  | Some contentMatch => Some (unescapeNewlines (group_text contentMatch 1))
  | None =>
      match exec flag_i partialJsonPattern errorMessage with
      | Some jsonMatch =>
          let partialJson := Regex.text jsonMatch in
          match indexOf partialJson (dq :: js "content" ++ [dq]) with
          | Some contentStart =>
              let contentValue := substringFrom (contentStart + 10) partialJson in
              match exec flag_i valuePattern contentValue with
              | Some valueMatch => Some (unescapeNewlines (group_text valueMatch 1))
              | None => None
              end
          | None => None
          end
      | None => None
      end
  end.

(** *** sanitizeResponse *)

(** [.] without the [s] flag: any character but a line terminator (LF and
    CR below 256). *)
Definition dot : regex := Cls true [One lf; One "013"].

(** /  really  \s+  really  \s+  really  .*  /gi *)
Definition reallyPattern : regex :=
  seq [lit (js "really"); plus ws; lit (js "really"); plus ws;
       lit (js "really"); star dot].

(** /  \.\.\.  [\s\.]*  $  /g *)
Definition ellipsisPattern : regex :=
  seq [lit (js "..."); star (Cls false [Space; One "."]); Eol].

(** /  ^  [\s\n]*  \{  [\s\n]*  $  /g *)
Definition loneBracePattern : regex :=
  seq [Bol; star (Cls false [Space; One lf]); Chr "{";
       star (Cls false [Space; One lf]); Eol].

Definition sanitizeResponse (text : str) : str :=
  let cleaned := trim text in
  let cleaned := replace_all flag_i reallyPattern (expand []) cleaned in
  let cleaned := replace_all plain ellipsisPattern (expand []) cleaned in
  let cleaned := replace_all plain loneBracePattern (expand []) cleaned in
  let cleaned :=
    if (startsWith cleaned (js "{") && negb (endsWith cleaned (js "}")))%bool
    then cleaned ++ js "}" else cleaned in
  let cleaned :=
    if (startsWith cleaned (js "[") && negb (endsWith cleaned (js "]")))%bool
    then cleaned ++ js "]" else cleaned in
  cleaned.

(** *** generateWithCompletion *)

Record ResponseCompletionOptions := {
  maxRetries : option Z;
  timeout : option Z;
  continuationPrompt : option str
}.

(** The default argument [options = {}]. *)
Definition no_options : ResponseCompletionOptions :=
  {| maxRetries := None; timeout := None; continuationPrompt := None |}.

(** [a || b] on an optional number: [undefined] and [0] are falsy. *)
Definition or_number (a : option Z) (b : Z) : Z :=
  match a with
  | Some n => if Z.eqb n 0 then b else n
  | None => b
  end.

(** [a || b] on an optional string: [undefined] and [''] are falsy. *)
Definition or_string (a : option str) (b : str) : str :=
  match a with
  | Some (c :: s) => c :: s
  | Some [] | None => b
  end.

(** A thrown value: an [Error] with its message, or any other value. *)
Inductive thrown : Type :=
| Error (message : str)
| NotAnError.

Inductive settled : Type :=
| Fulfilled (text : str)
| Rejected (e : thrown).

(** The promise returned by the generation capability: it settles [ms]
    milliseconds after the call ([0]: without waiting), or never. *)
Inductive promise : Type :=
| Settles (ms : Z) (s : settled)
| Pending.

(** [setTimeout] belongs to the host that runs the module, and the hosts
    differ in the delays they accept. *)
Inductive host : Type :=
| NodeJs
| Browser.

(** The longest delay of a timer, [2^31 - 1] milliseconds. *)
Definition TIMEOUT_MAX : Z := 2147483647.

(** A number as a 32-bit signed integer. *)
Definition toInt32 (n : Z) : Z :=
  let m := Z.modulo n 4294967296 in
  if Z.ltb TIMEOUT_MAX m then m - 4294967296 else m.

(** The delay after which [setTimeout(callback, ms)] runs the callback.
    Node.js takes 1 for a delay that is not between 1 and [TIMEOUT_MAX];
    a browser converts the delay to a 32-bit signed integer and takes 0 for
    a negative one. *)
Definition timerDelay (h : host) (ms : Z) : Z :=
  match h with
  | NodeJs => if (Z.leb 1 ms && Z.leb ms TIMEOUT_MAX)%bool then ms else 1
  | Browser => Z.max 0 (toInt32 ms)
  end.

(** [Promise.race([generationPromise, timeoutPromise])]: the timer was
    armed first, with [setTimeout(..., timeout)], and rejects with
    ['Response timeout'] when it fires.  A promise that settles at [0] has
    settled before any timer can fire. *)
Definition race (h : host) (p : promise) (timeout : Z) : settled :=
  match p with
  | Settles ms s =>
      if Z.ltb ms (Z.max 1 (timerDelay h timeout)) then s
      else Rejected (Error (js "Response timeout"))
  | Pending => Rejected (Error (js "Response timeout"))
  end.

(** What a run does to the outside: calls of the capability and waits. *)
Inductive event : Type :=
| Call (prompt : str)
| Sleep (ms : Z).

Inductive completion (A : Type) : Type :=
| Return (a : A)
| Throw (e : thrown)
| OutOfFuel.
Arguments Throw {A} e.
Arguments OutOfFuel {A}.

Section Controller.

(** The generation capability, with its own state, and the host. *)
Variable G : Type.
Variable h : host.
Variable generateFn : G -> str -> promise * G.

Record run (A : Type) := {
  result : completion A;
  events : list event;
  final : G
}.

(** An asynchronous computation: from the state of the capability to
    its completion, the events it emitted and the new state. *)
Definition async (A : Type) : Type := G -> run A.

Definition ret (A : Type) (a : A) : async A :=
  fun g => {| result := Return a; events := []; final := g |}.

Definition throw (A : Type) (e : thrown) : async A :=
  fun g => {| result := Throw e; events := []; final := g |}.

Definition out_of_fuel (A : Type) : async A :=
  fun g => {| result := OutOfFuel; events := []; final := g |}.

Definition after (A B : Type) (r : run A) (k : run B) : run B :=
  {| result := result k; events := events r ++ events k; final := final k |}.

(** [await m], then [k]. *)
Definition bind (A B : Type) (m : async A) (k : A -> async B) : async B :=
  fun g =>
    let r := m g in
    match result r with
    | Return a => after r (k a (final r))
    | Throw e => {| result := Throw e; events := events r; final := final r |}
    | OutOfFuel => {| result := OutOfFuel; events := events r; final := final r |}
    end.

(** [try { m } catch (error) { handler }]. *)
Definition try_catch (A : Type) (m : async A) (handler : thrown -> async A)
    : async A :=
  fun g =>
    let r := m g in
    match result r with
    | Throw e => after r (handler e (final r))
    | _ => r
    end.

(** [await Promise.race([generateFn(prompt), timeoutPromise])]. *)
Definition generation (prompt : str) (timeout : Z) : async str :=
  fun g =>
    let '(p, g') := generateFn g prompt in
    {| result :=
         match race h p timeout with
         | Fulfilled text => Return text
         | Rejected e => Throw e
         end;
       events := [Call prompt];
       final := g' |}.

(** [await new Promise(resolve => setTimeout(resolve, ms))]. *)
Definition sleep (ms : Z) : async unit :=
  fun g => {| result := Return tt; events := [Sleep ms]; final := g |}.

Definition shorterPrompt (prompt : str) : str :=
  if Nat.ltb 500 (length prompt)
  then substring0 500 prompt ++ [lf; lf] ++ js "Please provide a direct answer."
  else prompt.

Definition continuationText (prompt text continuationPrompt : str) : str :=
  prompt ++ [lf; lf] ++ js "Previous partial response:" ++ [lf] ++ text
  ++ [lf; lf] ++ continuationPrompt.

(** The body of [generateWithCompletion], with [again prompt'] standing
    for the recursive call
    [generateWithCompletion(generateFn, prompt', options, attempt + 1)]. *)
Definition attemptOnce (again : str -> async str) (prompt : str)
    (options : ResponseCompletionOptions) (attempt : Z) : async str :=
  let maxRetries := or_number (maxRetries options) MAX_RETRIES in
  let timeout := or_number (timeout options) RESPONSE_TIMEOUT in
  let continuationPrompt := or_string (continuationPrompt options) CONTINUATION_PROMPT in
  try_catch
    (bind (generation prompt timeout) (fun text =>
       if (match text with [] => true | _ => false end
           || Nat.eqb (length (trim text)) 0)%bool
       then throw str (Error (js "Model returned empty response"))
       else
         let completionIssue := detectResponseIssues text in
         if (hasIssue completionIssue && Z.ltb attempt maxRetries)%bool then
           bind (again (continuationText prompt text continuationPrompt))
             (fun continuedResponse =>
                ret (combinePartialResponses text continuedResponse))
         else ret text))
    (fun error =>
       match error with
       | Error message =>
           if ((includes message (js "Invalid JSON response")
                || includes message (js "Ollama API rejected response"))
               && Z.ltb attempt maxRetries)%bool then
             let simplifiedPrompt := createSimplifiedPrompt prompt in
             bind (sleep 2000) (fun _ => again simplifiedPrompt)
           else if (includes message ("d" :: "o" :: "n" :: "e" :: dq :: js ": false")
                    && Z.ltb attempt maxRetries)%bool then
             bind (sleep 1000) (fun _ => again prompt)
           else if (includes message (js "timeout")
                    && Z.ltb attempt maxRetries)%bool then
             bind (sleep 1000) (fun _ => again (shorterPrompt prompt))
           else throw str error
       | NotAnError => throw str error
       end).

(** The recursion: every recursive call is made at [attempt + 1] and
    only when [attempt < maxRetries], so [fuel] bounds its depth. *)
Fixpoint generate (fuel : nat) (prompt : str)
    (options : ResponseCompletionOptions) (attempt : Z) {struct fuel}
    : async str :=
  attemptOnce
    (fun prompt' =>
       match fuel with
       | O => out_of_fuel str
       | S fuel' => generate fuel' prompt' options (attempt + 1)
       end)
    prompt options attempt.

Definition generateWithCompletion (prompt : str)
    (options : ResponseCompletionOptions) (attempt : Z) : async str :=
  generate
    (Z.to_nat (or_number (maxRetries options) MAX_RETRIES - attempt))
    prompt options attempt.

(** The prompts of the calls made to the capability, in order. *)
Definition calls (evs : list event) : list str :=
  flat_map (fun e => match e with Call p => [p] | Sleep _ => [] end) evs.

End Controller.

End Completion.

(** ** Vocabulary of the statements *)

Module Spec.
Import JS Regex Completion.
Local Open Scope char_scope.

(** The values [generateWithCompletion] computes from its options. *)
Definition effMaxRetries (o : ResponseCompletionOptions) : Z :=
  or_number (maxRetries o) MAX_RETRIES.
Definition effTimeout (o : ResponseCompletionOptions) : Z :=
  or_number (timeout o) RESPONSE_TIMEOUT.
Definition effContinuation (o : ResponseCompletionOptions) : str :=
  or_string (continuationPrompt o) CONTINUATION_PROMPT.

(** What the awaited race yields when the capability, in state [g], is
    called with [prompt]. *)
Definition raced (G : Type) (h : host) (generateFn : G -> str -> promise * G)
    (g : G) (prompt : str) (o : ResponseCompletionOptions) : settled :=
  race h (fst (generateFn g prompt)) (effTimeout o).

(** The promise does not settle before the timer of [timeout] fires. *)
Definition times_out (h : host) (p : promise) (timeout : Z) : Prop :=
  match p with
  | Pending => True
  | Settles ms _ => (Z.max 1 (timerDelay h timeout) <= ms)%Z
  end.

Definition done_false : str := "d" :: "o" :: "n" :: "e" :: dq :: js ": false".

(** The message selects the timeout recovery and no earlier one. *)
Definition timeout_only (message : str) : Prop :=
  includes message (js "timeout") = true /\
  includes message (js "Invalid JSON response") = false /\
  includes message (js "Ollama API rejected response") = false /\
  includes message done_false = false.

(** The message selects no recovery at all. *)
Definition no_recovery (message : str) : Prop :=
  includes message (js "Invalid JSON response") = false /\
  includes message (js "Ollama API rejected response") = false /\
  includes message done_false = false /\
  includes message (js "timeout") = false.

(** [n] prompts, each the shortened form of the one before. *)
Fixpoint retry_prompts (n : nat) (prompt : str) : list str :=
  match n with
  | O => []
  | S k => prompt :: retry_prompts k (shorterPrompt prompt)
  end.

Fixpoint retry_prompt (n : nat) (prompt : str) : str :=
  match n with
  | O => prompt
  | S k => retry_prompt k (shorterPrompt prompt)
  end.

(** The state of the capability after [n] calls with these prompts. *)
Fixpoint retry_state (G : Type) (generateFn : G -> str -> promise * G)
    (n : nat) (g : G) (prompt : str) : G :=
  match n with
  | O => g
  | S k => retry_state generateFn k (snd (generateFn g prompt)) (shorterPrompt prompt)
  end.

(** [n] retries after a timeout: a call, then a wait of one second and a
    call for each retry. *)
Fixpoint timeout_trace (n : nat) (prompt : str) : list event :=
  match n with
  | O => [Call prompt]
  | S k => Call prompt :: Sleep 1000 :: timeout_trace k (shorterPrompt prompt)
  end.

(** Capabilities used as concrete inputs. *)
Definition always (p : promise) : unit -> str -> promise * unit :=
  fun _ _ => (p, tt).

Definition with_maxRetries (o : ResponseCompletionOptions) (v : option Z) :=
  {| maxRetries := v; timeout := timeout o;
     continuationPrompt := continuationPrompt o |}.

(** *** Reading the matcher *)

(** The state after [k] more characters. *)
Fixpoint advance (k : nat) (x : mstate) : mstate :=
  match k with
  | O => x
  | S k' =>
      match rest x with
      | c :: t => advance k' {| before := c :: before x; rest := t; caps := caps x |}
      | [] => x
      end
  end.

(** Length of the longest prefix of [s] whose characters satisfy [ok]. *)
Fixpoint prefix_len (ok : ascii -> bool) (s : str) : nat :=
  match s with
  | c :: t => if ok c then S (prefix_len ok t) else 0
  | [] => 0
  end.

(** [n; n-1; ...; 0]: the order in which a greedy quantifier gives back. *)
Fixpoint countdown (n : nat) : list nat :=
  match n with
  | O => [0]
  | S k => S k :: countdown k
  end.

(** *** Tokens

    The text cut at each run of white space; [cur] is the current token in
    reverse and [in_gap] tells that the last character was white space. *)
Fixpoint tokens_from (in_gap : bool) (cur : str) (s : str) : list str :=
  match s with
  | [] => [rev cur]
  | c :: t =>
      if is_space c then
        if in_gap then tokens_from true cur t
        else rev cur :: tokens_from true [] t
      else tokens_from false (c :: cur) t
  end.

Definition tokens (s : str) : list str := tokens_from false [] s.

Definition spaceless (w : str) : Prop := Forall (fun c => is_space c = false) w.

(** An upper-case letter [u] of Latin-1 and its lower-case form [l]: A-Z
    and U+00C0-U+00DE except U+00D7, each 32 code units below its
    lower-case form. *)
Definition letter_pair (u l : ascii) : bool :=
  (N.eqb (code l) (code u + 32) &&
   ((N.leb 65 (code u) && N.leb (code u) 90) ||
    (N.leb 192 (code u) && N.leb (code u) 222 && negb (N.eqb (code u) 215))))%bool.

(** The same character, letter case apart. *)
Definition same_letter (a b : ascii) : bool :=
  (Ascii.eqb a b || letter_pair a b || letter_pair b a)%bool.

(** The same token, letter case apart. *)
Definition same_word (v w : str) : Prop :=
  Forall2 (fun a b => same_letter a b = true) v w.

(** The last [n] tokens of [words1] are the first [n] tokens of [words2],
    letter case apart. *)
Definition overlap (words1 words2 : list str) (n : nat) : Prop :=
  Forall2 same_word (sliceLast n words1) (firstn n words2).

(** The test of the loop of [combinePartialResponses] at [i]. *)
Definition overlap_at (words1 words2 : list str) (i : nat) : bool :=
  JS.eqb (toLowerCase (join (js " ") (sliceLast i words1)))
         (toLowerCase (join (js " ") (firstn i words2))).

(** *** Concrete inputs *)

(** The object with key [a] and the bare value [create patterns now]. *)
Definition bare_value_input : str :=
  js "{" ++ dq :: js "a" ++ dq :: js ": create patterns now}".

(** The object with key [a] whose value is the string [v]. *)
Definition object_a (v : str) : str :=
  js "{" ++ dq :: js "a" ++ dq :: js ": " ++ dq :: v ++ dq :: js "}".

(** The object with key [a] and a string value that holds a backslash
    followed by [q]. *)
Definition bad_escape_input : str := object_a [bs; "q"].

(** *** Braces and commas *)

Definition brace (c : ascii) : Prop := c = "{" \/ c = "}".

(** The two texts have as many closing braces, and as many opening braces
    when they have no closing brace. *)
Definition same_braces (a b : str) : Prop :=
  count "}" a = count "}" b /\ (count "}" a = 0 -> count "{" a = count "{" b).

(** The second text is the first without some of its commas. *)
Inductive drops_commas : str -> str -> Prop :=
| dc_nil : drops_commas [] []
| dc_keep : forall c a b, drops_commas a b -> drops_commas (c :: a) (c :: b)
| dc_drop : forall a b, drops_commas a b -> drops_commas ("," :: a) b.

(** A truncated object. *)
Definition truncated_object : str :=
  js "{" ++ dq :: js "a" ++ dq :: js ": 1,".

(** A complete object followed by a truncated one. *)
Definition truncated_second_object : str :=
  js "[{" ++ dq :: js "a" ++ dq :: js ": 1}, {" ++ dq :: js "b" ++ dq :: js ": 2".

(** *** The checks of [detectResponseIssues], stated on the text *)

Definition contains (s p : str) : Prop := exists a b, s = a ++ p ++ b.

(** A non-empty run of word characters. *)
Definition word (w : str) : Prop :=
  w <> [] /\ Forall (fun c => is_word c = true) w.

(** A non-empty run of white space. *)
Definition blank_run (s : str) : Prop :=
  s <> [] /\ Forall (fun c => is_space c = true) s.

Definition same_letters (a b : str) : Prop := toLowerCase a = toLowerCase b.

(** White space followed by a copy of [w], letter case apart. *)
Definition repetition_of (w piece : str) : Prop :=
  exists sep copy, piece = sep ++ copy /\ blank_run sep /\ same_letters copy w.

(** A word that does not follow a word character, then five or more
    repetitions of it; nothing is asked of what follows the last one. *)
Definition repetitive_loop (text : str) : Prop :=
  exists pre w pieces post,
    text = pre ++ w ++ concat pieces ++ post /\
    word w /\
    is_word_at (hd_error (rev pre)) = false /\
    5 <= length pieces /\
    Forall (repetition_of w) pieces.

Definition ends_with_punctuation (t : str) : Prop :=
  exists body c, t = body ++ [c] /\ (c = "." \/ c = "!" \/ c = "?").

Definition abrupt_ending (text : str) : Prop :=
  100 < length text /\ ~ ends_with_punctuation (trim text).

Definition incomplete_json (text : str) : Prop :=
  contains text (js "{") /\ ~ contains text (js "}").

Definition unclosed_thinking (text : str) : Prop :=
  contains text (js "<think>") /\ ~ contains text (js "</think>").

Definition issue (r : string) : CompletionIssue :=
  {| hasIssue := true; reason := list_ascii_of_string r |}.

(** The loop check in the words of the specification: a single word token
    repeated six or more consecutive times, letter case apart.  The tokens
    are those of [tokens]. *)
Definition is_word_token (t : str) : bool :=
  (negb (Nat.eqb (length t) 0) && forallb is_word t)%bool.

Fixpoint run_of (w : str) (n : nat) (l : list str) : bool :=
  match n with
  | O => true
  | S k =>
      match l with
      | t :: l' => (JS.eqb (toLowerCase t) (toLowerCase w) && run_of w k l')%bool
      | [] => false
      end
  end.

Fixpoint has_run (l : list str) : bool :=
  match l with
  | [] => false
  | t :: l' => ((is_word_token t && run_of t 5 l') || has_run l')%bool
  end.

Definition loop_as_specified (text : str) : bool := has_run (tokens text).

(** *** Runs of the controller *)

(** The waits of a run, in milliseconds and in order. *)
Definition waits (evs : list event) : list Z :=
  flat_map (fun e => match e with Call _ => [] | Sleep ms => [ms] end) evs.

(** A capability that answers its [i]-th call with the [i]-th promise of a
    script, whatever the prompt; its state is the number of calls made. *)
Definition scripted (script : list promise) : nat -> str -> promise * nat :=
  fun i _ => (nth i script Pending, S i).

(** The message selects the recovery for an incomplete response and not
    the earlier one. *)
Definition done_false_only (message : str) : Prop :=
  includes message done_false = true /\
  includes message (js "Invalid JSON response") = false /\
  includes message (js "Ollama API rejected response") = false.

(** The message selects the recovery for an invalid JSON response. *)
Definition invalid_json (message : str) : Prop :=
  includes message (js "Invalid JSON response") = true \/
  includes message (js "Ollama API rejected response") = true.

(** A thrown value for which the [catch] block has no recovery. *)
Definition unrecoverable (e : thrown) : Prop :=
  match e with
  | Error message => no_recovery message
  | NotAnError => True
  end.

(** [n] retries, each after a wait of [ms] and with the prompt [next]
    makes of the previous one. *)
Fixpoint recovery_trace (next : str -> str) (ms : Z) (n : nat) (prompt : str)
    : list event :=
  match n with
  | O => [Call prompt]
  | S k => Call prompt :: Sleep ms :: recovery_trace next ms k (next prompt)
  end.

(** The prompt of the last call of [recovery_trace] and the state in which
    the capability receives it. *)
Fixpoint recovery_last (G : Type) (generateFn : G -> str -> promise * G)
    (next : str -> str) (n : nat) (g : G) (prompt : str) : G * str :=
  match n with
  | O => (g, prompt)
  | S k => recovery_last generateFn next k (snd (generateFn g prompt)) (next prompt)
  end.

(** A run within the budget [k]: between one and [k] calls, fewer waits
    than calls, and every wait of one or two seconds. *)
Definition within (k : nat) (evs : list event) : Prop :=
  1 <= length (calls evs) <= k /\
  length (waits evs) < length (calls evs) /\
  Forall (fun ms => ms = 1000%Z \/ ms = 2000%Z) (waits evs).

(** [n] prompts, each made by [next] of the one before. *)
Fixpoint iterates (next : str -> str) (n : nat) (prompt : str) : list str :=
  match n with
  | O => []
  | S k => prompt :: iterates next k (next prompt)
  end.

(** A script on which a run with the default options calls the capability
    seven times: truncated responses are continued, and each rejected
    continuation is retried by the attempt that asked for it. *)
Definition truncated_response : promise := Settles 5 (Fulfilled (js "{")).
Definition late_response : promise :=
  Settles 5 (Rejected (Error (js "Request timeout"))).
Definition nested_script : list promise :=
  [truncated_response; truncated_response; late_response; late_response;
   truncated_response; late_response; late_response].


(** *** Escapes *)

(** Every backslash of [s] is followed by one of the characters [ok]. *)
Definition escapes_in (ok : list ascii) (s : str) : Prop :=
  forall a b, s = a ++ bs :: b -> exists c t, b = c :: t /\ In c ok.

(** The characters that follow the backslash in the escapes of JSON, the
    backslash itself and [u] apart. *)
Definition kept_escapes : list ascii := [dq; "/"; "b"; "f"; "n"; "r"; "t"].

Definition last_char (s : str) : option ascii := hd_error (rev s).

(** *** The simplified prompt *)

(** The prompt [createSimplifiedPrompt] builds around a query. *)
Definition simplified (query : str) : str :=
  js "Extract information to answer: " ++ query ++ [lf; lf] ++
  js "Provide a direct, simple answer with key facts only." ++ [lf] ++
  js "No thinking, no analysis, just the facts.".

Definition default_query : str := js "Please extract relevant information".

(** A quote, single or double, or nothing. *)
Definition optional_quote (o : str) : Prop := o = [] \/ o = [dq] \/ o = [sq].

(** The characters at which the query stops. *)
Definition ends_query (c : ascii) : Prop := c = dq \/ c = sq \/ c = lf.


(** *** Error messages with a content field *)

(** The key [content] between double quotes. *)
Definition content_key : str := dq :: js "content" ++ [dq].


(** *** Ink

    A character that is not white space is ink. *)

(** The last character of [s], if any, is ink. *)
Definition ends_in_ink (s : str) : Prop :=
  match last_char s with Some c => is_space c = false | None => True end.

(** The first character of [s], if any, is ink. *)
Definition starts_in_ink (s : str) : Prop :=
  match s with c :: _ => is_space c = false | [] => True end.

(** A non-empty token without white space. *)
Definition inked (w : str) : Prop := w <> [] /\ spaceless w.


End Spec.

(** * Properties *)

Import JS Regex Semantics Completion Spec.

(** ** Strings *)

Lemma startsWith_app (p s : str) : startsWith (p ++ s) p = true.
Proof.
  induction p as [|a p IH]; simpl; [reflexivity|].
  now rewrite Ascii.eqb_refl, IH.
Qed.

Lemma includes_char (c : ascii) (s : str) :
  includes s [c] = true <-> In c s.
Proof.
  induction s as [|a s IH]; simpl.
  - split; [discriminate | tauto].
  - rewrite orb_true_iff, andb_true_r, IH, Ascii.eqb_eq.
    split; intros [H|H]; auto.
Qed.

Lemma includes_char_false (c : ascii) (s : str) :
  includes s [c] = false <-> ~ In c s.
Proof.
  rewrite <- includes_char. destruct (includes s [c]); split; congruence.
Qed.

Lemma count_zero (c : ascii) (s : str) : count c s = 0 <-> ~ In c s.
Proof.
  induction s as [|a s IH]; simpl; [tauto|].
  destruct (Ascii.eqb_spec a c) as [->|Hne]; split; intros H.
  - discriminate.
  - exfalso; apply H; now left.
  - intros [H1|H1]; [congruence|]. now apply IH.
  - apply IH. intros H1. apply H. now right.
Qed.

Lemma count_app (c : ascii) (s t : str) :
  count c (s ++ t) = count c s + count c t.
Proof. induction s as [|a s IH]; simpl; [reflexivity|]. rewrite IH. lia. Qed.

Lemma trimStart_blank (s : str) :
  Forall (fun c => is_space c = true) s -> trimStart s = [].
Proof. induction 1 as [|c s Hc _ IH]; simpl; [reflexivity|]. now rewrite Hc. Qed.

Lemma trim_blank (s : str) :
  Forall (fun c => is_space c = true) s -> trim s = [].
Proof. intros H. unfold trim. now rewrite (trimStart_blank H). Qed.

Lemma trimStart_keeps (s : str) (c : ascii) :
  In c s -> is_space c = false ->
  exists d t, trimStart s = d :: t /\ is_space d = false.
Proof.
  induction s as [|a s IH]; simpl; [tauto|].
  intros Hin Hc. destruct (is_space a) eqn:Ha.
  - destruct Hin as [->|Hin]; [congruence|]. now apply IH.
  - now exists a, s.
Qed.

Lemma trim_not_blank (s : str) (c : ascii) :
  In c s -> is_space c = false -> trim s <> [].
Proof.
  intros Hin Hc.
  destruct (trimStart_keeps s c Hin Hc) as (d & t & Ht & Hd).
  unfold trim, trimEnd. rewrite Ht.
  destruct (trimStart_keeps (rev (d :: t)) d) as (e & u & Hu & _).
  - apply in_rev. rewrite rev_involutive. now left.
  - exact Hd.
  - rewrite Hu. intros Hnil. apply (f_equal (@length ascii)) in Hnil.
    rewrite length_rev in Hnil. discriminate.
Qed.

(** ** The completion controller *)

Section ControllerFacts.

Variable G : Type.
Variable h : host.
Variable generateFn : G -> str -> promise * G.




(** Once [attempt >= maxRetries] the body makes no recursive call. *)
Lemma attemptOnce_exhausted (ag1 ag2 : str -> async G str) p o a g :
  (effMaxRetries o <= a)%Z ->
  attemptOnce h generateFn ag1 p o a g = attemptOnce h generateFn ag2 p o a g.
Proof.
  intros H. apply Z.ltb_ge in H. unfold effMaxRetries in H.
  unfold attemptOnce, try_catch, bind, generation.
  destruct (generateFn g p) as [pr g']. cbn [result events final].
  rewrite H.
  destruct (race h pr _) as [text|e]; cbn [result events final].
  - rewrite andb_false_r.
    destruct (_ || _)%bool; cbn; reflexivity.
  - destruct e as [m|]; [|reflexivity].
    rewrite !andb_false_r. reflexivity.
Qed.

(** The model satisfies the recursive equation of the source. *)
Lemma generateWithCompletion_unfold p o a g :
  generateWithCompletion h generateFn p o a g =
  attemptOnce h generateFn
    (fun p' => generateWithCompletion h generateFn p' o (a + 1)) p o a g.
Proof.
  unfold generateWithCompletion.
  destruct (Z.ltb_spec a (or_number (maxRetries o) MAX_RETRIES)) as [Hlt|Hge].
  - replace (Z.to_nat (or_number (maxRetries o) MAX_RETRIES - a))
      with (S (Z.to_nat (or_number (maxRetries o) MAX_RETRIES - (a + 1)))) by lia.
    reflexivity.
  - replace (Z.to_nat (or_number (maxRetries o) MAX_RETRIES - a)) with 0%nat by lia.
    simpl. now apply attemptOnce_exhausted.
Qed.

(** The recursion never runs out of fuel. *)
Lemma attemptOnce_fuel again p o a g :
  (forall p' g', result (again p' g') <> OutOfFuel) ->
  result (attemptOnce h generateFn again p o a g) <> OutOfFuel.
Proof.
  intros H. unfold attemptOnce, try_catch, bind, generation.
  destruct (generateFn g p) as [pr g']. cbn [result events final].
  destruct (race h pr _) as [text|e]; cbn [result events final].
  - destruct (_ || _)%bool; cbn [throw result events final after]; [discriminate|].
    destruct (_ && _)%bool; cbn [ret result events final after]; [|discriminate].
    destruct (result (again _ g')) eqn:E; cbn [result events final after throw].
    + discriminate.
    + destruct e as [m|].
      * repeat match goal with
               | |- context [if ?b then _ else _] => destruct b
               end; cbn [sleep throw result events final after];
          first [discriminate | apply H].
      * discriminate.
    + now apply H in E.
  - destruct e as [m|]; [|discriminate].
    repeat match goal with
           | |- context [if ?b then _ else _] => destruct b
           end; cbn [sleep throw result events final after];
      first [discriminate | apply H].
Qed.

Lemma generateWithCompletion_total p o a g :
  result (generateWithCompletion h generateFn p o a g) <> OutOfFuel.
Proof.
  remember (Z.to_nat (effMaxRetries o - a)) as n eqn:Hn.
  revert p a g Hn. induction n as [|n IH]; intros p a g Hn;
    rewrite generateWithCompletion_unfold.
  - rewrite (attemptOnce_exhausted _ (fun _ => ret []) p o g) by lia.
    apply attemptOnce_fuel. discriminate.
  - apply attemptOnce_fuel. intros p' g'. apply IH. lia.
Qed.

Lemma attemptOnce_fulfilled again p o a g text :
  raced h generateFn g p o = Fulfilled text ->
  trim text <> [] ->
  (hasIssue (detectResponseIssues text) && Z.ltb a (effMaxRetries o))%bool = false ->
  attemptOnce h generateFn again p o a g =
  {| result := Return text; events := [Call p]; final := snd (generateFn g p) |}.
Proof.
  unfold raced, effTimeout, effMaxRetries. intros Hc Ht Hi.
  unfold attemptOnce, try_catch, bind, generation.
  destruct (generateFn g p) as [pr g']. cbn [fst snd result events final] in *.
  rewrite Hc. cbn [result events final].
  assert (Hb : (match text with [] => true | _ :: _ => false end
                || Nat.eqb (length (trim text)) 0)%bool = false).
  { destruct text as [|c t]; [now destruct Ht|]. simpl.
    destruct (trim (c :: t)); [now destruct Ht | reflexivity]. }
  rewrite Hb, Hi. reflexivity.
Qed.

Lemma attemptOnce_empty again p o a g text :
  raced h generateFn g p o = Fulfilled text ->
  trim text = [] ->
  attemptOnce h generateFn again p o a g =
  {| result := Throw (Error (js "Model returned empty response"));
     events := [Call p]; final := snd (generateFn g p) |}.
Proof.
  unfold raced, effTimeout. intros Hc Ht.
  unfold attemptOnce, try_catch, bind, generation.
  destruct (generateFn g p) as [pr g']. cbn [fst snd result events final] in *.
  rewrite Hc. cbn [result events final].
  rewrite Ht, orb_true_r. cbn [throw result events final].
  reflexivity.
Qed.

Lemma attemptOnce_timeout_retry again p o a g message :
  raced h generateFn g p o = Rejected (Error message) ->
  timeout_only message ->
  (a < effMaxRetries o)%Z ->
  attemptOnce h generateFn again p o a g =
  let r := again (shorterPrompt p) (snd (generateFn g p)) in
  {| result := result r; events := Call p :: Sleep 1000 :: events r;
     final := final r |}.
Proof.
  unfold raced, effTimeout, effMaxRetries, timeout_only, done_false.
  intros Hc (H1 & H2 & H3 & H4) Hlt. apply Z.ltb_lt in Hlt.
  unfold attemptOnce, try_catch, bind, generation.
  destruct (generateFn g p) as [pr g']. cbn [fst snd result events final] in *.
  rewrite Hc. cbn [result events final].
  rewrite H1, H2, H3, H4, Hlt. cbn [orb andb].
  unfold sleep, after. cbn [result events final app]. reflexivity.
Qed.

Lemma attemptOnce_rejected_last again p o a g e :
  raced h generateFn g p o = Rejected e ->
  (effMaxRetries o <= a)%Z ->
  attemptOnce h generateFn again p o a g =
  {| result := Throw e; events := [Call p]; final := snd (generateFn g p) |}.
Proof.
  unfold raced, effTimeout, effMaxRetries.
  intros Hc Hge. apply Z.ltb_ge in Hge.
  unfold attemptOnce, try_catch, bind, generation.
  destruct (generateFn g p) as [pr g']. cbn [fst snd result events final] in *.
  rewrite Hc. cbn [result events final].
  destruct e as [m|]; [rewrite Hge, !andb_false_r|]; reflexivity.
Qed.



Lemma race_times_out (p : promise) (t : Z) :
  times_out h p t -> race h p t = Rejected (Error (js "Response timeout")).
Proof.
  destruct p as [ms s|]; simpl; [|reflexivity].
  intros H. apply Z.ltb_ge in H. now rewrite H.
Qed.

End ControllerFacts.

(** ** Claims about the completion controller *)

Lemma calls_timeout_trace (n : nat) : forall prompt,
  calls (timeout_trace n prompt) = retry_prompts (S n) prompt.
Proof.
  induction n as [|n IH]; intros prompt; [reflexivity|].
  cbn [timeout_trace calls flat_map app]. fold (calls (timeout_trace n (shorterPrompt prompt))).
  rewrite IH. reflexivity.
Qed.

Lemma length_retry_prompts (n : nat) : forall prompt,
  length (retry_prompts n prompt) = n.
Proof. induction n as [|n IH]; intros prompt; simpl; [|rewrite IH]; reflexivity. Qed.

(** A prompt that was shortened is not changed by shortening it again. *)
Lemma shorterPrompt_idempotent (prompt : str) :
  shorterPrompt (shorterPrompt prompt) = shorterPrompt prompt.
Proof.
  destruct (Nat.ltb 500 (length prompt)) eqn:E.
  - assert (Hs : shorterPrompt prompt =
                 firstn 500 prompt ++ [lf; lf] ++ js "Please provide a direct answer.")
      by (unfold shorterPrompt, substring0; now rewrite E).
    apply Nat.ltb_lt in E.
    assert (Hl : length (firstn 500 prompt) = 500)
      by (rewrite length_firstn; lia).
    rewrite Hs. unfold shorterPrompt, substring0.
    rewrite length_app, Hl.
    destruct (Nat.ltb_spec 500
                (500 + length ([lf; lf] ++ js "Please provide a direct answer.")))
      as [_|Hc]; [|simpl in Hc; lia].
    rewrite firstn_app, Hl, Nat.sub_diag, firstn_O, app_nil_r, firstn_firstn.
    reflexivity.
  - assert (Hs : shorterPrompt prompt = prompt)
      by (unfold shorterPrompt; now rewrite E).
    now rewrite !Hs.
Qed.

(** C1, as the code has it.  When every call is rejected with an error
    whose message contains "timeout" and none of the substrings of the two
    earlier recoveries, a run that starts at [attempt <= maxRetries] calls
    the capability [maxRetries - attempt + 1] times ([maxRetries] times from
    the first attempt), waits 1000 ms before each retry, gives each retry
    the shortened form of the previous prompt, and rejects with the error
    of the last call. *)
Theorem C1_timeout_retries_with_shortened_prompts :
  forall (h : host) (G : Type) (generateFn : G -> str -> promise * G)
         (options : ResponseCompletionOptions),
    (forall g p, exists message,
        raced h generateFn g p options = Rejected (Error message) /\
        timeout_only message) ->
    forall (attempt : Z) (prompt : str) (g : G),
      (attempt <= effMaxRetries options)%Z ->
      let n := Z.to_nat (effMaxRetries options - attempt) in
      let r := generateWithCompletion h generateFn prompt options attempt g in
      events r = timeout_trace n prompt /\
      calls (events r) = retry_prompts (S n) prompt /\
      Z.of_nat (length (calls (events r))) = (effMaxRetries options - attempt + 1)%Z /\
      exists message,
        raced h generateFn (retry_state generateFn n g prompt) (retry_prompt n prompt)
          options = Rejected (Error message) /\
        result r = Throw (Error message).
Proof.
  intros h G generateFn options Hrej attempt prompt g Hle n r.
  assert (Main : events r = timeout_trace n prompt /\
                 exists message,
                   raced h generateFn (retry_state generateFn n g prompt)
                     (retry_prompt n prompt) options = Rejected (Error message) /\
                   result r = Throw (Error message)).
  { subst r. remember n as k eqn:Hk. subst n.
    revert attempt prompt g Hle Hk.
    induction k as [|k IH]; intros attempt prompt g Hle Hk;
      destruct (Hrej g prompt) as (message & Hr & Hmsg);
      rewrite generateWithCompletion_unfold.
    - rewrite (@attemptOnce_rejected_last G h generateFn _ prompt options attempt g
                 _ Hr) by lia.
      split; [reflexivity|]. exists message. split; [exact Hr | reflexivity].
    - rewrite (@attemptOnce_timeout_retry G h generateFn _ prompt options attempt g
                 _ Hr Hmsg) by lia.
      cbn zeta. cbn [result events final].
      destruct (IH (attempt + 1)%Z (shorterPrompt prompt) (snd (generateFn g prompt)))
        as (He & message' & Hr' & Hres); [lia | lia |].
      split.
      + cbn [timeout_trace]. now rewrite He.
      + exists message'. split; [exact Hr' | exact Hres]. }
  destruct Main as (He & Hlast).
  split; [exact He|]. split; [rewrite He; apply calls_timeout_trace|].
  split; [|exact Hlast].
  rewrite He, calls_timeout_trace, length_retry_prompts. subst n. lia.
Qed.

Lemma C1_witness :
  let generateFn := always (Settles 5 (Rejected (Error (js "Request timeout")))) in
  let prompt := repeat "x"%char 600 in
  (forall g p, exists message,
      raced Browser generateFn g p no_options = Rejected (Error message) /\
      timeout_only message) /\
  (1 <= effMaxRetries no_options)%Z /\
  calls (events (generateWithCompletion Browser generateFn prompt no_options 1 tt)) =
    [prompt;
     repeat "x"%char 500 ++ [lf; lf] ++ js "Please provide a direct answer.";
     repeat "x"%char 500 ++ [lf; lf] ++ js "Please provide a direct answer."] /\
  result (generateWithCompletion Browser generateFn prompt no_options 1 tt) =
    Throw (Error (js "Request timeout")).
Proof.
  intros generateFn prompt.
  assert (H : forall g p, exists message,
             raced Browser generateFn g p no_options = Rejected (Error message) /\
             timeout_only message).
  { intros g p. exists (js "Request timeout"). split; [reflexivity|].
    repeat split; vm_compute; reflexivity. }
  assert (Hle : (1 <= effMaxRetries no_options)%Z) by (vm_compute; discriminate).
  split; [exact H|]. split; [exact Hle|].
  destruct (@C1_timeout_retries_with_shortened_prompts Browser unit generateFn no_options H
              1%Z prompt tt Hle) as (_ & Hc & _ & message & Hr & Hres).
  split.
  - rewrite Hc. vm_compute. reflexivity.
  - rewrite Hres. vm_compute in Hr. injection Hr as <-. reflexivity.
Defined.

(** C1 as stated fails: a message that contains "timeout" and also
    "Invalid JSON response" selects the first recovery, and the retries get
    the simplified prompt, not the previous prompt. *)
Lemma C1_counterexample :
  let generateFn :=
    always (Settles 5 (Rejected (Error (js "Invalid JSON response: timeout")))) in
  (forall g p, exists message,
      raced Browser generateFn g p no_options = Rejected (Error message) /\
      includes message (js "timeout") = true) /\
  shorterPrompt (js "Hello") = js "Hello" /\
  calls (events (generateWithCompletion Browser generateFn (js "Hello") no_options 1 tt))
    <> [js "Hello"; js "Hello"; js "Hello"] /\
  calls (events (generateWithCompletion Browser generateFn (js "Hello") no_options 1 tt))
    = [js "Hello"; createSimplifiedPrompt (js "Hello");
       createSimplifiedPrompt (createSimplifiedPrompt (js "Hello"))].
Proof.
  intros generateFn. split; [|split; [|split]].
  - intros g p. exists (js "Invalid JSON response: timeout").
    split; [reflexivity | vm_compute; reflexivity].
  - reflexivity.
  - vm_compute. discriminate.
  - vm_compute. reflexivity.
Qed.



(** C7, as the code has it.  A text that is not blank and in which an
    issue is detected is returned as it is, after a single call and without
    continuation, once [attempt >= maxRetries]; in particular with
    [maxRetries = 1] on the first attempt, for a text that has an opening
    brace and no closing brace.  A text of white space only is rejected
    as an empty response, whether an issue is detected in it or not. *)
Theorem C7_issue_returned_when_retries_exhausted :
  forall (h : host) (G : Type) (generateFn : G -> str -> promise * G) (g : G)
         (prompt text : str) (options : ResponseCompletionOptions),
    raced h generateFn g prompt options = Fulfilled text ->
    (forall attempt : Z,
        trim text <> [] ->
        hasIssue (detectResponseIssues text) = true ->
        (effMaxRetries options <= attempt)%Z ->
        generateWithCompletion h generateFn prompt options attempt g =
          {| result := Return text; events := [Call prompt];
             final := snd (generateFn g prompt) |})
    /\
    (maxRetries options = Some 1%Z ->
     includes text (js "{") = true ->
     includes text (js "}") = false ->
     hasIssue (detectResponseIssues text) = true /\
     generateWithCompletion h generateFn prompt options 1 g =
       {| result := Return text; events := [Call prompt];
          final := snd (generateFn g prompt) |})
    /\
    (forall attempt : Z,
        Forall (fun c => is_space c = true) text ->
        generateWithCompletion h generateFn prompt options attempt g =
          {| result := Throw (Error (js "Model returned empty response"));
             events := [Call prompt];
             final := snd (generateFn g prompt) |}).
Proof.
  intros h G generateFn g prompt text options Hc.
  assert (General : forall attempt : Z,
             trim text <> [] ->
             (effMaxRetries options <= attempt)%Z ->
             generateWithCompletion h generateFn prompt options attempt g =
               {| result := Return text; events := [Call prompt];
                  final := snd (generateFn g prompt) |}).
  { intros attempt Ht Hge. rewrite generateWithCompletion_unfold.
    apply attemptOnce_fulfilled; [exact Hc | exact Ht |].
    apply Z.ltb_ge in Hge. rewrite Hge. apply andb_false_r. }
  split; [|split].
  - intros attempt Ht _ Hge. now apply General.
  - intros Hm Ho Hcl. split.
    + unfold detectResponseIssues. rewrite Ho, Hcl. cbn [andb negb].
      destruct (test flag_i loopPattern text); [reflexivity|].
      destruct (_ && _)%bool; reflexivity.
    + apply General.
      * apply trim_not_blank with (c := "{"%char); [|reflexivity].
        now apply includes_char.
      * unfold effMaxRetries. rewrite Hm. simpl. lia.
  - intros attempt Hb. rewrite generateWithCompletion_unfold.
    apply attemptOnce_empty with (text := text); [exact Hc|].
    now apply trim_blank.
Qed.

Lemma C7_witness :
  let options := {| maxRetries := Some 1%Z; timeout := None;
                    continuationPrompt := None |} in
  let generateFn := always (Settles 5 (Fulfilled (js "{ unfinished"))) in
  raced Browser generateFn tt (js "Hello") options = Fulfilled (js "{ unfinished") /\
  generateWithCompletion Browser generateFn (js "Hello") options 1 tt =
    {| result := Return (js "{ unfinished"); events := [Call (js "Hello")];
       final := tt |}.
Proof.
  intros options generateFn.
  assert (H1 : raced Browser generateFn tt (js "Hello") options
               = Fulfilled (js "{ unfinished")) by reflexivity.
  split; [exact H1|].
  destruct (C7_issue_returned_when_retries_exhausted
              Browser generateFn tt (js "Hello") options H1) as (_ & H & _).
  destruct (H eq_refl eq_refl eq_refl) as [_ E]. exact E.
Defined.

(** C7 as stated fails: a text of 101 blanks is not empty and an issue is
    detected in it (it is longer than 100 characters and does not end in
    punctuation), yet with [maxRetries = 1] it is not returned: the run
    rejects with the error for an empty response. *)
Lemma C7_counterexample :
  let text := repeat " "%char 101 in
  let options := {| maxRetries := Some 1%Z; timeout := None;
                    continuationPrompt := None |} in
  let generateFn := always (Settles 5 (Fulfilled text)) in
  text <> [] /\
  hasIssue (detectResponseIssues text) = true /\
  raced NodeJs generateFn tt (js "Hello") options = Fulfilled text /\
  raced Browser generateFn tt (js "Hello") options = Fulfilled text /\
  generateWithCompletion NodeJs generateFn (js "Hello") options 1 tt =
    {| result := Throw (Error (js "Model returned empty response"));
       events := [Call (js "Hello")]; final := tt |} /\
  generateWithCompletion Browser generateFn (js "Hello") options 1 tt =
    {| result := Throw (Error (js "Model returned empty response"));
       events := [Call (js "Hello")]; final := tt |}.
Proof.
  intros text options generateFn.
  split; [discriminate|].
  split; [vm_compute; reflexivity|].
  split; [reflexivity|]. split; [reflexivity|].
  split; vm_compute; reflexivity.
Qed.

(** C9.  When the call does not settle before the timer fires, the race
    rejects with "Response timeout", a message that contains "timeout".
    While [attempt < maxRetries] the controller then waits 1000 ms and runs
    the next attempt, whose outcome is its own, with the prompt itself when
    it has at most 500 characters and otherwise with its first 500
    characters followed by an empty line and "Please provide a direct
    answer."; once [attempt >= maxRetries] it rejects with that timeout
    error. *)
Theorem C9_internal_timeout_is_retried :
  forall (h : host) (G : Type) (generateFn : G -> str -> promise * G) (g : G)
         (prompt : str) (options : ResponseCompletionOptions) (attempt : Z),
    times_out h (fst (generateFn g prompt)) (effTimeout options) ->
    let retryPrompt :=
      if Nat.ltb 500 (length prompt)
      then firstn 500 prompt ++ [lf; lf] ++ js "Please provide a direct answer."
      else prompt in
    timeout_only (js "Response timeout")
    /\
    ((attempt < effMaxRetries options)%Z ->
     let next := generateWithCompletion h generateFn retryPrompt options
                   (attempt + 1) (snd (generateFn g prompt)) in
     generateWithCompletion h generateFn prompt options attempt g =
       {| result := result next;
          events := Call prompt :: Sleep 1000 :: events next;
          final := final next |})
    /\
    ((effMaxRetries options <= attempt)%Z ->
     generateWithCompletion h generateFn prompt options attempt g =
       {| result := Throw (Error (js "Response timeout"));
          events := [Call prompt];
          final := snd (generateFn g prompt) |}).
Proof.
  intros h G generateFn g prompt options attempt Hto retryPrompt.
  assert (Hmsg : timeout_only (js "Response timeout"))
    by (repeat split; vm_compute; reflexivity).
  assert (Hr : raced h generateFn g prompt options
               = Rejected (Error (js "Response timeout")))
    by (now apply race_times_out).
  split; [exact Hmsg|]. split.
  - intros Hlt next. rewrite generateWithCompletion_unfold.
    now rewrite (@attemptOnce_timeout_retry G h generateFn _ prompt options
                   attempt g _ Hr Hmsg Hlt).
  - intros Hge. rewrite generateWithCompletion_unfold.
    now apply attemptOnce_rejected_last.
Qed.

Lemma C9_witness :
  let prompt := repeat "x"%char 600 in
  let short := repeat "x"%char 500 ++ [lf; lf] ++ js "Please provide a direct answer." in
  let options := {| maxRetries := Some 2%Z; timeout := Some 2147483648%Z;
                    continuationPrompt := None |} in
  let generateFn := always (Settles 50 (Fulfilled (js "Done."))) in
  times_out NodeJs (fst (generateFn tt prompt)) (effTimeout options) /\
  times_out NodeJs (fst (generateFn tt short)) (effTimeout options) /\
  generateWithCompletion NodeJs generateFn prompt options 1 tt =
    {| result := Throw (Error (js "Response timeout"));
       events := [Call prompt; Sleep 1000; Call short];
       final := tt |} /\
  generateWithCompletion Browser generateFn prompt options 1 tt =
    {| result := Throw (Error (js "Response timeout"));
       events := [Call prompt; Sleep 1000; Call short];
       final := tt |}.
Proof.
  intros prompt short options generateFn.
  assert (H1 : times_out NodeJs (fst (generateFn tt prompt)) (effTimeout options))
    by (vm_compute; discriminate).
  assert (H2 : times_out NodeJs (fst (generateFn tt short)) (effTimeout options))
    by (vm_compute; discriminate).
  split; [exact H1|]. split; [exact H2|]. split.
  - destruct (@C9_internal_timeout_is_retried NodeJs unit generateFn tt prompt
                options 1%Z H1) as (_ & E1 & _).
    rewrite (E1 eq_refl).
    destruct (@C9_internal_timeout_is_retried NodeJs unit generateFn tt short
                options 2%Z H2) as (_ & _ & E2).
    change (if Nat.ltb 500 (length prompt)
            then firstn 500 prompt ++ [lf; lf] ++ js "Please provide a direct answer."
            else prompt) with short.
    change (snd (generateFn tt prompt)) with tt.
    change (1 + 1)%Z with 2%Z.
    rewrite E2; [reflexivity | vm_compute; discriminate].
  - vm_compute. reflexivity.
Defined.

(** ** The matcher on character classes *)

Lemma clear_nil b s cs :
  clear [] {| before := b; rest := s; caps := cs |} = {| before := b; rest := s; caps := cs |}.
Proof. reflexivity. Qed.

Lemma repeat_matcher_S step gs greedy fuel min max x :
  repeat_matcher step gs greedy (S fuel) min max x =
  if max_zero max then [x] else
  let more :=
    flat_map
      (fun y =>
         if (Nat.eqb min 0 && Nat.leb (length (rest x)) (length (rest y)))%bool
         then []
         else repeat_matcher step gs greedy fuel (pred min) (max_pred max) y)
      (step (clear gs x)) in
  if negb (Nat.eqb min 0) then more
  else if greedy then more ++ [x]
  else x :: more.
Proof. reflexivity. Qed.

Lemma countdown_map_S n : map (fun k => S k) (countdown n) ++ [0] = countdown (S n).
Proof.
  induction n as [|n IH]; [reflexivity|].
  cbn [countdown map app] in *. now rewrite IH.
Qed.

Lemma star_class (ok : ascii -> bool) (fuel : nat) : forall b s cs,
  length s < fuel ->
  repeat_matcher (fun z => step1 z ok) [] true fuel 0 None
    {| before := b; rest := s; caps := cs |} =
  map (fun k => advance k {| before := b; rest := s; caps := cs |})
      (countdown (prefix_len ok s)).
Proof.
  induction fuel as [|fuel IH]; intros b s cs Hf; [lia|].
  rewrite repeat_matcher_S. cbn [max_zero Nat.eqb negb andb pred max_pred].
  cbv zeta. rewrite clear_nil. unfold step1 at 2. cbn [rest before caps].
  destruct s as [|c t]; [reflexivity|].
  cbn [prefix_len]. destruct (ok c) eqn:Hc; [|reflexivity].
  cbn [flat_map rest length].
  replace (S (length t) <=? length t) with false by (symmetry; apply Nat.leb_gt; lia).
  rewrite app_nil_r.
  rewrite IH by (simpl in Hf; lia).
  rewrite <- countdown_map_S, map_app, map_map.
  reflexivity.
Qed.

Lemma rest_advance k : forall x, rest (advance k x) = skipn k (rest x).
Proof.
  induction k as [|k IH]; intros x; [reflexivity|].
  cbn [advance]. destruct (rest x) as [|c t] eqn:E.
  - now rewrite E.
  - rewrite IH. reflexivity.
Qed.

Lemma caps_advance k : forall x, caps (advance k x) = caps x.
Proof.
  induction k as [|k IH]; intros x; [reflexivity|].
  cbn [advance]. destruct (rest x); [reflexivity|]. now rewrite IH.
Qed.

Lemma prefix_len_le ok s : prefix_len ok s <= length s.
Proof. induction s as [|c t IH]; simpl; [lia|]. destruct (ok c); simpl; lia. Qed.

Lemma plus_class (ok : ascii -> bool) (fuel : nat) b s cs :
  length s <= fuel ->
  repeat_matcher (fun z => step1 z ok) [] true (S fuel) 1 None
    {| before := b; rest := s; caps := cs |} =
  match s with
  | c :: t =>
      if ok c
      then map (fun k => advance k {| before := c :: b; rest := t; caps := cs |})
               (countdown (prefix_len ok t))
      else []
  | [] => []
  end.
Proof.
  intros Hf. rewrite repeat_matcher_S. cbn [max_zero Nat.eqb negb andb pred max_pred].
  cbv zeta. rewrite clear_nil. unfold step1 at 2. cbn [rest before caps].
  destruct s as [|c t]; [reflexivity|].
  destruct (ok c); [|reflexivity].
  cbn [flat_map]. rewrite app_nil_r.
  apply star_class. simpl in Hf. lia.
Qed.

Lemma countdown_head n : exists l, countdown n = n :: l.
Proof. destruct n; eexists; reflexivity. Qed.

Lemma class_space c : class_matches plain false [Space] c = is_space c.
Proof. unfold class_matches. simpl. now rewrite orb_false_r. Qed.

Lemma ws_plus_here b s :
  match_here plain (plus ws) b s =
  match s with
  | c :: t =>
      if is_space c
      then Some {| pre := b; text := c :: firstn (prefix_len is_space t) t;
                   groups := []; post := skipn (prefix_len is_space t) t |}
      else None
  | [] => None
  end.
Proof.
  unfold match_here, plus, ws, start.
  cbn [matcher groups_of rest Nat.add].
  change (matcher plain (Cls false [Space]))
    with (fun z => step1 z (class_matches plain false [Space])).
  rewrite plus_class by lia.
  destruct s as [|c t]; [reflexivity|].
  rewrite class_space. destruct (is_space c); [|reflexivity].
  assert (E : prefix_len (class_matches plain false [Space]) t = prefix_len is_space t).
  { clear. induction t as [|a t IH]; cbn [prefix_len]; [reflexivity|].
    rewrite class_space. destruct (is_space a); [now rewrite IH | reflexivity]. }
  rewrite E.
  destruct (countdown_head (prefix_len is_space t)) as [l ->].
  cbn [map]. unfold consumed. rewrite rest_advance, caps_advance.
  cbn [rest caps]. f_equal. f_equal.
  rewrite length_skipn.
  pose proof (prefix_len_le is_space t) as Hle.
  replace (length (c :: t) - (length t - prefix_len is_space t))
    with (S (prefix_len is_space t)) by (cbn [length]; lia).
  reflexivity.
Qed.

Lemma split_scan_tokens (s : str) :
  (forall b cur, split_scan plain (plus ws) 0 b cur s = tokens_from false cur s) /\
  (forall b, split_scan plain (plus ws) (prefix_len is_space s) b [] s
             = tokens_from true [] s).
Proof.
  induction s as [|c t [IHP IHQ]].
  - split; reflexivity.
  - assert (P : forall b cur,
               split_scan plain (plus ws) 0 b cur (c :: t) = tokens_from false cur (c :: t)).
    { intros b cur. cbn [split_scan tokens_from]. rewrite ws_plus_here.
      destruct (is_space c) eqn:Hc.
      - cbn [text length]. rewrite length_firstn.
        rewrite (Nat.min_l _ _ (prefix_len_le is_space t)).
        unfold capture_list. cbn [groups_of plus ws map app].
        destruct cur; now rewrite IHQ.
      - apply IHP. }
    split; [exact P|].
    intros b. cbn [prefix_len tokens_from].
    destruct (is_space c) eqn:Hc.
    + cbn [split_scan]. apply IHQ.
    + rewrite P. cbn [tokens_from]. now rewrite Hc.
Qed.

Lemma split_ws_tokens (s : str) : split plain (plus ws) s = tokens s.
Proof.
  unfold split, tokens. destruct s as [|c t].
  - rewrite ws_plus_here. reflexivity.
  - apply split_scan_tokens.
Qed.

Lemma eqb_eq (a b : str) : JS.eqb a b = true <-> a = b.
Proof. unfold JS.eqb. destruct (list_eq_dec ascii_dec a b); split; congruence. Qed.








Lemma overlap_loop_spec (words1 words2 : list str) (n : nat) : forall i ov,
  let r := overlap_loop words1 words2 n i ov in
  (r = ov /\ forall j, i <= j < i + n -> overlap_at words1 words2 j = false) \/
  (i <= r < i + n /\ overlap_at words1 words2 r = true /\
   forall j, r < j < i + n -> overlap_at words1 words2 j = false).
Proof.
  induction n as [|n IH]; intros i ov; cbn [overlap_loop].
  - left. split; [reflexivity | intros; lia].
  - fold (overlap_at words1 words2 i).
    destruct (IH (S i) (if overlap_at words1 words2 i then i else ov))
      as [[Hr Hno]|(Hr & Hm & Hno)].
    + destruct (overlap_at words1 words2 i) eqn:Hi.
      * right. cbv zeta. rewrite Hr. split; [lia|]. split; [exact Hi|].
        intros j Hj. apply Hno. lia.
      * left. cbv zeta. rewrite Hr. split; [reflexivity|].
        intros j Hj. destruct (Nat.eq_dec j i) as [->|Hne]; [exact Hi|].
        apply Hno. lia.
    + right. split; [lia|]. split; [exact Hm|]. intros j Hj. apply Hno. lia.
Qed.

(** ** Claims about the resilient decoder *)

(** C2.  On the input with the bare value [create patterns now] the decoder
    returns the object whose value is the string [create] alone: the step
    that quotes one-word values quotes the first word, and Fix 4 of the
    array-element repair then drops what follows the closing quote.  The
    last step of the pipeline, applied to the input itself, would quote the
    three words. *)
Theorem C2_bare_value_keeps_first_word_only :
  Json.parse bare_value_input = Json.Fail Json.SyntaxError /\
  quoteBareValues bare_value_input = object_a (js "create patterns now") /\
  quoteWordValues bare_value_input
    = js "{" ++ dq :: js "a" ++ dq :: js ": " ++ dq :: js "create" ++ dq
      :: js " patterns now}" /\
  fix4 (quoteWordValues bare_value_input) = object_a (js "create") /\
  cleanJsonText bare_value_input = object_a (js "create") /\
  parseJsonWithResilience bare_value_input
    = Returns (Json.Object [(js "a", Json.String (js "create"))]) /\
  parseJsonWithResilience bare_value_input
    <> Returns (Json.Object [(js "a", Json.String (js "create patterns now"))]).
Proof.
  repeat split; try (vm_compute; reflexivity).
  vm_compute. discriminate.
Qed.

(** C3.  The cleanup pipeline is not idempotent on the object whose string
    value holds a backslash followed by [q]: the escape repair turns the
    one backslash into three, and every further pass adds two more; the
    output is still not valid JSON. *)
Theorem C3_cleanup_not_idempotent :
  escape1 [bs; "q"%char] = [bs; bs; "q"%char] /\
  fixEscapeCharacterIssues [bs; "q"%char] = [bs; bs; bs; "q"%char] /\
  cleanJsonText bad_escape_input = object_a [bs; bs; bs; "q"%char] /\
  cleanJsonText (cleanJsonText bad_escape_input)
    = object_a [bs; bs; bs; bs; bs; "q"%char] /\
  cleanJsonText (cleanJsonText bad_escape_input) <> cleanJsonText bad_escape_input /\
  Json.parse (cleanJsonText bad_escape_input) = Json.Fail Json.SyntaxError.
Proof.
  repeat split; try (vm_compute; reflexivity).
  vm_compute. discriminate.
Qed.

(** ** The matcher and the matches of a pattern *)

Lemma step1_in x ok y :
  In y (step1 x ok) <-> exists a t, rest x = a :: t /\ ok a = true /\ y = step_to x a t.
Proof.
  unfold step1, step_to. destruct (rest x) as [|a t].
  - split; [intros [] | intros (a & t & H & _); discriminate].
  - destruct (ok a) eqn:E.
    + split.
      * intros [<-|[]]. now exists a, t.
      * intros (a' & t' & H & _ & ->). injection H as <- <-. now left.
    + split; [intros [] | intros (a' & t' & H & Hok & _)].
      injection H as <- <-. congruence.
Qed.

Lemma prefix_matches_rest fl p : forall x w y,
  prefix_matches fl p x w y -> rest x = w ++ rest y.
Proof.
  induction p as [|a p IH]; intros x w y; cbn [prefix_matches].
  - now intros [-> ->].
  - intros (c & t & w' & Hr & _ & -> & H). apply IH in H. cbn in H. now rewrite Hr, H.
Qed.

Lemma reps_rest (step : mstate -> str -> mstate -> Prop) gs :
  (forall x w y, step x w y -> rest x = w ++ rest y) ->
  forall min max x w y, reps step gs min max x w y -> rest x = w ++ rest y.
Proof.
  intros Hs min max x w y H. induction H as [| |min max x w1 z w2 y _ H1 _ _ IH];
    try reflexivity.
  apply Hs in H1. cbn in H1. now rewrite H1, IH, app_assoc.
Qed.

Lemma matches_rest fl r : forall x w y, matches fl r x w y -> rest x = w ++ rest y.
Proof.
  induction r as [|c|neg items|r1 IH1 r2 IH2|r1 IH1 r2 IH2|r IH min max g|n r IH|n| | | |p r IH];
    intros x w y; cbn [matches].
  - now intros [-> ->].
  - now intros (a & t & Hr & _ & -> & ->).
  - now intros (a & t & Hr & _ & -> & ->).
  - intros (w1 & z & w2 & H1 & H2 & ->). apply IH1 in H1. apply IH2 in H2.
    now rewrite H1, H2, app_assoc.
  - intros [H|H]; auto.
  - apply reps_rest. exact IH.
  - intros (z & H & ->). now apply IH in H.
  - destruct (capture n (caps x)); [apply prefix_matches_rest | now intros [-> ->]].
  - now intros (_ & -> & ->).
  - now intros (_ & -> & ->).
  - now intros (_ & -> & ->).
  - intros [-> H]. destruct (matcher fl r x); destruct H as [_ ->]; reflexivity.
Qed.

Lemma consumed_app x w y : rest x = w ++ rest y -> consumed x y = w.
Proof.
  intros H. unfold consumed. rewrite H, length_app.
  replace (length w + length (rest y) - length (rest y)) with (length w + 0) by lia.
  rewrite firstn_app_2, firstn_O. apply app_nil_r.
Qed.

Lemma match_prefix_iff fl p : forall x y,
  In y (match_prefix fl p x) <-> exists w, prefix_matches fl p x w y.
Proof.
  induction p as [|a p IH]; intros x y; cbn [match_prefix prefix_matches].
  - split.
    + intros [<-|[]]. now exists [].
    + intros (w & _ & ->). now left.
  - rewrite in_flat_map. split.
    + intros (z & Hz & Hy). apply step1_in in Hz. destruct Hz as (c & t & Hr & Hc & ->).
      apply IH in Hy. destruct Hy as (w' & Hw). exists (c :: w'), c, t, w'. auto.
    + intros (w & c & t & w' & Hr & Hc & -> & H).
      exists (step_to x c t). split.
      * apply step1_in. now exists c, t.
      * apply IH. now exists w'.
Qed.

Section Repeat.
Variable stepf : mstate -> list mstate.
Variable step : mstate -> str -> mstate -> Prop.
Variable gs : list nat.
Variable greedy : bool.

Lemma repeat_matcher_in fuel min max x y :
  In y (repeat_matcher stepf gs greedy (S fuel) min max x) <->
  (max_zero max = true /\ y = x) \/
  (max_zero max = false /\
   ((min = 0 /\ y = x) \/
    exists z, In z (stepf (clear gs x)) /\
              (min = 0 -> length (rest z) < length (rest x)) /\
              In y (repeat_matcher stepf gs greedy fuel (pred min) (max_pred max) z))).
Proof.
  cbn [repeat_matcher]. destruct (max_zero max).
  - split; [intros [<-|[]]; now left | intros [[_ ->]|[H _]]; [now left | discriminate]].
  - set (more := flat_map _ _).
    assert (Hmore : In y more <->
              exists z, In z (stepf (clear gs x)) /\
                (min = 0 -> length (rest z) < length (rest x)) /\
                In y (repeat_matcher stepf gs greedy fuel (pred min) (max_pred max) z)).
    { subst more. rewrite in_flat_map. split.
      - intros (z & Hz & Hy). exists z. split; [exact Hz|].
        destruct min as [|m]; cbn [Nat.eqb andb] in Hy.
        + destruct (Nat.leb_spec (length (rest x)) (length (rest z))); [destruct Hy|].
          split; [intros _; lia | exact Hy].
        + split; [discriminate | exact Hy].
      - intros (z & Hz & Hp & Hy). exists z. split; [exact Hz|].
        destruct min as [|m]; cbn [Nat.eqb andb].
        + specialize (Hp eq_refl).
          destruct (Nat.leb_spec (length (rest x)) (length (rest z))); [lia | exact Hy].
        + exact Hy. }
    destruct min as [|m]; cbn [Nat.eqb negb].
    + assert (Hin : In y (if greedy then more ++ [x] else x :: more) <->
                    y = x \/ In y more).
      { destruct greedy; [rewrite in_app_iff|]; cbn [In]; intuition congruence. }
      rewrite Hin, Hmore. split.
      * intros [->|H]; right; (split; [reflexivity|]); [left; now split | now right].
      * intros [[H _]|[_ [[_ ->]|H]]]; [discriminate | now left | now right].
    + rewrite Hmore. split.
      * intros H. right. split; [reflexivity|]. now right.
      * intros [[H _]|[_ [[H _]|H]]]; [discriminate | discriminate | exact H].
Qed.

Hypothesis step_sound : forall x y, In y (stepf x) -> exists w, step x w y.
Hypothesis step_complete : forall x w y, step x w y -> In y (stepf x).
Hypothesis step_rest : forall x w y, step x w y -> rest x = w ++ rest y.

Lemma repeat_matcher_sound fuel : forall min max x y,
  In y (repeat_matcher stepf gs greedy fuel min max x) ->
  exists w, reps step gs min max x w y.
Proof.
  induction fuel as [|fuel IH]; intros min max x y H; [destruct H|].
  apply repeat_matcher_in in H.
  destruct H as [[Hm ->]|[Hm [[-> ->]|(z & Hz & Hp & Hy)]]].
  - destruct max as [[|k]|]; try discriminate. exists []. constructor.
  - exists []. now constructor.
  - apply step_sound in Hz. destruct Hz as (w1 & Hz).
    apply IH in Hy. destruct Hy as (w2 & Hy).
    exists (w1 ++ w2). now apply reps_more with (z := z).
Qed.

Lemma repeat_matcher_complete min max x w y :
  reps step gs min max x w y ->
  forall fuel, min + length (rest x) < fuel ->
  In y (repeat_matcher stepf gs greedy fuel min max x).
Proof.
  induction 1 as [min x|max x Hm|min max x w1 z w2 y Hm Hz Hp _ IH];
    intros [|fuel] Hf; try lia; apply repeat_matcher_in.
  - left. now split.
  - right. split; [exact Hm|]. left. now split.
  - right. split; [exact Hm|]. right. exists z.
    split; [now apply step_complete with (w := w1)|]. split; [exact Hp|].
    apply IH. apply step_rest in Hz. cbn in Hz.
    assert (length (rest z) <= length (rest x))
      by (rewrite Hz, length_app; lia).
    destruct min as [|m]; [specialize (Hp eq_refl)|]; cbn [pred]; lia.
Qed.
End Repeat.

Lemma matcher_sound fl r : forall x y,
  In y (matcher fl r x) -> exists w, matches fl r x w y.
Proof.
  induction r as [|c|neg items|r1 IH1 r2 IH2|r1 IH1 r2 IH2|r IH min max g|n r IH|n| | | |p r IH];
    intros x y; cbn [matcher matches].
  - intros [<-|[]]. now exists [].
  - intros H. apply step1_in in H. destruct H as (a & t & Hr & Hc & ->).
    exists [a], a, t. auto.
  - intros H. apply step1_in in H. destruct H as (a & t & Hr & Hc & ->).
    exists [a], a, t. auto.
  - rewrite in_flat_map. intros (z & Hz & Hy).
    apply IH1 in Hz. apply IH2 in Hy. destruct Hz as (w1 & Hz), Hy as (w2 & Hy).
    exists (w1 ++ w2), w1, z, w2. auto.
  - rewrite in_app_iff. intros [H|H]; [apply IH1 in H | apply IH2 in H];
      destruct H as (w & H); exists w; auto.
  - apply repeat_matcher_sound. exact IH.
  - rewrite in_map_iff. intros (z & <- & Hz). apply IH in Hz. destruct Hz as (w & Hz).
    exists w, z. split; [exact Hz|].
    erewrite consumed_app by (eapply matches_rest; eassumption). reflexivity.
  - destruct (capture n (caps x)).
    + apply match_prefix_iff.
    + intros [<-|[]]. now exists [].
  - destruct (xorb _ _); [|intros []]. intros [<-|[]]. now exists [].
  - destruct (at_line_start fl x); [|intros []]. intros [<-|[]]. now exists [].
  - destruct (at_line_end fl x); [|intros []]. intros [<-|[]]. now exists [].
  - destruct (matcher fl r x) as [|z l]; destruct p; cbn [In]; try tauto;
      intros [<-|[]]; now exists [].
Qed.

Lemma matcher_complete fl r : forall x w y,
  matches fl r x w y -> In y (matcher fl r x).
Proof.
  induction r as [|c|neg items|r1 IH1 r2 IH2|r1 IH1 r2 IH2|r IH min max g|n r IH|n| | | |p r IH];
    intros x w y; cbn [matcher matches].
  - intros [_ ->]. now left.
  - intros (a & t & Hr & Hc & _ & ->). apply step1_in. now exists a, t.
  - intros (a & t & Hr & Hc & _ & ->). apply step1_in. now exists a, t.
  - intros (w1 & z & w2 & H1 & H2 & _). apply in_flat_map. exists z.
    split; [now apply IH1 with (w := w1) | now apply IH2 with (w := w2)].
  - rewrite in_app_iff. intros [H|H]; [left; eapply IH1 | right; eapply IH2]; eauto.
  - intros H.
    apply (@repeat_matcher_complete (matcher fl r) (matches fl r) (groups_of r) g
             IH (@matches_rest fl r) min max x w y H).
    lia.
  - intros (z & Hz & ->). apply in_map_iff. exists z.
    split; [|now apply IH with (w := w)].
    erewrite consumed_app by (eapply matches_rest; eassumption). reflexivity.
  - destruct (capture n (caps x)).
    + intros H. apply match_prefix_iff. now exists w.
    + intros [_ ->]. now left.
  - intros (-> & _ & ->). now left.
  - intros (-> & _ & ->). now left.
  - intros (-> & _ & ->). now left.
  - intros [_ H]. destruct (matcher fl r x) as [|z l]; destruct H as [-> ->]; now left.
Qed.

(** ** Replacement and the array-element repair *)

Local Open Scope char_scope.

Lemma match_here_some fl r b s f :
  match_here fl r b s = Some f ->
  exists w y, matches fl r (start b s) w y /\
              text f = w /\ groups f = caps y /\ post f = rest y /\
              pre f = b /\ s = w ++ post f.
Proof.
  unfold match_here. destruct (matcher fl r (start b s)) as [|y l] eqn:E; [discriminate|].
  intros H. injection H as <-. cbn [text groups post pre].
  assert (Hin : In y (matcher fl r (start b s))) by (rewrite E; now left).
  apply matcher_sound in Hin. destruct Hin as (w & Hw).
  pose proof (matches_rest _ _ _ _ _ Hw) as Hr. cbn [start rest] in Hr.
  exists w, y. repeat split; auto.
  now apply consumed_app.
Qed.

Lemma match_here_none fl r b s :
  match_here fl r b s = None <-> forall w y, ~ matches fl r (start b s) w y.
Proof.
  unfold match_here. destruct (matcher fl r (start b s)) as [|y l] eqn:E.
  - split; [|reflexivity]. intros _ w y H. apply matcher_complete in H.
    rewrite E in H. destruct H.
  - split; [discriminate|]. intros H. exfalso.
    assert (Hin : In y (matcher fl r (start b s))) by (rewrite E; now left).
    apply matcher_sound in Hin. destruct Hin as (w & Hw). now apply (H w y).
Qed.

Section ReplaceRel.
Variable R : str -> str -> Prop.
Hypothesis R_nil : R [] [].
Hypothesis R_keep : forall c a b, R a b -> R (c :: a) (c :: b).
Hypothesis R_app : forall a a' b b', R a a' -> R b b' -> R (a ++ b) (a' ++ b').
Variable fl : flags.
Variable r : regex.
Variable by_ : found -> str.
Hypothesis R_match : forall b s f, match_here fl r b s = Some f -> R (text f) (by_ f).

Lemma replace_scan_rel s : forall skip b,
  skip <= length s -> R (skipn skip s) (replace_scan fl r by_ skip b s).
Proof.
  induction s as [|c s IH]; intros skip b Hs.
  - destruct skip; [|simpl in Hs; lia]. cbn [replace_scan skipn].
    destruct (match_here fl r b []) as [f|] eqn:E; [|exact R_nil].
    pose proof (R_match _ _ E) as HR.
    apply match_here_some in E. destruct E as (w & y & _ & Ht & _ & _ & _ & Hs').
    symmetry in Hs'. apply app_eq_nil in Hs'. destruct Hs' as [-> _].
    rewrite Ht in HR. now rewrite app_nil_r.
  - destruct skip as [|k].
    + cbn [replace_scan skipn].
      destruct (match_here fl r b (c :: s)) as [f|] eqn:E.
      * pose proof (R_match _ _ E) as HR.
        apply match_here_some in E. destruct E as (w & y & _ & Ht & _ & _ & _ & Hs').
        rewrite Ht in *. destruct w as [|a w]; cbn [length].
        -- change (c :: s) with ([] ++ c :: s). apply R_app; [exact HR|].
           apply R_keep. apply (IH 0). lia.
        -- cbn [app] in Hs'. injection Hs' as <- Hs'.
           assert (Hk : skipn (length w) s = post f)
             by (rewrite Hs', skipn_app, skipn_all, Nat.sub_diag; reflexivity).
           assert (Hc : c :: s = (c :: w) ++ skipn (length w) s)
             by (rewrite Hk, Hs' at 1; reflexivity).
           rewrite Hc at 1. apply R_app; [exact HR|].
           apply IH. rewrite Hs', length_app. lia.
      * apply R_keep. apply (IH 0). lia.
    + cbn [replace_scan skipn]. apply IH. simpl in Hs. lia.
Qed.

Lemma replace_all_rel s : R s (replace_all fl r by_ s).
Proof. apply (@replace_scan_rel s 0 []). lia. Qed.
End ReplaceRel.

Lemma reps_chars (step : mstate -> str -> mstate -> Prop) (P : ascii -> bool) :
  (forall x w y, step x w y ->
     exists a t, rest x = a :: t /\ P a = true /\ w = [a] /\ y = step_to x a t) ->
  forall min max x w y,
    reps step [] min max x w y ->
    Forall (fun a => P a = true) w /\ caps y = caps x /\
    (max = None -> min <= length w).
Proof.
  intros Hs min max x w y H.
  induction H as [min x|max x Hm|min max x w1 z w2 y Hm Hz Hp _ IH].
  - repeat split; [constructor | discriminate].
  - repeat split; [constructor | intros _; simpl; lia].
  - apply Hs in Hz. destruct Hz as (a & t & _ & Ha & -> & ->).
    destruct IH as (IH1 & IH2 & IH3). repeat split.
    + now constructor.
    + rewrite IH2. reflexivity.
    + intros ->. specialize (IH3 eq_refl). simpl. lia.
Qed.

Lemma reps_class fl neg items min max x w y :
  reps (matches fl (Cls neg items)) [] min max x w y ->
  Forall (fun a => class_matches fl neg items a = true) w /\ caps y = caps x /\
  (max = None -> min <= length w).
Proof. apply reps_chars. intros x0 w0 y0 H. exact H. Qed.

Lemma reps_chr fl c min max x w y :
  reps (matches fl (Chr c)) [] min max x w y ->
  Forall (fun a => canon_eq fl c a = true) w /\ caps y = caps x /\
  (max = None -> min <= length w).
Proof. apply reps_chars. intros x0 w0 y0 H. exact H. Qed.

Lemma count_none (P : ascii -> bool) (c : ascii) (w : str) :
  Forall (fun a => P a = true) w -> P c = false -> count c w = 0.
Proof.
  intros H Hc. induction H as [|a w Ha _ IH]; [reflexivity|].
  cbn [count]. destruct (Ascii.eqb_spec a c) as [->|_]; [congruence | exact IH].
Qed.

Ltac open_match H :=
  apply match_here_some in H;
  let w := fresh "w" in let y := fresh "y" in
  let Hm := fresh "Hm" in let Ht := fresh "Ht" in let Hg := fresh "Hg" in
  destruct H as (w & y & Hm & Ht & Hg & _);
  cbn [matches seq lit plus star opt at_least groups_of app list_ascii_of_string] in Hm;
  repeat match goal with
         | H : exists _, _ |- _ => destruct H
         | H : _ /\ _ |- _ => destruct H
         end.

Ltac class_facts :=
  repeat match goal with
         | H : reps _ [] _ _ _ _ _ |- _ =>
             eapply reps_chars in H; [|intros ? ? ? HH; exact HH];
             destruct H as (? & ? & ?)
         end.

Lemma canon_exact fl a c :
  ignoreCase fl = false -> canon_eq fl a c = true -> c = a.
Proof.
  unfold canon_eq. intros ->. intros H. apply Ascii.eqb_eq in H. now subst.
Qed.

Ltac canon_facts :=
  repeat match goal with
         | H : canon_eq _ _ _ = true |- _ => apply canon_exact in H; [|reflexivity]
         end.

Ltac read_match H :=
  open_match H; simpl groups_of in *; class_facts; canon_facts; subst.

Ltac read_groups Hg :=
  unfold expand, group_text; rewrite Hg;
  cbn [flat_map capture caps step_to Nat.eqb app];
  repeat match goal with
         | H : caps _ = _ |- _ => rewrite H; cbn [flat_map capture caps step_to Nat.eqb app]
         end.


Ltac count_braces Hc :=
  repeat (rewrite ?count_app; cbn [count app]);
  destruct Hc; subst;
  repeat match goal with
         | H : Forall (fun a => ?P a = true) ?w |- _ =>
             rewrite (@count_none P _ w H) by reflexivity
         end;
  cbn; try lia.

Ltac count_fixed :=
  repeat (rewrite ?count_app; cbn [count app]);
  repeat match goal with
         | H : Forall (fun a => ?P a = true) ?w |- _ =>
             rewrite (@count_none P _ w H) by reflexivity
         end;
  cbn; try lia.

Lemma fix1_counts c b s f :
  brace c ->
  match_here plain (seq [Chr "}"; star ws; Chr "{"]) b s = Some f ->
  count c (text f) = count c (expand [Lit (js "},{")] f).
Proof.
  intros Hc H. unfold ws in H. read_match H.
  rewrite Ht. read_groups Hg. count_braces Hc.
Qed.

Lemma fix2_counts c b s f :
  brace c ->
  match_here plain
    (seq [Chr dq; plus ws; Chr dq; Group 1 (plus not_delim); Chr dq]) b s = Some f ->
  count c (text f) = count c (expand [Lit [dq; ","; " "; dq]; Ref 1; Lit [dq]] f).
Proof.
  intros Hc H. unfold ws, not_delim in H. read_match H.
  rewrite Ht. read_groups Hg. count_braces Hc.
Qed.

Lemma fix3_counts c b s f :
  brace c ->
  match_here plain
    (seq [Group 1 (Cls true [One ","; Space]); star ws; Chr "]"]) b s = Some f ->
  count c (text f) = count c (expand [Ref 1; Lit (js "]")] f).
Proof.
  intros Hc H. unfold ws in H. read_match H.
  rewrite Ht. read_groups Hg. count_braces Hc.
Qed.

Lemma fix4_braces b s f :
  match_here plain
    (seq [Chr "{"; star ws; Chr dq; Group 1 (star not_quote); Chr dq; Chr ":";
          star ws; Chr dq; Group 2 (star not_quote); Chr dq;
          Group 3 (star (Cls true [One ","; One "}"])); star ws; Chr "}"]) b s = Some f ->
  same_braces (text f)
    (expand [Lit ("{" :: [dq]); Ref 1; Lit [dq; ":"; " "; dq]; Ref 2;
             Lit (dq :: js "}")] f).
Proof.
  intros H. unfold ws, not_quote in H. read_match H.
  unfold same_braces. rewrite Ht. read_groups Hg. split.
  - count_fixed.
  - intros Hz. exfalso. revert Hz. count_fixed.
Qed.

Lemma fix5a_counts c b s f :
  brace c ->
  match_here plain
    (seq [Chr ":"; star ws; Chr dq; Group 1 (Seq (star not_quote) letter);
          lit (js "...")]) b s = Some f ->
  count c (text f) = count c (expand [Lit [":"; " "; dq]; Ref 1; Lit [dq]] f).
Proof.
  intros Hc H. unfold ws, not_quote, letter in H. read_match H.
  rewrite Ht. read_groups Hg. count_braces Hc.
Qed.

Lemma fix5b_counts c b s f :
  brace c ->
  match_here flag_m
    (seq [Chr ":"; star ws; Chr dq; Group 1 (star not_quote); star ws; Eol]) b s
  = Some f ->
  count c (text f) = count c (expand [Lit [":"; " "; dq]; Ref 1; Lit [dq]] f).
Proof.
  intros Hc H. unfold ws, not_quote in H. read_match H.
  rewrite Ht. read_groups Hg. count_braces Hc.
Qed.

Lemma fix6_counts c b s f :
  brace c ->
  match_here plain
    (seq [Chr dq; Chr ":"; Chr " "; Chr dq; Group 1 (star not_quote); Chr dq;
          Group 2 (star not_delim); Chr dq; Group 3 (star not_delim); Chr dq;
          Chr ","]) b s = Some f ->
  count c (text f)
  = count c (expand [Lit [dq; ":"; " "; dq]; Ref 1; Lit [bs; dq]; Ref 2; Lit [bs; dq];
                     Ref 3; Lit [dq; ","]] f).
Proof.
  intros Hc H. unfold not_quote, not_delim in H. read_match H.
  rewrite Ht. read_groups Hg. count_braces Hc.
Qed.

Lemma same_braces_nil : same_braces [] [].
Proof. split; reflexivity. Qed.

Lemma same_braces_keep c a b : same_braces a b -> same_braces (c :: a) (c :: b).
Proof.
  intros [H1 H2]. split; cbn [count]; [now rewrite H1|].
  intros Hz. rewrite H2 by lia. reflexivity.
Qed.

Lemma same_braces_app a a' b b' :
  same_braces a a' -> same_braces b b' -> same_braces (a ++ b) (a' ++ b').
Proof.
  intros [H1 H2] [H3 H4]. split; rewrite !count_app; [now rewrite H1, H3|].
  intros Hz. rewrite H2, H4 by lia. reflexivity.
Qed.

Lemma same_braces_trans a b c :
  same_braces a b -> same_braces b c -> same_braces a c.
Proof.
  intros [H1 H2] [H3 H4]. split; [congruence|].
  intros Hz. rewrite H2 by exact Hz. apply H4. congruence.
Qed.

Lemma same_braces_counts a b :
  (forall c, brace c -> count c a = count c b) -> same_braces a b.
Proof. intros H. split; [|intros _]; apply H; [now right | now left]. Qed.

Lemma replace_all_braces fl r by_ :
  (forall b s f, match_here fl r b s = Some f -> same_braces (text f) (by_ f)) ->
  forall s, same_braces s (replace_all fl r by_ s).
Proof.
  intros H s. apply replace_all_rel; auto.
  - exact same_braces_nil.
  - exact same_braces_keep.
  - exact same_braces_app.
Qed.

Lemma fix1_braces s : same_braces s (fix1 s).
Proof.
  unfold fix1. apply replace_all_braces. intros b0 s0 f0 H0.
  apply same_braces_counts. intros c Hc. exact (@fix1_counts c b0 s0 f0 Hc H0).
Qed.

Lemma fix2_braces s : same_braces s (fix2 s).
Proof.
  unfold fix2. apply replace_all_braces. intros b0 s0 f0 H0.
  apply same_braces_counts. intros c Hc. exact (@fix2_counts c b0 s0 f0 Hc H0).
Qed.

Lemma fix3_braces s : same_braces s (fix3 s).
Proof.
  unfold fix3. apply replace_all_braces. intros b0 s0 f0 H0.
  apply same_braces_counts. intros c Hc. exact (@fix3_counts c b0 s0 f0 Hc H0).
Qed.

Lemma fix5a_braces s : same_braces s (fix5a s).
Proof.
  unfold fix5a. apply replace_all_braces. intros b0 s0 f0 H0.
  apply same_braces_counts. intros c Hc. exact (@fix5a_counts c b0 s0 f0 Hc H0).
Qed.

Lemma fix5b_braces s : same_braces s (fix5b s).
Proof.
  unfold fix5b. apply replace_all_braces. intros b0 s0 f0 H0.
  apply same_braces_counts. intros c Hc. exact (@fix5b_counts c b0 s0 f0 Hc H0).
Qed.

Lemma fix6_braces s : same_braces s (fix6 s).
Proof.
  unfold fix6. apply replace_all_braces. intros b0 s0 f0 H0.
  apply same_braces_counts. intros c Hc. exact (@fix6_counts c b0 s0 f0 Hc H0).
Qed.

Lemma fix4_all_braces s : same_braces s (fix4 s).
Proof.
  unfold fix4. apply replace_all_braces. intros b0 s0 f0 H0.
  exact (@fix4_braces b0 s0 f0 H0).
Qed.

Lemma fixes_1_to_6_braces s :
  same_braces s (fix6 (fix5b (fix5a (fix4 (fix3 (fix2 (fix1 s))))))).
Proof.
  eapply same_braces_trans; [|apply fix6_braces].
  eapply same_braces_trans; [|apply fix5b_braces].
  eapply same_braces_trans; [|apply fix5a_braces].
  eapply same_braces_trans; [|apply fix4_all_braces].
  eapply same_braces_trans; [|apply fix3_braces].
  eapply same_braces_trans; [|apply fix2_braces].
  apply fix1_braces.
Qed.

Lemma drops_refl s : drops_commas s s.
Proof. induction s; constructor; auto. Qed.

Lemma drops_app a a' b b' :
  drops_commas a a' -> drops_commas b b' -> drops_commas (a ++ b) (a' ++ b').
Proof. induction 1; intros Hb; cbn [app]; try constructor; auto. Qed.

Lemma drops_count c a b :
  c <> "," -> drops_commas a b -> count c a = count c b.
Proof.
  intros Hc H. induction H as [|d a b _ IH|a b _ IH]; cbn [count]; auto.
  destruct (Ascii.eqb_spec "," c); [congruence | exact IH].
Qed.

Lemma drops_without_comma u out :
  ~ In "," u -> drops_commas u out -> out = u.
Proof.
  intros Hu H. induction H as [|d a b _ IH|a b _ IH].
  - reflexivity.
  - f_equal. apply IH. intros Hin. apply Hu. now right.
  - exfalso. apply Hu. now left.
Qed.

Lemma drops_suffix a : forall u out,
  ~ In "," u -> drops_commas (a ++ u) out ->
  exists a', out = a' ++ u /\ drops_commas a a'.
Proof.
  induction a as [|c a IH]; intros u out Hu H; cbn [app] in H.
  - exists []. split; [now apply drops_without_comma | constructor].
  - inversion H as [|d x y Hxy|x y Hxy]; subst.
    + destruct (IH u y Hu Hxy) as (a' & -> & Ha). exists (c :: a'). split; [reflexivity|].
      now constructor.
    + destruct (IH u out Hu Hxy) as (a' & -> & Ha). exists a'. split; [reflexivity|].
      now constructor.
Qed.

Lemma drops_all w : Forall (fun a => a = ",") w -> drops_commas w [].
Proof. induction 1 as [|a w -> _ IH]; constructor; auto. Qed.

Lemma fix8a_drops b s f :
  match_here plain (plus (Chr ",")) b s = Some f ->
  drops_commas (text f) (expand [Lit (js ",")] f).
Proof.
  intros H. apply match_here_some in H.
  destruct H as (w & y & Hm & Ht & _). cbn [matches plus groups_of] in Hm.
  apply reps_chr in Hm. destruct Hm as (Hall & _ & Hl).
  rewrite Ht. cbn [expand flat_map app list_ascii_of_string].
  assert (Hc : Forall (fun a => a = ",") w).
  { eapply Forall_impl; [|exact Hall]. intros a Ha.
    now apply canon_exact in Ha. }
  specialize (Hl eq_refl). destruct w as [|a w]; [simpl in Hl; lia|].
  inversion Hc; subst. apply dc_keep. now apply drops_all.
Qed.

Lemma fix8b_drops b s f :
  match_here plain (Seq (Chr ",") (Group 1 (Seq (star ws) closer))) b s = Some f ->
  drops_commas (text f) (expand [Ref 1] f).
Proof.
  intros H. unfold ws, closer in H. read_match H. rewrite Ht. read_groups Hg.
  cbn [app]. apply dc_drop. rewrite app_nil_r. apply drops_refl.
Qed.

Lemma replace_all_drops fl r by_ :
  (forall b s f, match_here fl r b s = Some f -> drops_commas (text f) (by_ f)) ->
  forall s, drops_commas s (replace_all fl r by_ s).
Proof.
  intros H s. apply replace_all_rel; auto.
  - constructor.
  - intros; now constructor.
  - exact drops_app.
Qed.

Lemma fix8_drops s : drops_commas s (fix8a s) /\ drops_commas s (fix8b s).
Proof.
  split; [unfold fix8a | unfold fix8b]; apply replace_all_drops; intros b0 s0 f0 H0.
  - exact (@fix8a_drops b0 s0 f0 H0).
  - exact (@fix8b_drops b0 s0 f0 H0).
Qed.

Lemma includes_count c s : includes s [c] = negb (Nat.eqb (count c s) 0).
Proof.
  destruct (Nat.eqb_spec (count c s) 0) as [Hz|Hnz]; cbn [negb].
  - apply includes_char_false. now apply count_zero.
  - apply includes_char. destruct (in_dec ascii_dec c s) as [Hin|Hnin]; [exact Hin|].
    apply count_zero in Hnin. contradiction.
Qed.

Lemma count_repeat_other c d n : c <> d -> count c (repeat d n) = 0.
Proof.
  intros Hne. induction n as [|n IH]; [reflexivity|]. cbn [repeat count].
  destruct (Ascii.eqb_spec d c); [congruence | exact IH].
Qed.

(** C4, as the code has it.  For every candidate that has an opening brace
    and no closing brace, the array-element repair ends its result with as
    many closing braces as the candidate has opening braces, the missing
    number, and the text before them has the opening braces of the candidate
    and no closing brace.  A candidate that has a closing brace keeps its
    number of closing braces: none is appended, whatever the counts are. *)
Theorem C4_closing_braces_only_without_any :
  forall s : str,
    (includes s (js "{") = true -> includes s (js "}") = false ->
     exists body,
       fixArrayElementSeparation s = body ++ repeat "}" (count "{" s) /\
       count "{" body = count "{" s /\ count "}" body = 0)
    /\
    (includes s (js "}") = true ->
     count "}" (fixArrayElementSeparation s) = count "}" s).
Proof.
  intros s.
  set (t := fix6 (fix5b (fix5a (fix4 (fix3 (fix2 (fix1 s))))))).
  assert (Ht : same_braces s t) by apply fixes_1_to_6_braces.
  assert (E : fixArrayElementSeparation s = fix8b (fix8a (fix7 t))) by reflexivity.
  change (js "{") with ["{"]. change (js "}") with ["}"].
  rewrite !includes_count. destruct Ht as [Hclose Hopen]. split.
  - intros Ho Hc.
    apply negb_true_iff, Nat.eqb_neq in Ho. apply negb_false_iff, Nat.eqb_eq in Hc.
    specialize (Hopen Hc).
    assert (E7 : fix7 t = t ++ repeat "}" (count "{" s)).
    { unfold fix7. change (js "{") with ["{"]. change (js "}") with ["}"].
      rewrite !includes_count, <- Hclose, <- Hopen, Hc.
      replace (count "{" s =? 0)%nat with false by (symmetry; now apply Nat.eqb_neq).
      cbn [negb andb Nat.eqb].
      replace (0 <? count "{" s)%nat with true by (symmetry; apply Nat.ltb_lt; lia).
      now rewrite Nat.sub_0_r. }
    assert (Hrep : ~ In "," (repeat "}" (count "{" s))).
    { intros Hin. apply repeat_spec in Hin. discriminate. }
    destruct (fix8_drops (fix7 t)) as [Ha _].
    rewrite E7 in Ha. apply drops_suffix in Ha; [|exact Hrep].
    destruct Ha as (t1 & E8a & Ht1).
    destruct (fix8_drops (fix8a (fix7 t))) as [_ Hb].
    rewrite E7, E8a in Hb. apply drops_suffix in Hb; [|exact Hrep].
    destruct Hb as (t2 & E8b & Ht2).
    exists t2. rewrite E, E7, E8a. split; [exact E8b|].
    split.
    + rewrite <- (drops_count (c := "{") ltac:(discriminate) Ht2).
      rewrite <- (drops_count (c := "{") ltac:(discriminate) Ht1). congruence.
    + rewrite <- (drops_count (c := "}") ltac:(discriminate) Ht2).
      rewrite <- (drops_count (c := "}") ltac:(discriminate) Ht1). congruence.
  - intros Hc. apply negb_true_iff, Nat.eqb_neq in Hc.
    assert (E7 : fix7 t = t).
    { unfold fix7. change (js "}") with ["}"].
      rewrite (includes_count "}" t), <- Hclose.
      replace (count "}" s =? 0)%nat with false by (symmetry; now apply Nat.eqb_neq).
      cbn [negb]. now rewrite andb_false_r. }
    destruct (fix8_drops (fix7 t)) as [Ha _].
    destruct (fix8_drops (fix8a (fix7 t))) as [_ Hb].
    rewrite E.
    rewrite <- (drops_count (c := "}") ltac:(discriminate) Hb).
    rewrite <- (drops_count (c := "}") ltac:(discriminate) Ha).
    rewrite E7. congruence.
Qed.

Lemma C4_witness :
  includes truncated_object (js "{") = true /\
  includes truncated_object (js "}") = false /\
  exists body,
    fixArrayElementSeparation truncated_object
      = body ++ repeat "}" (count "{" truncated_object) /\
    count "{" body = count "{" truncated_object /\ count "}" body = 0.
Proof.
  split; [reflexivity|]. split; [reflexivity|].
  exact (proj1 (C4_closing_braces_only_without_any truncated_object)
           eq_refl eq_refl).
Defined.

(** C4 as stated fails: a complete object followed by a truncated one has
    two opening braces and one closing brace, and the repair returns it
    without appending the missing brace. *)
Lemma C4_counterexample :
  count "{" truncated_second_object = 2 /\
  count "}" truncated_second_object = 1 /\
  fixArrayElementSeparation truncated_second_object = truncated_second_object /\
  fixArrayElementSeparation truncated_second_object
    <> truncated_second_object ++ repeat "}" 1.
Proof.
  repeat split; try (vm_compute; reflexivity).
  vm_compute. discriminate.
Qed.

(** ** Issue detection *)

Lemma exec_from_none fl r s : forall b,
  exec_from fl r b s = None <->
  forall s1 s2, s = s1 ++ s2 -> match_here fl r (rev s1 ++ b) s2 = None.
Proof.
  induction s as [|c s IH]; intros b; cbn [exec_from].
  - destruct (match_here fl r b []) eqn:E.
    + split; [discriminate|]. intros H. specialize (H [] [] eq_refl). cbn in H. congruence.
    + split; [|reflexivity]. intros _ s1 s2 H.
      symmetry in H. apply app_eq_nil in H. destruct H as [-> ->]. exact E.
  - destruct (match_here fl r b (c :: s)) eqn:E.
    + split; [discriminate|]. intros H. specialize (H [] (c :: s) eq_refl). cbn in H. congruence.
    + rewrite IH. split.
      * intros H s1 s2 Hs. destruct s1 as [|a s1]; cbn [app] in Hs.
        -- subst s2. exact E.
        -- injection Hs as <- Hs. cbn [rev]. rewrite <- app_assoc. now apply H.
      * intros H s1 s2 Hs. specialize (H (c :: s1) s2).
        cbn [rev] in H. rewrite <- app_assoc in H. apply H. now rewrite Hs.
Qed.

Lemma exec_from_some fl r s : forall b f,
  exec_from fl r b s = Some f ->
  exists s1 s2, s = s1 ++ s2 /\ match_here fl r (rev s1 ++ b) s2 = Some f.
Proof.
  induction s as [|c s IH]; intros b f; cbn [exec_from].
  - destruct (match_here fl r b []) eqn:E; [|discriminate].
    intros H. injection H as <-. now exists [], [].
  - destruct (match_here fl r b (c :: s)) eqn:E.
    + intros H. injection H as <-. now exists [], (c :: s).
    + intros H. apply IH in H. destruct H as (s1 & s2 & -> & H).
      exists (c :: s1), s2. split; [reflexivity|].
      cbn [rev]. now rewrite <- app_assoc.
Qed.

Lemma test_spec fl r s :
  test fl r s = true <->
  exists s1 s2 w y, s = s1 ++ s2 /\ matches fl r (start (rev s1) s2) w y.
Proof.
  unfold test, exec. destruct (exec_from fl r [] s) as [f|] eqn:E.
  - split; [intros _|reflexivity].
    apply exec_from_some in E. destruct E as (s1 & s2 & Hs & H).
    rewrite app_nil_r in H. apply match_here_some in H.
    destruct H as (w & y & Hm & _). now exists s1, s2, w, y.
  - split; [discriminate|]. intros (s1 & s2 & w & y & Hs & Hm). exfalso.
    pose proof (proj1 (exec_from_none fl r s []) E s1 s2 Hs) as Hn.
    rewrite app_nil_r in Hn. now apply (proj1 (match_here_none fl r (rev s1) s2) Hn w y).
Qed.

Lemma includes_contains (s p : str) : includes s p = true <-> contains s p.
Proof.
  assert (Hsw : forall s, startsWith s p = true <-> exists b, s = p ++ b).
  { clear s. induction p as [|a p IH]; intros s; cbn [startsWith].
    - split; [intros _; now exists s | reflexivity].
    - destruct s as [|c s].
      + split; [discriminate | intros (b & H); discriminate].
      + rewrite andb_true_iff, Ascii.eqb_eq, IH. split.
        * intros (-> & b & ->). now exists b.
        * intros (b & H). cbn [app] in H. injection H as -> ->.
          split; [reflexivity | now exists b]. }
  unfold contains. induction s as [|c s IH]; cbn [includes]; rewrite orb_true_iff, Hsw.
  - split.
    + intros [(b & H)|H]; [|discriminate]. now exists [], b.
    + intros (a & b & H). left. destruct a; [now exists b | discriminate].
  - rewrite IH. split.
    + intros [(b & H)|(a & b & H)]; [now exists [], b|].
      exists (c :: a), b. now rewrite H.
    + intros (a & b & H). destruct a as [|d a]; [left; now exists b|].
      right. injection H as -> H. now exists a, b.
Qed.

Lemma endPunctuation_spec (t : str) :
  test plain endPunctuation t = true <-> ends_with_punctuation t.
Proof.
  rewrite test_spec. unfold ends_with_punctuation, endPunctuation. split.
  - intros (s1 & s2 & w & y & -> & Hm). cbn [matches] in Hm.
    destruct Hm as (w1 & z & w2 & (a & t1 & Hr & Hc & -> & ->) & (He & -> & ->) & ->).
    cbn [start rest] in Hr. subst s2.
    unfold at_line_end in He. cbn [step_to rest plain multiline andb] in He.
    destruct t1; [|discriminate]. exists s1, a. split; [reflexivity|].
    unfold class_matches, item_matches in Hc.
    cbn [plain ignoreCase existsb item_has xorb] in Hc.
    rewrite !orb_true_iff, !Ascii.eqb_eq in Hc.
    destruct Hc as [<- | [<- | [<- | Hc] ] ]; auto. discriminate.
  - intros (body & c & -> & Hc). exists body, [c], [c], (step_to (start (rev body) [c]) c []).
    split; [reflexivity|]. cbn [matches].
    exists [c], (step_to (start (rev body) [c]) c []), [].
    split; [|split; [|reflexivity]].
    + exists c, []. repeat split. destruct Hc as [-> | [-> | ->] ]; reflexivity.
    + repeat split.
Qed.

Lemma word_class_i c : class_matches flag_i false [Word] c = is_word c.
Proof. destruct c as [[] [] [] [] [] [] [] []]; reflexivity. Qed.

Lemma space_class_i c : class_matches flag_i false [Space] c = is_space c.
Proof. destruct c as [[] [] [] [] [] [] [] []]; reflexivity. Qed.

Lemma space_not_word c : is_space c = true -> is_word c = false.
Proof. destruct c as [[] [] [] [] [] [] [] []]; cbv; congruence. Qed.

Lemma lower_upper c : lower_char (upper_char c) = lower_char c.
Proof. destruct c as [[] [] [] [] [] [] [] []]; reflexivity. Qed.

Lemma upper_lower c : upper_char (lower_char c) = upper_char c.
Proof. destruct c as [[] [] [] [] [] [] [] []]; reflexivity. Qed.

Lemma canon_i a c : canon_eq flag_i a c = true <-> lower_char a = lower_char c.
Proof.
  unfold canon_eq. cbn [flag_i ignoreCase]. rewrite Ascii.eqb_eq. split; intros H.
  - rewrite <- (lower_upper a), <- (lower_upper c). now rewrite H.
  - rewrite <- (upper_lower a), <- (upper_lower c). now rewrite H.
Qed.

Lemma prefix_matches_elim fl p : forall x w y,
  prefix_matches fl p x w y ->
  Forall2 (fun a c => canon_eq fl a c = true) p w /\ caps y = caps x.
Proof.
  induction p as [|a p IH]; intros x w y; cbn [prefix_matches].
  - intros [-> ->]. split; [constructor | reflexivity].
  - intros (c & t & w' & _ & Hc & -> & H). apply IH in H. destruct H as [H1 H2].
    split; [now constructor | exact H2].
Qed.

Lemma prefix_matches_intro fl p : forall x w r,
  Forall2 (fun a c => canon_eq fl a c = true) p w ->
  rest x = w ++ r ->
  prefix_matches fl p x w
    {| before := rev w ++ before x; rest := r; caps := caps x |}.
Proof.
  induction p as [|a p IH]; intros x w r H Hr; inversion H as [|? c ? w' Hc H']; subst;
    cbn [prefix_matches].
  - cbn in Hr. subst r. destruct x; now split.
  - exists c, (w' ++ r), w'. repeat split; auto.
    specialize (IH (step_to x c (w' ++ r)) w' r H' eq_refl).
    cbn [step_to before caps rev] in *. now rewrite <- app_assoc.
Qed.

Lemma same_letters_canon (p w : str) :
  Forall2 (fun a c => canon_eq flag_i a c = true) p w <-> same_letters w p.
Proof.
  unfold same_letters, toLowerCase. split.
  - induction 1 as [|a c p w Hc _ IH]; [reflexivity|].
    cbn [map]. apply canon_i in Hc. now rewrite Hc, IH.
  - revert w. induction p as [|a p IH]; intros [|c w] H; try discriminate; constructor.
    + apply canon_i. cbn [map] in H. now injection H.
    + apply IH. cbn [map] in H. now injection H.
Qed.

Lemma reps_pieces (step : mstate -> str -> mstate -> Prop)
    (I : mstate -> Prop) (Q : str -> Prop) :
  (forall x w y, I x -> step (clear [] x) w y -> Q w /\ I y) ->
  forall min max x w y,
    reps step [] min max x w y -> I x ->
    exists l, w = concat l /\ Forall Q l /\ (max = None -> min <= length l).
Proof.
  intros Hs min max x w y H.
  induction H as [min x|max x Hm|min max x w1 z w2 y Hm Hz Hp _ IH]; intros Hx.
  - exists []. repeat split; [constructor | discriminate].
  - exists []. repeat split; [constructor | intros _; simpl; lia].
  - destruct (Hs _ _ _ Hx Hz) as [Hq Hz'].
    destruct (IH Hz') as (l & -> & Hl & Hlen).
    exists (w1 :: l). repeat split; [now constructor|].
    intros ->. specialize (Hlen eq_refl). simpl. lia.
Qed.

Lemma blank_run_class (sep : str) :
  Forall (fun a => class_matches flag_i false [Space] a = true) sep ->
  1 <= length sep -> blank_run sep.
Proof.
  intros H Hl. split; [destruct sep; [simpl in Hl; lia | discriminate]|].
  eapply Forall_impl; [|exact H]. intros a Ha. cbn beta in Ha. now rewrite space_class_i in Ha.
Qed.

Lemma loop_piece (w : str) x piece y :
  capture 1 (caps x) = Some w ->
  matches flag_i (Seq (plus ws) (Backref 1)) (clear [] x) piece y ->
  repetition_of w piece /\ capture 1 (caps y) = Some w.
Proof.
  intros Hx Hm. cbn [matches plus ws groups_of] in Hm.
  destruct Hm as (sep & z & copy & Hsep & Hcopy & ->).
  apply reps_class in Hsep. destruct Hsep as (Hs & Hcaps & Hl).
  cbn [clear caps map app] in Hcaps. rewrite Hcaps, Hx in Hcopy.
  apply prefix_matches_elim in Hcopy. destruct Hcopy as [Hc Hcaps'].
  split.
  - exists sep, copy. split; [reflexivity|]. split.
    + apply blank_run_class; auto.
    + now apply same_letters_canon.
  - now rewrite Hcaps', Hcaps.
Qed.

Lemma loopPattern_sound (text : str) :
  test flag_i loopPattern text = true -> repetitive_loop text.
Proof.
  rewrite test_spec. intros (s1 & s2 & w & y & -> & Hm).
  pose proof (matches_rest _ _ _ _ _ Hm) as Hrest. cbn [start rest] in Hrest.
  unfold loopPattern in Hm. cbn [matches seq plus at_least groups_of app] in Hm.
  destruct Hm as (w1 & z & w2 & (z1 & Hg & ->) & Hreps & ->).
  destruct Hg as (e1 & x1 & w3 & (Hb1 & -> & ->) & (ww & x2 & e2 & Hw & (Hb2 & -> & ->) & ->) & ->).
  cbn [app] in *. rewrite ?app_nil_r in Hrest. rewrite ?app_nil_r in Hreps.
  pose proof Hw as Hw'. apply reps_class in Hw'. destruct Hw' as (Hword & Hcaps & Hlen).
  specialize (Hlen eq_refl).
  assert (Hww : word ww).
  { split; [destruct ww; [simpl in Hlen; lia | discriminate]|].
    eapply Forall_impl; [|exact Hword]. intros a Ha. cbn beta in Ha. now rewrite word_class_i in Ha. }
  apply reps_pieces with (I := fun x => capture 1 (caps x) = Some ww)
                         (Q := repetition_of ww) in Hreps.
  - destruct Hreps as (l & -> & Hl & Hn). specialize (Hn eq_refl).
    exists s1, ww, l, (rest y). split; [now rewrite Hrest, <- app_assoc|].
    split; [exact Hww|]. split; [|split; [exact Hn | exact Hl]].
    cbn [start before rest] in Hb1.
    destruct Hww as [Hne Hall]. destruct ww as [|a ww]; [congruence|].
    cbn [app] in Hrest. rewrite Hrest in Hb1. cbn [hd_error is_word_at] in Hb1.
    inversion Hall as [|? ? Ha _]; subst. rewrite Ha in Hb1.
    destruct (is_word_at (hd_error (rev s1))); [discriminate | reflexivity].
  - intros x0 w0 y0 Hx0 Hstep. exact (@loop_piece ww x0 w0 y0 Hx0 Hstep).
  - cbn [caps capture Nat.eqb]. reflexivity.
Qed.

Lemma reps_class_intro fl neg items (w : str) : forall x r min,
  rest x = w ++ r ->
  Forall (fun a => class_matches fl neg items a = true) w ->
  min <= length w ->
  reps (matches fl (Cls neg items)) [] min None x w
    {| before := rev w ++ before x; rest := r; caps := caps x |}.
Proof.
  induction w as [|a w IH]; intros x r min Hr Hall Hmin.
  - cbn [app rev] in *. destruct x as [b s cs]. cbn [before rest caps] in *. subst s.
    replace min with 0 by (simpl in Hmin; lia). now constructor.
  - inversion Hall as [|? ? Ha Hall']; subst.
    change (a :: w) with ([a] ++ w).
    apply reps_more with (z := step_to (clear [] x) a (w ++ r)).
    + reflexivity.
    + cbn [matches]. exists a, (w ++ r). repeat split; auto.
    + intros _. cbn [step_to rest]. rewrite Hr. cbn [app length]. lia.
    + specialize (IH (step_to (clear [] x) a (w ++ r)) r (pred min) eq_refl Hall').
      cbn [step_to clear before caps map app] in IH.
      cbn [app rev]. rewrite <- app_assoc. cbn [app].
      apply IH. simpl in Hmin. lia.
Qed.

Lemma loop_pieces_intro (w : str) (pieces : list str) : forall x post min,
  capture 1 (caps x) = Some w ->
  rest x = concat pieces ++ post ->
  min <= length pieces ->
  Forall (repetition_of w) pieces ->
  exists y, reps (matches flag_i (Seq (plus ws) (Backref 1))) [] min None x
              (concat pieces) y.
Proof.
  induction pieces as [|piece l IH]; intros x post min Hcap Hr Hmin Hall.
  - exists x. replace min with 0 by (simpl in Hmin; lia). now constructor.
  - inversion Hall as [|? ? (sep & copy & -> & [Hne Hsep] & Hcopy) Hall']; subst.
    cbn [concat] in *. rewrite <- !app_assoc in Hr.
    set (z1 := {| before := rev sep ++ before (clear [] x);
                  rest := copy ++ concat l ++ post;
                  caps := caps (clear [] x) |}).
    set (z := {| before := rev copy ++ before z1; rest := concat l ++ post;
                 caps := caps z1 |}).
    destruct (IH z post (pred min)) as (y & Hy); auto.
    { simpl in Hmin. lia. }
    exists y. apply reps_more with (z := z); auto.
    + cbn [matches plus ws groups_of]. exists sep, z1, copy.
      split; [|split; [|reflexivity]].
      * apply reps_class_intro; auto.
        -- eapply Forall_impl; [|exact Hsep]. intros a Ha. cbn beta.
           now rewrite space_class_i.
        -- destruct sep; [congruence | simpl; lia].
      * replace (capture 1 (caps z1)) with (Some w) by (symmetry; exact Hcap).
        apply prefix_matches_intro; [|reflexivity].
        now apply same_letters_canon.
    + intros _. cbn [rest z]. rewrite Hr, !length_app.
      destruct sep; [congruence | simpl; lia].
Qed.

Lemma last_is_word (w : str) :
  word w -> forall b, is_word_at (hd_error (rev w ++ b)) = true.
Proof.
  intros [Hne Hall] b. destruct (rev w) as [|c t] eqn:E.
  - apply (f_equal (@rev ascii)) in E. rewrite rev_involutive in E. now subst.
  - cbn [app hd_error is_word_at].
    rewrite Forall_forall in Hall. apply Hall. apply in_rev. rewrite E. now left.
Qed.

Lemma loopPattern_complete (text : str) :
  repetitive_loop text -> test flag_i loopPattern text = true.
Proof.
  intros (pre & w & pieces & post & -> & Hw & Hpre & Hn & Hall).
  apply test_spec.
  set (x0 := start (rev pre) (w ++ concat pieces ++ post)).
  set (z1 := {| before := rev w ++ before x0; rest := concat pieces ++ post;
                caps := caps x0 |}).
  set (z := {| before := before z1; rest := rest z1; caps := (1, Some w) :: caps z1 |}).
  destruct (@loop_pieces_intro w pieces z post 5) as (y & Hy); auto.
  exists pre, (w ++ concat pieces ++ post), (w ++ concat pieces), y.
  split; [reflexivity|]. fold x0.
  unfold loopPattern. cbn [matches seq plus at_least groups_of app].
  exists w, z, (concat pieces). split; [|split; [exact Hy | reflexivity]].
  exists z1. split; [|reflexivity].
  exists [], x0, w. split; [|split; [|reflexivity]].
  - split; [|now split]. cbn [x0 start before rest].
    rewrite Hpre. destruct Hw as [Hne Hw]. destruct w as [|a w]; [congruence|].
    inversion Hw; subst. cbn [app hd_error is_word_at xorb]. assumption.
  - exists w, z1, []. split; [|split; [|symmetry; apply app_nil_r]].
    + apply reps_class_intro; [reflexivity | |].
      * destruct Hw as [_ Hw]. eapply Forall_impl; [|exact Hw]. intros a Ha.
        cbn beta. now rewrite word_class_i.
      * destruct Hw as [Hne _]. destruct w; [congruence | simpl; lia].
    + split; [|now split]. cbn [z1 before rest].
      rewrite (last_is_word Hw).
      destruct pieces as [|piece l]; [simpl in Hn; lia|].
      inversion Hall as [|? ? (sep & copy & -> & [Hne Hsep] & _) _]; subst.
      destruct sep as [|c sep]; [congruence|]. inversion Hsep; subst.
      cbn [concat app hd_error is_word_at]. rewrite space_not_word by assumption.
      reflexivity.
Qed.

Lemma loopPattern_spec (text : str) :
  test flag_i loopPattern text = true <-> repetitive_loop text.
Proof. split; [apply loopPattern_sound | apply loopPattern_complete]. Qed.

Lemma and_not_spec (a b : bool) (A B : Prop) :
  (a = true <-> A) -> (b = true <-> B) ->
  ((a && negb b)%bool = true <-> A /\ ~ B).
Proof.
  intros Ha Hb. rewrite andb_true_iff, negb_true_iff, Ha.
  split; intros [H1 H2]; (split; [exact H1|]).
  - intros HB. apply Hb in HB. congruence.
  - destruct b; [exfalso; apply H2; now apply Hb | reflexivity].
Qed.

(** C6, as the code has it.  [detectResponseIssues] applies four checks in
    this order and reports the first that holds: a repetitive loop (a whole
    word followed by five or more copies of it, each after a run of white
    space and compared without regard to letter case; the last copy need
    not end a word), an abrupt ending (more than 100 characters and the
    trimmed text does not end in a full stop, an exclamation mark or a
    question mark), incomplete JSON (an opening brace and no closing
    brace), an unclosed thinking block (an opening think tag and no closing
    one).  A text for which none holds has no issue. *)
Theorem C6_first_matching_check_is_reported :
  forall text : str,
    (repetitive_loop text ->
     detectResponseIssues text = issue "Repetitive loop detected") /\
    (~ repetitive_loop text -> abrupt_ending text ->
     detectResponseIssues text = issue "Abrupt ending without punctuation") /\
    (~ repetitive_loop text -> ~ abrupt_ending text -> incomplete_json text ->
     detectResponseIssues text = issue "Incomplete JSON structure") /\
    (~ repetitive_loop text -> ~ abrupt_ending text -> ~ incomplete_json text ->
     unclosed_thinking text ->
     detectResponseIssues text = issue "Unclosed thinking tags") /\
    (~ repetitive_loop text -> ~ abrupt_ending text -> ~ incomplete_json text ->
     ~ unclosed_thinking text ->
     detectResponseIssues text = {| hasIssue := false; reason := [] |}).
Proof.
  intros text.
  pose proof (loopPattern_spec text) as H1.
  assert (H2 : ((100 <? length text)%nat
                && negb (test plain endPunctuation (trim text)))%bool = true
               <-> abrupt_ending text).
  { apply and_not_spec; [apply Nat.ltb_lt | apply endPunctuation_spec]. }
  assert (H3 : (includes text (js "{") && negb (includes text (js "}")))%bool = true
               <-> incomplete_json text).
  { apply and_not_spec; apply includes_contains. }
  assert (H4 : (includes text (js "<think>")
                && negb (includes text (js "</think>")))%bool = true
               <-> unclosed_thinking text).
  { apply and_not_spec; apply includes_contains. }
  unfold detectResponseIssues, issue.
  destruct (test flag_i loopPattern text).
  { repeat split; try reflexivity; intros Hn; exfalso; apply Hn; now apply H1. }
  assert (N1 : ~ repetitive_loop text) by (intros H; apply H1 in H; discriminate).
  destruct ((100 <? length text)%nat && negb (test plain endPunctuation (trim text)))%bool.
  { repeat split; try reflexivity; try (intros H; now destruct (N1 H));
      intros _ Hn; exfalso; apply Hn; now apply H2. }
  assert (N2 : ~ abrupt_ending text) by (intros H; apply H2 in H; discriminate).
  destruct (includes text (js "{") && negb (includes text (js "}")))%bool.
  { repeat split; try reflexivity; try (intros H; now destruct (N1 H));
      try (intros _ H; now destruct (N2 H));
      intros _ _ Hn; exfalso; apply Hn; now apply H3. }
  assert (N3 : ~ incomplete_json text) by (intros H; apply H3 in H; discriminate).
  destruct (includes text (js "<think>") && negb (includes text (js "</think>")))%bool.
  { repeat split; try reflexivity; try (intros H; now destruct (N1 H));
      try (intros _ H; now destruct (N2 H)); try (intros _ _ H; now destruct (N3 H));
      intros _ _ _ Hn; exfalso; apply Hn; now apply H4. }
  assert (N4 : ~ unclosed_thinking text) by (intros H; apply H4 in H; discriminate).
  repeat split; try reflexivity; try (intros H; now destruct (N1 H));
    try (intros _ H; now destruct (N2 H)); try (intros _ _ H; now destruct (N3 H));
    try (intros _ _ _ H; now destruct (N4 H)).
Qed.

Lemma C6_witness :
  repetitive_loop (js "word word word word word word word") /\
  detectResponseIssues (js "word word word word word word word")
    = issue "Repetitive loop detected".
Proof.
  assert (H : repetitive_loop (js "word word word word word word word")).
  { exists [], (js "word"), (repeat (js " word") 5), (js " word").
    split; [reflexivity|]. split; [split; [discriminate | repeat constructor]|].
    split; [reflexivity|]. split; [simpl; lia|].
    repeat constructor; exists (js " "), (js "word");
      (split; [reflexivity|]; split; [|reflexivity]);
      (split; [discriminate | repeat constructor]). }
  split; [exact H|].
  exact (proj1 (C6_first_matching_check_is_reported
                  (js "word word word word word word word")) H).
Defined.

(** C6 as stated fails: in this text the word token [go] occurs five times
    and is followed by the token [gone]; no token is repeated six times and
    no other check holds, yet a repetitive loop is reported. *)
Lemma C6_counterexample :
  tokens (js "go go go go go gone")
    = [js "go"; js "go"; js "go"; js "go"; js "go"; js "gone"] /\
  loop_as_specified (js "go go go go go gone") = false /\
  (length (js "go go go go go gone") <=? 100)%nat = true /\
  includes (js "go go go go go gone") (js "{") = false /\
  includes (js "go go go go go gone") (js "<think>") = false /\
  detectResponseIssues (js "go go go go go gone") = issue "Repetitive loop detected".
Proof. repeat split; vm_compute; reflexivity. Qed.

(** ** The budget of a run *)

Lemma calls_app (a b : list event) : calls (a ++ b) = calls a ++ calls b.
Proof. unfold calls. apply flat_map_app. Qed.

Lemma waits_app (a b : list event) : waits (a ++ b) = waits a ++ waits b.
Proof. unfold waits. apply flat_map_app. Qed.

Section Budget.
Variable G : Type.
Variable h : host.
Variable generateFn : G -> str -> promise * G.

Lemma within_one p : within 1 [Call p].
Proof. unfold within. cbn. repeat split; try lia. constructor. Qed.

Lemma within_continue k p evs :
  within k evs -> within (1 + 2 * k) (Call p :: evs).
Proof.
  unfold within. intros (Hc & Hw & Hf). cbn [calls waits flat_map app length].
  fold (calls evs). fold (waits evs). repeat split; try lia. exact Hf.
Qed.

Lemma within_retry k p ms evs :
  ms = 1000%Z \/ ms = 2000%Z ->
  within k evs -> within (1 + 2 * k) (Call p :: Sleep ms :: evs).
Proof.
  unfold within. intros Hms (Hc & Hw & Hf). cbn [calls waits flat_map app length].
  fold (calls evs). fold (waits evs). repeat split; try lia. now constructor.
Qed.

Lemma within_both k p ms evs1 evs2 :
  ms = 1000%Z \/ ms = 2000%Z ->
  within k evs1 -> within k evs2 ->
  within (1 + 2 * k) (Call p :: evs1 ++ Sleep ms :: evs2).
Proof.
  unfold within. intros Hms (Hc1 & Hw1 & Hf1) (Hc2 & Hw2 & Hf2).
  change (Call p :: evs1 ++ Sleep ms :: evs2)
    with ([Call p] ++ evs1 ++ [Sleep ms] ++ evs2).
  rewrite !calls_app, !waits_app, !length_app. cbn [calls waits flat_map app length].
  repeat split; try lia.
  apply Forall_app. split; [exact Hf1|]. now constructor.
Qed.

Lemma within_weaken k k' evs : k <= k' -> within k evs -> within k' evs.
Proof. unfold within. intros Hk (Hc & Hw & Hf). repeat split; try lia. exact Hf. Qed.

Lemma attemptOnce_within again p o a g k :
  (forall p' g', within k (events (again p' g'))) ->
  within (1 + 2 * k) (events (attemptOnce h generateFn again p o a g)).
Proof.
  intros H.
  assert (H1 : within (1 + 2 * k) [Call p])
    by (apply within_weaken with (k := 1); [lia | apply within_one]).
  unfold attemptOnce, try_catch, bind, generation.
  destruct (generateFn g p) as [pr g']. cbn [result events final].
  destruct (race h pr _) as [text|e]; cbn [result events final].
  - destruct (_ || _)%bool; cbn [throw result events final after app];
      [exact H1|].
    destruct (_ && _)%bool; cbn [ret result events final after app];
      [|exact H1].
    destruct (result (again _ g')) eqn:E;
      cbn [ret result events final after throw app]; rewrite ?app_nil_r.
    + apply within_continue, H.
    + destruct e as [m|].
      * repeat match goal with
               | |- context [if ?b then _ else _] => destruct b
               end; cbn [sleep throw result events final after app bind];
          rewrite ?app_nil_r;
          first [ apply within_continue, H
                | apply within_both; [auto | apply H | apply H] ].
      * cbn [throw events]. rewrite app_nil_r. apply within_continue, H.
    + apply within_continue, H.
  - destruct e as [m|]; [|exact H1].
    repeat match goal with
           | |- context [if ?b then _ else _] => destruct b
           end; cbn [sleep throw result events final after app bind];
      first [ exact H1 | apply within_retry; [auto | apply H] ].
Qed.

Lemma attemptOnce_within_last again p o a g :
  (effMaxRetries o <= a)%Z ->
  within 1 (events (attemptOnce h generateFn again p o a g)).
Proof.
  intros Hge. rewrite (@attemptOnce_exhausted G h generateFn again (fun _ => ret []) p o a g Hge).
  apply Z.ltb_ge in Hge. unfold effMaxRetries in Hge.
  unfold attemptOnce, try_catch, bind, generation.
  destruct (generateFn g p) as [pr g']. cbn [result events final].
  rewrite Hge.
  destruct (race h pr _) as [text|e]; cbn [result events final].
  - rewrite andb_false_r.
    destruct (_ || _)%bool; cbn [throw ret result events final after app];
      apply within_one.
  - destruct e as [m|]; [rewrite !andb_false_r|]; cbn [throw events after app];
      apply within_one.
Qed.

Lemma generateWithCompletion_within (n : nat) : forall p o a g,
  Z.to_nat (effMaxRetries o - a) = n ->
  within (2 ^ S n - 1) (events (generateWithCompletion h generateFn p o a g)).
Proof.
  induction n as [|n IH]; intros p o a g Hn; rewrite generateWithCompletion_unfold.
  - apply attemptOnce_within_last. lia.
  - eapply within_weaken; [|apply attemptOnce_within with (k := 2 ^ S n - 1)].
    + assert (1 <= 2 ^ S n) by (apply Nat.neq_0_lt_0, Nat.pow_nonzero; lia).
      change (2 ^ S (S n)) with (2 * 2 ^ S n). lia.
    + intros p' g'. apply IH. lia.
Qed.

End Budget.

(** ** More on the completion controller *)

Section Recoveries.

Variable G : Type.
Variable h : host.
Variable generateFn : G -> str -> promise * G.

Lemma attemptOnce_done_false_retry again p o a g message :
  raced h generateFn g p o = Rejected (Error message) ->
  done_false_only message ->
  (a < effMaxRetries o)%Z ->
  attemptOnce h generateFn again p o a g =
  let r := again p (snd (generateFn g p)) in
  {| result := result r; events := Call p :: Sleep 1000 :: events r;
     final := final r |}.
Proof.
  unfold raced, effTimeout, effMaxRetries, done_false_only, done_false.
  intros Hc (H1 & H2 & H3) Hlt. apply Z.ltb_lt in Hlt.
  unfold attemptOnce, try_catch, bind, generation.
  destruct (generateFn g p) as [pr g']. cbn [fst snd result events final] in *.
  rewrite Hc. cbn [result events final].
  rewrite H1, H2, H3, Hlt. cbn [orb andb].
  unfold sleep, after. cbn [result events final app]. reflexivity.
Qed.

Lemma attemptOnce_invalid_json_retry again p o a g message :
  raced h generateFn g p o = Rejected (Error message) ->
  invalid_json message ->
  (a < effMaxRetries o)%Z ->
  attemptOnce h generateFn again p o a g =
  let r := again (createSimplifiedPrompt p) (snd (generateFn g p)) in
  {| result := result r; events := Call p :: Sleep 2000 :: events r;
     final := final r |}.
Proof.
  unfold raced, effTimeout, effMaxRetries, invalid_json.
  intros Hc H Hlt. apply Z.ltb_lt in Hlt. apply orb_true_iff in H.
  unfold attemptOnce, try_catch, bind, generation.
  destruct (generateFn g p) as [pr g']. cbn [fst snd result events final] in *.
  rewrite Hc. cbn [result events final].
  rewrite H, Hlt. cbn [orb andb].
  unfold sleep, after. cbn [result events final app]. reflexivity.
Qed.

Lemma attemptOnce_unrecoverable again p o a g e :
  raced h generateFn g p o = Rejected e ->
  unrecoverable e ->
  attemptOnce h generateFn again p o a g =
  {| result := Throw e; events := [Call p]; final := snd (generateFn g p) |}.
Proof.
  unfold raced, effTimeout.
  intros Hc He.
  unfold attemptOnce, try_catch, bind, generation.
  destruct (generateFn g p) as [pr g']. cbn [fst snd result events final] in *.
  rewrite Hc. cbn [result events final].
  destruct e as [m|]; [|reflexivity].
  destruct He as (H1 & H2 & H3 & H4). unfold done_false in H3.
  rewrite H1, H2, H3, H4. reflexivity.
Qed.

(** The first half of an attempt whose response has an issue: the
    continuation runs inside the [try] block. *)
Lemma attemptOnce_continue again p o a g text :
  raced h generateFn g p o = Fulfilled text ->
  trim text <> [] ->
  hasIssue (detectResponseIssues text) = true ->
  (a < effMaxRetries o)%Z ->
  let next := again (continuationText p text (effContinuation o))
                (snd (generateFn g p)) in
  (forall c, result next = Return c ->
     attemptOnce h generateFn again p o a g =
     {| result := Return (combinePartialResponses text c);
        events := Call p :: events next; final := final next |}) /\
  (forall e, result next = Throw e -> unrecoverable e ->
     attemptOnce h generateFn again p o a g =
     {| result := Throw e; events := Call p :: events next;
        final := final next |}) /\
  (forall message, result next = Throw (Error message) -> timeout_only message ->
     let retry := again (shorterPrompt p) (final next) in
     attemptOnce h generateFn again p o a g =
     {| result := result retry;
        events := Call p :: events next ++ Sleep 1000 :: events retry;
        final := final retry |}).
Proof.
  intros Hc Ht Hi Hlt next.
  unfold raced, effTimeout, effMaxRetries, effContinuation in *.
  apply Z.ltb_lt in Hlt.
  assert (Hb : (match text with [] => true | _ :: _ => false end
                || Nat.eqb (length (trim text)) 0)%bool = false).
  { destruct text as [|c t]; [now destruct Ht|]. simpl.
    destruct (trim (c :: t)); [now destruct Ht | reflexivity]. }
  subst next.
  unfold attemptOnce, try_catch, bind, generation.
  destruct (generateFn g p) as [pr g']. cbn [fst snd result events final] in *.
  rewrite Hc. cbn [result events final]. rewrite Hb, Hi, Hlt. cbn [andb].
  split; [|split].
  - intros c Hres. rewrite Hres. unfold after, ret. cbn [result events final app].
    now rewrite app_nil_r.
  - intros e Hres He. rewrite Hres. unfold after. cbn [result events final app].
    destruct e as [m|].
    + destruct He as (H1 & H2 & H3 & H4). unfold done_false in H3.
      rewrite H1, H2, H3, H4. cbn [orb andb].
      unfold after, throw. cbn [result events final app].
      now rewrite app_nil_r.
    + unfold after, throw. cbn [result events final app]. now rewrite app_nil_r.
  - intros message Hres (H1 & H2 & H3 & H4). unfold done_false in H4.
    rewrite Hres. unfold after. cbn [result events final app].
    rewrite H1, H2, H3, H4. cbn [orb andb].
    unfold sleep, after. cbn [result events final app]. reflexivity.
Qed.

Section Recovery.

Variable options : ResponseCompletionOptions.
Variable selects : str -> Prop.
Variable next : str -> str.
Variable ms : Z.

Hypothesis retry : forall again p a g message,
  raced h generateFn g p options = Rejected (Error message) ->
  selects message ->
  (a < effMaxRetries options)%Z ->
  attemptOnce h generateFn again p options a g =
  let r := again (next p) (snd (generateFn g p)) in
  {| result := result r; events := Call p :: Sleep ms :: events r;
     final := final r |}.

Hypothesis rejects : forall g p, exists message,
  raced h generateFn g p options = Rejected (Error message) /\ selects message.

Lemma recovery_run (n : nat) : forall attempt prompt g,
  (attempt <= effMaxRetries options)%Z ->
  n = Z.to_nat (effMaxRetries options - attempt) ->
  let r := generateWithCompletion h generateFn prompt options attempt g in
  let last := recovery_last generateFn next n g prompt in
  events r = recovery_trace next ms n prompt /\
  exists message,
    raced h generateFn (fst last) (snd last) options = Rejected (Error message) /\
    result r = Throw (Error message).
Proof.
  induction n as [|n IH]; intros attempt prompt g Hle Hn;
    destruct (rejects g prompt) as (message & Hr & Hmsg);
    cbv zeta; rewrite generateWithCompletion_unfold.
  - rewrite (@attemptOnce_rejected_last G h generateFn _ prompt options attempt g
               _ Hr) by lia.
    split; [reflexivity|]. exists message. split; [exact Hr | reflexivity].
  - rewrite (retry _ prompt g Hr Hmsg) by lia.
    cbn zeta. cbn [result events final].
    destruct (IH (attempt + 1)%Z (next prompt) (snd (generateFn g prompt)))
      as (He & message' & Hr' & Hres); [lia | lia |].
    split.
    + cbn [recovery_trace]. now rewrite He.
    + exists message'. split; [exact Hr' | exact Hres].
Qed.

End Recovery.

End Recoveries.


Lemma calls_same_prompt ms (n : nat) (prompt : str) :
  calls (recovery_trace (fun p => p) ms n prompt) = repeat prompt (S n).
Proof.
  induction n as [|n IH]; [reflexivity|].
  cbn [recovery_trace calls flat_map app].
  fold (calls (recovery_trace (fun p => p) ms n prompt)). rewrite IH. reflexivity.
Qed.

(** ** Non-blank texts *)

Lemma trimStart_head (s : str) (d : ascii) (t : str) :
  trimStart s = d :: t -> is_space d = false.
Proof.
  induction s as [|a s IH]; cbn [trimStart]; [discriminate|].
  destruct (is_space a) eqn:Ha; [exact IH|].
  intros H. injection H as <- _. exact Ha.
Qed.

Lemma trim_has_ink (s : str) :
  trim s <> [] -> exists c, In c (trim s) /\ is_space c = false.
Proof.
  unfold trim, trimEnd. intros H.
  destruct (trimStart (rev (trimStart s))) as [|d t] eqn:E; [now destruct H|].
  exists d. split; [|exact (trimStart_head _ E)].
  apply in_rev. rewrite rev_involutive. now left.
Qed.

Lemma tokens_from_cover (c : ascii) (s : str) : forall g cur,
  is_space c = false -> In c cur \/ In c s ->
  exists w, In w (tokens_from g cur s) /\ In c w.
Proof.
  induction s as [|a s IH]; intros g cur Hc Hin; cbn [tokens_from].
  - destruct Hin as [Hin|[]]. exists (rev cur). split; [now left|].
    now apply in_rev in Hin.
  - destruct (is_space a) eqn:Ha.
    + destruct Hin as [Hin|[->|Hin]]; [|congruence|].
      * destruct g.
        -- apply IH; auto.
        -- exists (rev cur). split; [now left | now apply in_rev in Hin].
      * destruct g.
        -- apply IH; auto.
        -- destruct (IH true [] Hc (or_intror Hin)) as (w & Hw & Hcw).
           exists w. split; [now right | exact Hcw].
    + apply IH; [exact Hc|]. destruct Hin as [Hin|[->|Hin]].
      * left. now right.
      * left. now left.
      * now right.
Qed.

Lemma tokens_cover (c : ascii) (s : str) :
  is_space c = false -> In c s -> exists w, In w (tokens s) /\ In c w.
Proof. intros Hc Hin. apply tokens_from_cover; auto. Qed.

Lemma in_join (sep : str) (c : ascii) (w : str) (l : list str) :
  In w l -> In c w -> In c (join sep l).
Proof.
  intros Hw Hc. induction l as [|a l IH]; [destruct Hw|].
  destruct l as [|b l].
  - destruct Hw as [->|[]]. exact Hc.
  - cbn [join]. apply in_or_app. destruct Hw as [->|Hw]; [now left|].
    right. apply in_or_app. right. now apply IH.
Qed.

Lemma combinePartialResponses_ink (first second : str) (c : ascii) :
  In c (trim first) -> is_space c = false ->
  In c (combinePartialResponses first second).
Proof.
  intros Hin Hc. unfold combinePartialResponses. rewrite !split_ws_tokens.
  destruct (Nat.ltb 0 _).
  - destruct (@tokens_cover c _ Hc Hin) as (w & Hw & Hcw).
    apply in_join with (w := w); [|exact Hcw].
    apply in_or_app. now left.
  - apply in_or_app. now left.
Qed.

Lemma combinePartialResponses_not_blank (first second : str) :
  trim first <> [] -> trim (combinePartialResponses first second) <> [].
Proof.
  intros H. destruct (@trim_has_ink first H) as (c & Hin & Hc).
  apply trim_not_blank with (c := c); [|exact Hc].
  now apply combinePartialResponses_ink.
Qed.

Section Fulfilled.

Variable G : Type.
Variable h : host.
Variable generateFn : G -> str -> promise * G.

Lemma attemptOnce_return_not_blank again p o a g t :
  (forall p' g' t', result (again p' g') = Return t' -> trim t' <> []) ->
  result (attemptOnce h generateFn again p o a g) = Return t -> trim t <> [].
Proof.
  intros H. unfold attemptOnce, try_catch, bind, generation.
  destruct (generateFn g p) as [pr g']. cbn [result events final].
  destruct (race h pr _) as [text|e]; cbn [result events final].
  - destruct (match text with [] => true | _ :: _ => false end
              || Nat.eqb (length (trim text)) 0)%bool eqn:Hb.
    + unfold after, throw. cbn [result events final].
      repeat match goal with
             | |- context [if ?b then _ else _] => destruct b
             end; unfold after, sleep; cbn [result events final];
        first [discriminate | apply H].
    + apply orb_false_iff in Hb. destruct Hb as [_ Hb].
      assert (Ht : trim text <> []).
      { intros E. rewrite E in Hb. discriminate. }
      destruct (_ && _)%bool.
      * destruct (result (again _ g')) eqn:E; unfold after, ret;
          cbn [result events final].
        -- intros E'. injection E' as <-.
           now apply combinePartialResponses_not_blank.
        -- destruct e as [m|]; [|discriminate].
           repeat match goal with
                  | |- context [if ?b then _ else _] => destruct b
                  end; unfold after, sleep, throw; cbn [result events final];
             first [discriminate | apply H].
        -- discriminate.
      * unfold after, ret. cbn [result events final].
        intros E. injection E as <-. exact Ht.
  - destruct e as [m|]; [|discriminate].
    repeat match goal with
           | |- context [if ?b then _ else _] => destruct b
           end; unfold after, sleep, throw; cbn [result events final];
      first [discriminate | apply H].
Qed.

Lemma generate_return_not_blank (fuel : nat) : forall p o a g t,
  result (generate h generateFn fuel p o a g) = Return t -> trim t <> [].
Proof.
  induction fuel as [|fuel IH]; intros p o a g t; cbn [generate];
    apply attemptOnce_return_not_blank.
  - discriminate.
  - intros p' g' t'. apply IH.
Qed.

End Fulfilled.

Lemma calls_iterates next ms (n : nat) : forall prompt,
  calls (recovery_trace next ms n prompt) = iterates next (S n) prompt.
Proof.
  induction n as [|n IH]; intros prompt; [reflexivity|].
  cbn [recovery_trace calls flat_map app].
  fold (calls (recovery_trace next ms n (next prompt))). rewrite IH. reflexivity.
Qed.

Lemma recovery_last_same_prompt (G : Type) (generateFn : G -> str -> promise * G)
    (n : nat) : forall g prompt,
  snd (recovery_last generateFn (fun p => p) n g prompt) = prompt.
Proof. induction n as [|n IH]; intros g prompt; cbn [recovery_last]; auto. Qed.



Section ControllerMore.

Variable G : Type.
Variable h : host.
Variable generateFn : G -> str -> promise * G.








End ControllerMore.




(** X1.  Whatever the capability does, a run of [generateWithCompletion]
    calls it at least once and at most [2^(n+1) - 1] times, where
    [n = maxRetries - attempt] (0 when negative): a continuation runs inside
    the [try] block, so its rejection is handled by the attempt that asked
    for it, which may retry in turn.  There are fewer waits than calls and
    each wait is of 1000 or 2000 ms.  With the default options the bound of
    seven calls is reached. *)
Theorem X1_calls_within_retry_budget :
  forall (h : host) (G : Type) (generateFn : G -> str -> promise * G)
         (options : ResponseCompletionOptions) (attempt : Z) (prompt : str) (g : G),
    let n := Z.to_nat (effMaxRetries options - attempt) in
    within (2 ^ S n - 1)
      (events (generateWithCompletion h generateFn prompt options attempt g))
    /\
    length (calls (events (generateWithCompletion h (scripted nested_script)
                             (js "Hello") no_options 1 0))) = 7.
Proof.
  intros h G generateFn options attempt prompt g n. split.
  - now apply generateWithCompletion_within.
  - destruct h; vm_compute; reflexivity.
Qed.

(** X2.  A text with which [generateWithCompletion] fulfils is never empty
    or blank: a response that is blank is rejected, and a merge keeps the
    words of the first response. *)
Theorem X2_fulfilled_result_is_not_blank :
  forall (h : host) (G : Type) (generateFn : G -> str -> promise * G)
         (options : ResponseCompletionOptions) (attempt : Z) (prompt : str) (g : G)
         (text : str),
    result (generateWithCompletion h generateFn prompt options attempt g) = Return text ->
    trim text <> [].
Proof.
  intros h G generateFn options attempt prompt g text.
  unfold generateWithCompletion. apply generate_return_not_blank.
Qed.

Lemma X2_witness :
  result (generateWithCompletion Browser (always (Settles 5 (Fulfilled (js "Done."))))
            (js "Hello") no_options 1 tt) = Return (js "Done.") /\
  trim (js "Done.") <> [].
Proof.
  assert (H : result (generateWithCompletion Browser (always (Settles 5 (Fulfilled (js "Done."))))
                        (js "Hello") no_options 1 tt) = Return (js "Done."))
    by reflexivity.
  split; [exact H|].
  exact (X2_fulfilled_result_is_not_blank _ _ _ _ _ _ H).
Defined.

(** X3.  A rejection for which the [catch] block has no recovery, an error
    whose message contains none of the four substrings or a thrown value
    that is not an [Error], is rethrown after that single call and without
    waiting, whatever [attempt] and the options are. *)
Theorem X3_unrecoverable_error_is_rethrown_at_once :
  forall (h : host) (G : Type) (generateFn : G -> str -> promise * G) (g : G)
         (prompt : str) (options : ResponseCompletionOptions) (attempt : Z)
         (e : thrown),
    raced h generateFn g prompt options = Rejected e ->
    unrecoverable e ->
    generateWithCompletion h generateFn prompt options attempt g =
      {| result := Throw e; events := [Call prompt];
         final := snd (generateFn g prompt) |}.
Proof.
  intros h G generateFn g prompt options attempt e Hr He.
  rewrite generateWithCompletion_unfold. now apply attemptOnce_unrecoverable.
Qed.

Lemma X3_witness :
  let generateFn := always (Settles 5 (Rejected (Error (js "Connection refused")))) in
  raced Browser generateFn tt (js "Hello") no_options
    = Rejected (Error (js "Connection refused")) /\
  unrecoverable (Error (js "Connection refused")) /\
  generateWithCompletion Browser generateFn (js "Hello") no_options 1 tt =
    {| result := Throw (Error (js "Connection refused"));
       events := [Call (js "Hello")]; final := tt |}.
Proof.
  intros generateFn.
  assert (H1 : raced Browser generateFn tt (js "Hello") no_options
               = Rejected (Error (js "Connection refused"))) by reflexivity.
  assert (H2 : unrecoverable (Error (js "Connection refused")))
    by (repeat split; vm_compute; reflexivity).
  split; [exact H1|]. split; [exact H2|].
  exact (X3_unrecoverable_error_is_rethrown_at_once Browser generateFn tt (js "Hello")
           no_options 1 H1 H2).
Defined.

(** X4.  When every call is rejected with an error whose message contains
    [done_false] (the word done, a double quote, a colon, a blank and the
    word false) and neither "Invalid JSON response" nor "Ollama API
    rejected response", a run that starts at [attempt <= maxRetries] calls
    the capability [maxRetries - attempt + 1] times with the same prompt,
    waits 1000 ms before each retry and rejects with the error of the last
    call. *)
Theorem X4_incomplete_response_retries_same_prompt :
  forall (h : host) (G : Type) (generateFn : G -> str -> promise * G)
         (options : ResponseCompletionOptions),
    (forall g p, exists message,
        raced h generateFn g p options = Rejected (Error message) /\
        done_false_only message) ->
    forall (attempt : Z) (prompt : str) (g : G),
      (attempt <= effMaxRetries options)%Z ->
      let n := Z.to_nat (effMaxRetries options - attempt) in
      let r := generateWithCompletion h generateFn prompt options attempt g in
      events r = recovery_trace (fun p => p) 1000 n prompt /\
      calls (events r) = repeat prompt (S n) /\
      exists message,
        raced h generateFn (fst (recovery_last generateFn (fun p => p) n g prompt))
          prompt options = Rejected (Error message) /\
        result r = Throw (Error message).
Proof.
  intros h G generateFn options Hrej attempt prompt g Hle n r.
  destruct (@recovery_run G h generateFn options done_false_only (fun p => p) 1000%Z)
    with (n := n) (attempt := attempt) (prompt := prompt) (g := g)
    as (He & message & Hr & Hres); auto.
  { intros again p a g0 message. apply attemptOnce_done_false_retry. }
  fold r in He, Hres. rewrite recovery_last_same_prompt in Hr.
  split; [exact He|]. split; [rewrite He; apply calls_same_prompt|].
  exists message. split; [exact Hr | exact Hres].
Qed.

Lemma X4_witness :
  let generateFn :=
    always (Settles 5 (Rejected (Error (js "Stream ended with " ++ done_false)))) in
  (forall g p, exists message,
      raced Browser generateFn g p no_options = Rejected (Error message) /\
      done_false_only message) /\
  (1 <= effMaxRetries no_options)%Z /\
  events (generateWithCompletion Browser generateFn (js "Hello") no_options 1 tt) =
    [Call (js "Hello"); Sleep 1000; Call (js "Hello"); Sleep 1000; Call (js "Hello")].
Proof.
  intros generateFn.
  assert (H : forall g p, exists message,
             raced Browser generateFn g p no_options = Rejected (Error message) /\
             done_false_only message).
  { intros g p. exists (js "Stream ended with " ++ done_false). split; [reflexivity|].
    repeat split; vm_compute; reflexivity. }
  assert (Hle : (1 <= effMaxRetries no_options)%Z) by (vm_compute; discriminate).
  split; [exact H|]. split; [exact Hle|].
  destruct (@X4_incomplete_response_retries_same_prompt Browser unit generateFn no_options H
              1%Z (js "Hello") tt Hle) as (He & _).
  rewrite He. reflexivity.
Defined.

(** X5.  When every call is rejected with an error whose message contains
    "Invalid JSON response" or "Ollama API rejected response", a run that
    starts at [attempt <= maxRetries] waits 2000 ms before each retry,
    gives each retry the simplified form of the previous prompt, makes
    [maxRetries - attempt + 1] calls and rejects with the error of the last
    call. *)
Theorem X5_invalid_json_retries_simplified_prompt :
  forall (h : host) (G : Type) (generateFn : G -> str -> promise * G)
         (options : ResponseCompletionOptions),
    (forall g p, exists message,
        raced h generateFn g p options = Rejected (Error message) /\
        invalid_json message) ->
    forall (attempt : Z) (prompt : str) (g : G),
      (attempt <= effMaxRetries options)%Z ->
      let n := Z.to_nat (effMaxRetries options - attempt) in
      let r := generateWithCompletion h generateFn prompt options attempt g in
      let last := recovery_last generateFn createSimplifiedPrompt n g prompt in
      events r = recovery_trace createSimplifiedPrompt 2000 n prompt /\
      calls (events r) = iterates createSimplifiedPrompt (S n) prompt /\
      exists message,
        raced h generateFn (fst last) (snd last) options = Rejected (Error message) /\
        result r = Throw (Error message).
Proof.
  intros h G generateFn options Hrej attempt prompt g Hle n r last.
  destruct (@recovery_run G h generateFn options invalid_json createSimplifiedPrompt 2000%Z)
    with (n := n) (attempt := attempt) (prompt := prompt) (g := g)
    as (He & message & Hr & Hres); auto.
  { intros again p a g0 message. apply attemptOnce_invalid_json_retry. }
  fold r in He, Hres. fold last in Hr.
  split; [exact He|]. split; [rewrite He; apply calls_iterates|].
  exists message. split; [exact Hr | exact Hres].
Qed.

Lemma X5_witness :
  let generateFn :=
    always (Settles 5 (Rejected (Error (js "Invalid JSON response from model")))) in
  (forall g p, exists message,
      raced Browser generateFn g p no_options = Rejected (Error message) /\
      invalid_json message) /\
  (1 <= effMaxRetries no_options)%Z /\
  events (generateWithCompletion Browser generateFn (js "Query: What is Rocq?") no_options 1 tt) =
    [Call (js "Query: What is Rocq?"); Sleep 2000;
     Call (simplified (js "What is Rocq?")); Sleep 2000;
     Call (simplified default_query)].
Proof.
  intros generateFn.
  assert (H : forall g p, exists message,
             raced Browser generateFn g p no_options = Rejected (Error message) /\
             invalid_json message).
  { intros g p. exists (js "Invalid JSON response from model"). split; [reflexivity|].
    left. vm_compute. reflexivity. }
  assert (Hle : (1 <= effMaxRetries no_options)%Z) by (vm_compute; discriminate).
  split; [exact H|]. split; [exact Hle|].
  destruct (@X5_invalid_json_retries_simplified_prompt Browser unit generateFn no_options H
              1%Z (js "Query: What is Rocq?") tt Hle) as (He & _).
  rewrite He. vm_compute. reflexivity.
Defined.

(** X6.  When a response has an issue and [attempt < maxRetries], the next
    attempt is run with the continuation prompt: the prompt, an empty line,
    "Previous partial response:", the response on a line of its own, an
    empty line and the continuation instruction (the one of the options
    when it is not empty, the default one otherwise).  If that attempt
    fulfils, the run fulfils with the merge of the two texts; if it rejects
    with a value for which there is no recovery, the run rejects with that
    value.  No wait is made in either case. *)
Theorem X6_continuation_is_merged :
  forall (h : host) (G : Type) (generateFn : G -> str -> promise * G) (g : G)
         (prompt text : str) (options : ResponseCompletionOptions) (attempt : Z),
    raced h generateFn g prompt options = Fulfilled text ->
    trim text <> [] ->
    hasIssue (detectResponseIssues text) = true ->
    (attempt < effMaxRetries options)%Z ->
    let instruction :=
      match continuationPrompt options with
      | Some (c :: s) => c :: s
      | _ => js "Please complete your previous response starting from where you left off."
      end in
    let next :=
      generateWithCompletion h generateFn
        (prompt ++ [lf; lf] ++ js "Previous partial response:" ++ [lf] ++ text
         ++ [lf; lf] ++ instruction)
        options (attempt + 1) (snd (generateFn g prompt)) in
    (forall c, result next = Return c ->
       generateWithCompletion h generateFn prompt options attempt g =
       {| result := Return (combinePartialResponses text c);
          events := Call prompt :: events next; final := final next |}) /\
    (forall e, result next = Throw e -> unrecoverable e ->
       generateWithCompletion h generateFn prompt options attempt g =
       {| result := Throw e; events := Call prompt :: events next;
          final := final next |}).
Proof.
  intros h G generateFn g prompt text options attempt Hr Ht Hi Hlt instruction next.
  pose proof (@attemptOnce_continue G h generateFn
                (fun p' => generateWithCompletion h generateFn p' options (attempt + 1))
                prompt options attempt g text Hr Ht Hi Hlt) as H.
  cbv zeta in H. destruct H as (H1 & H2 & _).
  assert (E : continuationText prompt text (effContinuation options)
              = prompt ++ [lf; lf] ++ js "Previous partial response:" ++ [lf] ++ text
                ++ [lf; lf] ++ instruction).
  { subst instruction. unfold effContinuation, or_string.
    destruct (continuationPrompt options) as [[|c s]|]; reflexivity. }
  rewrite E in H1, H2.
  split.
  - intros c Hc. rewrite generateWithCompletion_unfold. now apply H1.
  - intros e He Hu. rewrite generateWithCompletion_unfold. now apply H2.
Qed.

Lemma X6_witness :
  let generateFn :=
    scripted [Settles 5 (Fulfilled (js "{ unfinished"));
              Settles 5 (Fulfilled (js "unfinished }"))] in
  raced Browser generateFn 0 (js "Hello") no_options = Fulfilled (js "{ unfinished") /\
  generateWithCompletion Browser generateFn (js "Hello") no_options 1 0 =
    {| result := Return (js "{ unfinished }");
       events := [Call (js "Hello");
                  Call (js "Hello" ++ [lf; lf] ++ js "Previous partial response:"
                        ++ [lf] ++ js "{ unfinished" ++ [lf; lf] ++
                        js "Please complete your previous response starting from where you left off.")];
       final := 2 |}.
Proof.
  intros generateFn.
  assert (H1 : raced Browser generateFn 0 (js "Hello") no_options
               = Fulfilled (js "{ unfinished")) by reflexivity.
  assert (H2 : trim (js "{ unfinished") <> []) by (vm_compute; discriminate).
  assert (H3 : hasIssue (detectResponseIssues (js "{ unfinished")) = true)
    by (vm_compute; reflexivity).
  assert (H4 : (1 < effMaxRetries no_options)%Z) by (vm_compute; reflexivity).
  split; [exact H1|].
  destruct (@X6_continuation_is_merged Browser nat generateFn 0 (js "Hello")
              (js "{ unfinished") no_options 1%Z H1 H2 H3 H4) as [Hm _].
  rewrite (Hm (js "unfinished }")); [|vm_compute; reflexivity].
  vm_compute. reflexivity.
Defined.

(** X7.  When the continuation of a response with an issue rejects with an
    error whose message selects the timeout recovery, the attempt that
    asked for the continuation handles it: it waits 1000 ms and runs the
    next attempt again, with its own prompt (not the continuation prompt)
    cut to its first 500 characters followed by an empty line and "Please
    provide a direct answer." when it is longer than 500 characters; the
    partial response is dropped. *)
Theorem X7_rejected_continuation_is_retried :
  forall (h : host) (G : Type) (generateFn : G -> str -> promise * G) (g : G)
         (prompt text message : str) (options : ResponseCompletionOptions)
         (attempt : Z),
    raced h generateFn g prompt options = Fulfilled text ->
    trim text <> [] ->
    hasIssue (detectResponseIssues text) = true ->
    (attempt < effMaxRetries options)%Z ->
    let instruction :=
      match continuationPrompt options with
      | Some (c :: s) => c :: s
      | _ => js "Please complete your previous response starting from where you left off."
      end in
    let next :=
      generateWithCompletion h generateFn
        (prompt ++ [lf; lf] ++ js "Previous partial response:" ++ [lf] ++ text
         ++ [lf; lf] ++ instruction)
        options (attempt + 1) (snd (generateFn g prompt)) in
    result next = Throw (Error message) ->
    timeout_only message ->
    let retryPrompt :=
      if Nat.ltb 500 (length prompt)
      then firstn 500 prompt ++ [lf; lf] ++ js "Please provide a direct answer."
      else prompt in
    let retry :=
      generateWithCompletion h generateFn retryPrompt options
        (attempt + 1) (final next) in
    generateWithCompletion h generateFn prompt options attempt g =
    {| result := result retry;
       events := Call prompt :: events next ++ Sleep 1000 :: events retry;
       final := final retry |}.
Proof.
  intros h G generateFn g prompt text message options attempt Hr Ht Hi Hlt
    instruction next Hres Hmsg retryPrompt retry.
  pose proof (@attemptOnce_continue G h generateFn
                (fun p' => generateWithCompletion h generateFn p' options (attempt + 1))
                prompt options attempt g text Hr Ht Hi Hlt) as H.
  cbv zeta in H. destruct H as (_ & _ & H3).
  assert (E : continuationText prompt text (effContinuation options)
              = prompt ++ [lf; lf] ++ js "Previous partial response:" ++ [lf] ++ text
                ++ [lf; lf] ++ instruction).
  { subst instruction. unfold effContinuation, or_string.
    destruct (continuationPrompt options) as [[|c s]|]; reflexivity. }
  rewrite E in H3.
  rewrite generateWithCompletion_unfold. exact (H3 message Hres Hmsg).
Qed.

Lemma X7_witness :
  let prompt := repeat "x"%char 600 in
  let short := repeat "x"%char 500 ++ [lf; lf] ++ js "Please provide a direct answer." in
  let generateFn :=
    scripted [truncated_response; late_response; Settles 5 (Fulfilled (js "Done."))] in
  let options := with_maxRetries no_options (Some 2%Z) in
  raced NodeJs generateFn 0 prompt options = Fulfilled (js "{") /\
  timeout_only (js "Request timeout") /\
  generateWithCompletion NodeJs generateFn prompt options 1 0 =
    {| result := Return (js "Done.");
       events := [Call prompt;
                  Call (prompt ++ [lf; lf] ++ js "Previous partial response:" ++ [lf]
                        ++ js "{" ++ [lf; lf] ++
                        js "Please complete your previous response starting from where you left off.");
                  Sleep 1000; Call short];
       final := 3 |}.
Proof.
  intros prompt short generateFn options.
  assert (H1 : raced NodeJs generateFn 0 prompt options = Fulfilled (js "{"))
    by reflexivity.
  assert (H2 : trim (js "{") <> []) by (vm_compute; discriminate).
  assert (H3 : hasIssue (detectResponseIssues (js "{")) = true)
    by (vm_compute; reflexivity).
  assert (H4 : (1 < effMaxRetries options)%Z) by (vm_compute; reflexivity).
  assert (H5 : timeout_only (js "Request timeout"))
    by (repeat split; vm_compute; reflexivity).
  split; [exact H1|]. split; [exact H5|].
  rewrite (@X7_rejected_continuation_is_retried NodeJs nat generateFn 0 prompt (js "{")
             (js "Request timeout") options 1%Z H1 H2 H3 H4);
    [|vm_compute; reflexivity | exact H5].
  vm_compute. reflexivity.
Defined.

(** X8.  The prompt of a timeout retry: a prompt of at most 500 characters
    is kept; a longer one becomes its first 500 characters followed by an
    empty line and "Please provide a direct answer.", 533 characters in
    all.  Shortening the result again gives the same text, so every
    timeout retry after the first repeats the prompt of the one before. *)
Theorem X8_shortened_prompt_is_bounded_and_stable :
  forall prompt : str,
    (length prompt <= 500 -> shorterPrompt prompt = prompt) /\
    (500 < length prompt ->
     shorterPrompt prompt
     = firstn 500 prompt ++ [lf; lf] ++ js "Please provide a direct answer." /\
     length (shorterPrompt prompt) = 533 /\
     firstn 500 (shorterPrompt prompt) = firstn 500 prompt) /\
    shorterPrompt (shorterPrompt prompt) = shorterPrompt prompt.
Proof.
  intros prompt. split; [|split].
  - intros H. unfold shorterPrompt.
    destruct (Nat.ltb_spec 500 (length prompt)); [lia | reflexivity].
  - intros H. unfold shorterPrompt, substring0.
    destruct (Nat.ltb_spec 500 (length prompt)); [|lia].
    assert (Hl : length (firstn 500 prompt) = 500) by (rewrite length_firstn; lia).
    split; [reflexivity|]. split.
    + rewrite length_app, Hl. reflexivity.
    + rewrite firstn_app, Hl, Nat.sub_diag, firstn_O, app_nil_r, firstn_firstn.
      reflexivity.
  - apply shorterPrompt_idempotent.
Qed.

(** ** A global replacement, match by match *)

Section Scan.

Variable fl : flags.
Variable r : regex.
Variable by_ : found -> str.

Lemma replace_scan_skip (skip : nat) : forall b s,
  skip <= length s ->
  replace_scan fl r by_ skip b s =
  replace_scan fl r by_ 0 (rev (firstn skip s) ++ b) (skipn skip s).
Proof.
  induction skip as [|k IH]; intros b s Hs; [reflexivity|].
  destruct s as [|c s]; [simpl in Hs; lia|].
  cbn [replace_scan firstn skipn rev]. rewrite IH by (simpl in Hs; lia).
  now rewrite <- app_assoc.
Qed.

(** The scan at a position: a match is replaced and the scan resumes after
    it; otherwise the character is kept. *)
Lemma replace_scan_here (b s : str) :
  replace_scan fl r by_ 0 b s =
  match match_here fl r b s with
  | Some f =>
      by_ f ++
      match text f with
      | _ :: _ => replace_scan fl r by_ 0 (rev (text f) ++ b) (post f)
      | [] =>
          match s with
          | [] => []
          | c :: s' => c :: replace_scan fl r by_ 0 (c :: b) s'
          end
      end
  | None =>
      match s with
      | [] => []
      | c :: s' => c :: replace_scan fl r by_ 0 (c :: b) s'
      end
  end.
Proof.
  destruct s as [|c s]; cbn [replace_scan];
    destruct (match_here fl r b _) as [f|] eqn:E; try reflexivity.
  - apply match_here_some in E. destruct E as (w & y & _ & Ht & _ & _ & _ & Hs).
    rewrite Ht in *. symmetry in Hs. apply app_eq_nil in Hs. destruct Hs as [-> _].
    reflexivity.
  - apply match_here_some in E. destruct E as (w & y & _ & Ht & _ & _ & _ & Hs).
    rewrite Ht in *. destruct w as [|a w]; [reflexivity|].
    cbn [length app] in *. injection Hs as <- Hs.
    rewrite replace_scan_skip by (rewrite Hs, length_app; lia).
    rewrite Hs, firstn_app, skipn_app, firstn_all, skipn_all, Nat.sub_diag.
    cbn [firstn skipn app rev]. rewrite app_nil_r, <- app_assoc. reflexivity.
Qed.

Variable P : str -> str -> str -> Prop.

Hypothesis P_end : forall b,
  match_here fl r b [] = None -> P b [] [].
Hypothesis P_keep : forall b c s out,
  match_here fl r b (c :: s) = None ->
  P (c :: b) s out -> P b (c :: s) (c :: out).
Hypothesis P_match : forall b f out,
  match_here fl r b (text f ++ post f) = Some f ->
  text f <> [] ->
  P (rev (text f) ++ b) (post f) out -> P b (text f ++ post f) (by_ f ++ out).
Hypothesis never_empty : forall b s f,
  match_here fl r b s = Some f -> text f <> [].

Lemma replace_scan_cases (n : nat) : forall b s,
  length s <= n -> P b s (replace_scan fl r by_ 0 b s).
Proof.
  induction n as [|n IH]; intros b s Hn; rewrite replace_scan_here;
    destruct (match_here fl r b s) as [f|] eqn:E.
  - destruct s; [|simpl in Hn; lia].
    pose proof (never_empty _ _ E) as Hne.
    apply match_here_some in E. destruct E as (w & y & _ & Ht & _ & _ & _ & Hs).
    rewrite Ht in *. symmetry in Hs. apply app_eq_nil in Hs. now destruct Hs.
  - destruct s; [|simpl in Hn; lia]. now apply P_end.
  - pose proof (never_empty _ _ E) as Hne.
    pose proof E as E'.
    apply match_here_some in E'. destruct E' as (w & y & _ & Ht & _ & _ & _ & Hs).
    subst w.
    assert (Hl : length (post f) <= n).
    { rewrite Hs, length_app in Hn.
      destruct (text f); [now destruct Hne | simpl in Hn; lia]. }
    assert (Hgoal : P b (text f ++ post f)
                      (by_ f ++ replace_scan fl r by_ 0 (rev (text f) ++ b) (post f))).
    { apply P_match; [now rewrite <- Hs | exact Hne | now apply IH]. }
    rewrite <- Hs in Hgoal.
    destruct (text f); [now destruct Hne | exact Hgoal].
  - destruct s as [|c s]; [now apply P_end|].
    apply P_keep; [exact E|]. apply IH. simpl in Hn. lia.
Qed.

Lemma replace_all_cases (s : str) : P [] s (replace_all fl r by_ s).
Proof. apply (@replace_scan_cases (length s)). lia. Qed.

End Scan.

(** A replacement that rewrites every match to itself changes nothing. *)
Lemma replace_all_unchanged fl r by_ (s : str) :
  (forall s1 s2 f, s = s1 ++ s2 -> match_here fl r (rev s1) s2 = Some f ->
                   text f <> [] /\ by_ f = text f) ->
  replace_all fl r by_ s = s.
Proof.
  intros H.
  assert (G : forall n b s0, length s0 <= n ->
              (forall s1 s2 f, s0 = s1 ++ s2 ->
                 match_here fl r (rev s1 ++ b) s2 = Some f ->
                 text f <> [] /\ by_ f = text f) ->
              replace_scan fl r by_ 0 b s0 = s0).
  { clear s H. induction n as [|n IH]; intros b s Hn H; rewrite replace_scan_here;
      destruct (match_here fl r b s) as [f|] eqn:E.
    - destruct (H [] s f eq_refl E) as [Hne _].
      destruct s; [|simpl in Hn; lia].
      apply match_here_some in E. destruct E as (w & y & _ & Ht & _ & _ & _ & Hs).
      rewrite Ht in *. symmetry in Hs. apply app_eq_nil in Hs. now destruct Hs.
    - destruct s; [reflexivity | simpl in Hn; lia].
    - destruct (H [] s f eq_refl E) as [Hne Hby].
      apply match_here_some in E. destruct E as (w & y & _ & Ht & _ & _ & _ & Hs).
      destruct (text f) as [|a w'] eqn:Etf; [now destruct Hne|]. subst w.
      rewrite Hby, IH.
      + now rewrite Hs.
      + rewrite Hs, length_app in Hn. simpl in Hn. lia.
      + intros s1 s2 f' Hp Hm. apply (H ((a :: w') ++ s1) s2 f').
        * rewrite Hs, Hp. now rewrite app_assoc.
        * rewrite rev_app_distr, <- app_assoc. exact Hm.
    - destruct s as [|c s]; [reflexivity|]. f_equal. apply IH.
      + simpl in Hn. lia.
      + intros s1 s2 f' Hp Hm. apply (H (c :: s1) s2 f').
        * now rewrite Hp.
        * cbn [rev]. rewrite <- app_assoc. exact Hm. }
  apply (G (length s) [] s); [lia|].
  intros s1 s2 f Hs Hm. rewrite app_nil_r in Hm. now apply (H s1 s2 f).
Qed.

(** ** The escape repair *)

Lemma escape1_kept (s : str) : escapes_in kept_escapes s -> escape1 s = s.
Proof.
  intros H. unfold escape1. apply replace_all_unchanged.
  intros s1 s2 f Hs Hm. exfalso.
  apply match_here_some in Hm. destruct Hm as (w & y & Hm & _ & _ & _ & _ & Hw).
  cbn [matches] in Hm.
  destruct Hm as (w1 & z & w2 & (a & t & Hr & Ha & -> & ->) & (c & t' & Hr' & Hc & -> & ->) & ->).
  apply canon_exact in Ha; [|reflexivity]. subst a.
  cbn [start rest step_to] in Hr, Hr'. subst s2 t.
  destruct (H s1 (c :: t') Hs) as (c' & t'' & E & Hin). injection E as <- <-.
  cbn [kept_escapes In] in Hin.
  repeat (destruct Hin as [<-|Hin]; [discriminate Hc|]). exact Hin.
Qed.

Lemma escape2_kept (s : str) : escapes_in kept_escapes s -> escape2 s = s.
Proof.
  intros H. unfold escape2. apply replace_all_unchanged.
  intros s1 s2 f Hs Hm. exfalso.
  apply match_here_some in Hm. destruct Hm as (w & y & Hm & _ & _ & _ & _ & Hw).
  cbn [matches] in Hm.
  destruct Hm as (w1 & z & w2 & (a & t & Hr & Ha & -> & ->) & (-> & Hahead) & ->).
  apply canon_exact in Ha; [|reflexivity]. subst a.
  cbn [start rest] in Hr. subst s2.
  cbn [matcher] in Hahead. unfold step1 in Hahead. cbn [step_to rest] in Hahead.
  destruct (H s1 t Hs) as (c & t' & -> & Hin).
  cbn [kept_escapes In] in Hin.
  repeat (destruct Hin as [<-|Hin]; [now destruct Hahead|]). exact Hin.
Qed.

Lemma all_last (A : Type) (P : A -> Prop) (w : list A) :
  Forall P w -> 1 <= length w -> exists w' a, w = w' ++ [a] /\ P a.
Proof.
  intros H Hl. destruct (rev w) as [|a t] eqn:E.
  - apply (f_equal (@rev A)) in E. rewrite rev_involutive in E. subst. simpl in Hl. lia.
  - apply (f_equal (@rev A)) in E. rewrite rev_involutive in E. cbn [rev] in E.
    exists (rev t), a. split; [exact E|].
    rewrite E in H. apply Forall_app in H. destruct H as [_ H]. now inversion H.
Qed.

Lemma escape3_kept (s : str) : escapes_in kept_escapes s -> escape3 s = s.
Proof.
  intros H. unfold escape3. apply replace_all_unchanged.
  intros s1 s2 f Hs Hm. exfalso.
  apply match_here_some in Hm. destruct Hm as (w & y & Hm & _ & _ & Hp & _ & Hw).
  cbn [matches plus groups_of] in Hm.
  destruct Hm as (w1 & z & w2 & Hreps & (Hend & -> & ->) & ->).
  pose proof (reps_rest (@matches_rest plain (Chr bs)) Hreps) as Hrest.
  apply reps_chr in Hreps. destruct Hreps as (Hall & _ & Hl). specialize (Hl eq_refl).
  unfold at_line_end in Hend. cbn [plain multiline andb] in Hend.
  destruct (rest z) as [|c t] eqn:Ez; [|discriminate].
  cbn [start rest] in Hrest. rewrite app_nil_r in Hrest. subst s2.
  destruct (all_last Hall Hl) as (w' & a & -> & Ha).
  apply canon_exact in Ha; [|reflexivity]. subst a.
  rewrite Hp, !app_nil_r, app_assoc in Hs.
  destruct (H _ _ Hs) as (c & t & E & _). discriminate.
Qed.

Lemma escape4_kept (s : str) : escapes_in kept_escapes s -> escape4 s = s.
Proof.
  intros H. unfold escape4. apply replace_all_unchanged.
  intros s1 s2 f Hs Hm.
  apply match_here_some in Hm. destruct Hm as (w & y & Hm & Ht & _ & _ & _ & Hw).
  cbn [matches plus groups_of] in Hm.
  destruct Hm as (w1 & z & w2 & Hreps & (a & t & Hr & Ha & -> & ->) & ->).
  apply canon_exact in Ha; [|reflexivity]. subst a.
  pose proof (reps_rest (@matches_rest plain (Chr bs)) Hreps) as Hrest.
  apply reps_chr in Hreps. destruct Hreps as (Hall & _ & Hl). specialize (Hl eq_refl).
  cbn [start rest] in Hrest. rewrite Hr in Hrest.
  rewrite Ht. split; [destruct w1; discriminate|].
  cbn [expand flat_map app].
  destruct w1 as [|a w1]; [simpl in Hl; lia|].
  pose proof (Forall_inv Hall) as Ha. pose proof (Forall_inv_tail Hall) as Hall'.
  apply canon_exact in Ha; [|reflexivity]. subst a.
  destruct w1 as [|a w1]; [reflexivity|]. exfalso.
  pose proof (Forall_inv Hall') as Ha.
  apply canon_exact in Ha; [|reflexivity]. subst a.
  rewrite Hs, Hw in H. cbn [app] in H.
  destruct (H s1 _ eq_refl) as (c & t' & E & Hin). injection E as <- _.
  cbn [kept_escapes In] in Hin.
  repeat (destruct Hin as [Hin|Hin]; [discriminate Hin|]). exact Hin.
Qed.

Lemma escape5_kept (s : str) : escapes_in kept_escapes s -> escape5 s = s.
Proof.
  intros H. unfold escape5. apply replace_all_unchanged.
  intros s1 s2 f Hs Hm. exfalso.
  apply match_here_some in Hm. destruct Hm as (w & y & Hm & _ & _ & _ & _ & Hw).
  cbn [matches seq] in Hm.
  destruct Hm as (w1 & z & w2 & (a & t & Hr & Ha & -> & ->) &
                  (w3 & z' & w4 & (c & t' & Hr' & Hc & -> & ->) & _ & ->) & ->).
  apply canon_exact in Ha; [|reflexivity]. subst a.
  apply canon_exact in Hc; [|reflexivity]. subst c.
  cbn [start rest step_to] in Hr, Hr'. subst s2 t.
  destruct (H s1 _ Hs) as (c' & t'' & E & Hin). injection E as <- <-.
  cbn [kept_escapes In] in Hin.
  repeat (destruct Hin as [Hin|Hin]; [discriminate Hin|]). exact Hin.
Qed.

(** X9.  A text in which every backslash is followed by a double quote, a
    slash or one of [b f n r t], in particular a text without backslash,
    is returned unchanged by [fixEscapeCharacterIssues]. *)
Theorem X9_simple_escapes_are_kept :
  forall s : str,
    escapes_in kept_escapes s -> fixEscapeCharacterIssues s = s.
Proof.
  intros s H. unfold fixEscapeCharacterIssues.
  rewrite (escape1_kept H), (escape2_kept H), (escape3_kept H), (escape4_kept H).
  now apply escape5_kept.
Qed.

Lemma X9_witness :
  let s := js "line one" ++ [bs; "n"] ++ js "say " ++ [bs; dq] ++ js "hi" ++ [bs; dq] in
  escapes_in kept_escapes s /\ fixEscapeCharacterIssues s = s.
Proof.
  intros s.
  assert (H : escapes_in kept_escapes s).
  { intros a b E. subst s.
    repeat (destruct a as [|? a];
            [cbn [app] in E; first [discriminate E
                                   | injection E as <-; eexists _, _; split;
                                     [reflexivity | cbn; tauto] ]
            | cbn [app list_ascii_of_string] in E; injection E as <- E]).
    destruct a; discriminate E. }
  split; [exact H|]. exact (X9_simple_escapes_are_kept H).
Defined.

Lemma reps_chr_intro fl c (w : str) : forall x r min,
  rest x = w ++ r ->
  Forall (fun a => canon_eq fl c a = true) w ->
  min <= length w ->
  reps (matches fl (Chr c)) [] min None x w
    {| before := rev w ++ before x; rest := r; caps := caps x |}.
Proof.
  induction w as [|a w IH]; intros x r min Hr Hall Hmin.
  - cbn [app rev] in *. destruct x as [b s cs]. cbn [before rest caps] in *. subst s.
    replace min with 0 by (simpl in Hmin; lia). now constructor.
  - pose proof (Forall_inv Hall) as Ha. pose proof (Forall_inv_tail Hall) as Hall'.
    change (a :: w) with ([a] ++ w).
    apply reps_more with (z := step_to (clear [] x) a (w ++ r)).
    + reflexivity.
    + cbn [matches]. exists a, (w ++ r). repeat split; auto.
    + intros _. cbn [step_to rest]. rewrite Hr. cbn [app length]. lia.
    + specialize (IH (step_to (clear [] x) a (w ++ r)) r (pred min) eq_refl Hall').
      cbn [step_to clear before caps map app] in IH.
      cbn [app rev]. rewrite <- app_assoc. cbn [app].
      apply IH. simpl in Hmin. lia.
Qed.

Lemma last_char_cons (c : ascii) (s : str) :
  last_char (c :: s) = match s with [] => Some c | _ :: _ => last_char s end.
Proof.
  unfold last_char. cbn [rev]. destruct s as [|a s]; [reflexivity|].
  destruct (rev (a :: s)) as [|d t] eqn:E; [|reflexivity].
  apply (f_equal (@length ascii)) in E. rewrite length_rev in E. discriminate.
Qed.

Lemma last_char_app (a b : str) :
  last_char (a ++ b) = match b with [] => last_char a | _ :: _ => last_char b end.
Proof.
  destruct b as [|c b]; [now rewrite app_nil_r|].
  induction a as [|d a IH]; [reflexivity|].
  cbn [app]. rewrite last_char_cons, IH.
  destruct (a ++ c :: b) eqn:E; [|reflexivity].
  apply app_eq_nil in E. destruct E as [_ E]. discriminate.
Qed.

Lemma last_char_none (s : str) : last_char s = None -> s = [].
Proof.
  unfold last_char. destruct (rev s) eqn:E; [|discriminate]. intros _.
  apply (f_equal (@rev ascii)) in E. now rewrite rev_involutive in E.
Qed.

(** After the third replacement the text does not end in a backslash. *)
Lemma escape3_no_trailing (s : str) : last_char (escape3 s) <> Some bs.
Proof.
  unfold escape3.
  apply (@replace_all_cases plain (Seq (plus (Chr bs)) Eol) (expand [])
           (fun _ s out => last_char out <> Some bs /\
                           (out = [] -> Forall (fun c => c = bs) s))).
  - intros b _. split; [discriminate | constructor].
  - intros b c s0 out Hnone [Hq Hall]. split; [|discriminate].
    rewrite last_char_cons. destruct out as [|d out]; [|exact Hq].
    intros E. injection E as ->. specialize (Hall eq_refl).
    apply (proj1 (match_here_none _ _ _ _) Hnone (bs :: s0)
             {| before := rev (bs :: s0) ++ b; rest := []; caps := [] |}).
    cbn [matches plus groups_of].
    exists (bs :: s0), {| before := rev (bs :: s0) ++ b; rest := []; caps := [] |}, [].
    split; [|split; [now repeat split | now rewrite app_nil_r]].
    apply (@reps_chr_intro plain bs (bs :: s0) (start b (bs :: s0)) [] 1).
    + cbn [start rest]. now rewrite app_nil_r.
    + constructor; [reflexivity|].
      eapply Forall_impl; [|exact Hall]. intros a ->. reflexivity.
    + simpl. lia.
  - intros b f out Hm Hne [Hq Hall].
    cbn [expand flat_map app].
    apply match_here_some in Hm. destruct Hm as (w & y & Hm & Ht & _ & Hp & _).
    cbn [matches plus groups_of] in Hm.
    destruct Hm as (w1 & z & w2 & Hreps & (Hend & -> & ->) & ->).
    apply reps_chr in Hreps. destruct Hreps as (Hw & _ & _).
    unfold at_line_end in Hend. cbn [plain multiline andb] in Hend.
    rewrite <- Hp in Hend. destruct (post f) as [|c t] eqn:Epost; [|discriminate].
    split; [exact Hq|]. intros _. rewrite app_nil_r, Ht, app_nil_r.
    eapply Forall_impl; [|exact Hw]. intros a Ha. now apply canon_exact in Ha.
  - intros b s0 f Hm.
    apply match_here_some in Hm. destruct Hm as (w & y & Hm & Ht & _).
    cbn [matches plus groups_of] in Hm.
    destruct Hm as (w1 & z & w2 & Hreps & _ & ->).
    apply reps_chr in Hreps. destruct Hreps as (_ & _ & Hl). specialize (Hl eq_refl).
    rewrite Ht. destruct w1; [simpl in Hl; lia | discriminate].
Qed.

(** A global replacement that keeps the last character of every match
    keeps the last character of the text. *)
Lemma replace_all_last fl r by_ :
  (forall b s f, match_here fl r b s = Some f -> last_char (by_ f) = last_char (text f)) ->
  forall s, last_char (replace_all fl r by_ s) = last_char s.
Proof.
  intros H s. symmetry.
  apply (@replace_all_rel (fun a b => last_char a = last_char b)); auto.
  - intros c a b E. rewrite !last_char_cons, E.
    destruct a, b; try reflexivity.
    + symmetry in E. apply last_char_none in E. discriminate.
    + apply last_char_none in E. discriminate.
  - intros a a' b b' Ea Eb. rewrite !last_char_app, Ea, Eb.
    destruct b, b'; try reflexivity.
    + symmetry in Eb. apply last_char_none in Eb. discriminate.
    + apply last_char_none in Eb. discriminate.
  - intros b0 s0 f0 Hm. symmetry. eauto.
Qed.

Lemma escape4_last (s : str) : last_char (escape4 s) = last_char s.
Proof.
  unfold escape4. apply replace_all_last. intros b s0 f Hm.
  apply match_here_some in Hm. destruct Hm as (w & y & Hm & Ht & _).
  cbn [matches plus groups_of] in Hm.
  destruct Hm as (w1 & z & w2 & _ & (a & t & _ & Ha & -> & _) & ->).
  apply canon_exact in Ha; [|reflexivity]. subst a.
  rewrite Ht, last_char_app. reflexivity.
Qed.

Lemma escape5_last (s : str) : last_char (escape5 s) = last_char s.
Proof.
  unfold escape5. apply replace_all_last. intros b s0 f Hm.
  apply match_here_some in Hm. destruct Hm as (w & y & Hm & Ht & _).
  cbn [matches seq] in Hm.
  destruct Hm as (w1 & z & w2 & (a & t & _ & Ha & -> & _) &
                  (w3 & z' & w4 & (c & t' & _ & Hc & -> & _) & (-> & _) & ->) & ->).
  apply canon_exact in Ha; [|reflexivity]. subst a.
  apply canon_exact in Hc; [|reflexivity]. subst c.
  rewrite Ht. reflexivity.
Qed.

(** X10.  The text returned by [fixEscapeCharacterIssues] never ends in a
    backslash: the third replacement removes the backslashes at the end of
    the text and the two that follow keep the last character. *)
Theorem X10_repaired_text_has_no_trailing_backslash :
  forall s : str, last_char (fixEscapeCharacterIssues s) <> Some bs.
Proof.
  intros s. unfold fixEscapeCharacterIssues.
  rewrite escape5_last, escape4_last. apply escape3_no_trailing.
Qed.

(** ** Commas after the array-element repair *)

Lemma prefix_len_stop (ok : ascii -> bool) (t : str) :
  match skipn (prefix_len ok t) t with
  | [] => True
  | c :: _ => ok c = false
  end.
Proof.
  induction t as [|a t IH]; cbn [prefix_len]; [exact I|].
  destruct (ok a) eqn:E; cbn [skipn]; [exact IH | exact E].
Qed.

Lemma plus_chr_here (c : ascii) (b s : str) :
  match_here plain (plus (Chr c)) b s =
  match s with
  | a :: t =>
      if Ascii.eqb c a
      then Some {| pre := b; text := a :: firstn (prefix_len (Ascii.eqb c) t) t;
                   groups := []; post := skipn (prefix_len (Ascii.eqb c) t) t |}
      else None
  | [] => None
  end.
Proof.
  unfold match_here, plus, start.
  cbn [matcher groups_of rest Nat.add].
  change (matcher plain (Chr c)) with (fun z => step1 z (canon_eq plain c)).
  rewrite plus_class by lia.
  change (canon_eq plain c) with (Ascii.eqb c).
  destruct s as [|a t]; [reflexivity|].
  destruct (Ascii.eqb c a); [|reflexivity].
  destruct (countdown_head (prefix_len (Ascii.eqb c) t)) as [l ->].
  cbn [map]. unfold consumed. rewrite rest_advance, caps_advance.
  cbn [rest caps]. f_equal. f_equal.
  rewrite length_skipn.
  pose proof (prefix_len_le (Ascii.eqb c) t) as Hle.
  replace (length (a :: t) - (length t - prefix_len (Ascii.eqb c) t))
    with (S (prefix_len (Ascii.eqb c) t)) by (cbn [length]; lia).
  reflexivity.
Qed.

Lemma includes_twice_cons (c a : ascii) (s : str) :
  includes (a :: s) [c; c] = (Ascii.eqb c a && startsWith s [c] || includes s [c; c])%bool.
Proof. reflexivity. Qed.

Lemma includes_app_r (a b p : str) :
  includes (a ++ b) p = false -> includes b p = false.
Proof.
  induction a as [|c a IH]; [auto|]. cbn [app includes].
  intros H. apply orb_false_iff in H. destruct H as [_ H]. now apply IH.
Qed.

Lemma includes_twice_app (c : ascii) (u v : str) :
  ~ In c u -> includes v [c; c] = false -> includes (u ++ v) [c; c] = false.
Proof.
  intros Hu Hv. induction u as [|a u IH]; [exact Hv|].
  cbn [app]. rewrite includes_twice_cons, IH by (intros Hin; apply Hu; now right).
  destruct (Ascii.eqb_spec c a) as [->|_]; [|reflexivity].
  exfalso. apply Hu. now left.
Qed.

Lemma fix8a_no_double (s : str) :
  includes (fix8a s) (js ",,") = false.
Proof.
  unfold fix8a.
  apply (@replace_all_cases plain (plus (Chr ",")) (expand [Lit (js ",")])
           (fun _ s out => includes out (js ",,") = false /\
                           (startsWith out (js ",") = true ->
                            startsWith s (js ",") = true))).
  - intros b _. split; [reflexivity | discriminate].
  - intros b c s0 out Hnone [Hq Hs].
    rewrite plus_chr_here in Hnone.
    destruct (Ascii.eqb "," c) eqn:Ec; [discriminate|].
    change (js ",,") with [","; ","] in *. change (js ",") with [","] in *.
    rewrite includes_twice_cons, Ec. cbn [startsWith andb orb].
    rewrite Ec. split; [exact Hq | discriminate].
  - intros b f out Hm Hne [Hq Hs].
    rewrite plus_chr_here in Hm.
    destruct (text f ++ post f) as [|a t] eqn:Es; [discriminate|].
    destruct (Ascii.eqb_spec "," a) as [<-|]; [|discriminate].
    injection Hm as <-. cbn [text post] in *.
    cbn [expand flat_map app list_ascii_of_string].
    change (js ",,") with [","; ","] in *. change (js ",") with [","] in *.
    rewrite includes_twice_cons. cbn [Ascii.eqb Bool.eqb andb].
    split; [|reflexivity].
    rewrite Hq, orb_false_r.
    pose proof (prefix_len_stop (Ascii.eqb ",") t) as Hstop.
    destruct (startsWith out [","]) eqn:Eo; [|reflexivity].
    specialize (Hs eq_refl).
    destruct (skipn (prefix_len (Ascii.eqb ",") t) t) as [|d u]; [discriminate|].
    cbn [startsWith] in Hs. rewrite Hstop in Hs. discriminate.
  - intros b s0 f Hm. rewrite plus_chr_here in Hm.
    destruct s0 as [|a t]; [discriminate|].
    destruct (Ascii.eqb "," a); [|discriminate].
    injection Hm as <-. discriminate.
Qed.

Lemma fix8b_no_double (s : str) :
  includes s (js ",,") = false -> includes (fix8b s) (js ",,") = false.
Proof.
  unfold fix8b.
  apply (@replace_all_cases plain (Seq (Chr ",") (Group 1 (Seq (star ws) closer)))
           (expand [Ref 1])
           (fun _ s out => (includes s (js ",,") = false ->
                            includes out (js ",,") = false) /\
                           (startsWith out (js ",") = true ->
                            startsWith s (js ",") = true))).
  - intros b _. split; [auto | discriminate].
  - intros b c s0 out _ [Hq Hs].
    change (js ",,") with [","; ","] in *. change (js ",") with [","] in *.
    split.
    + rewrite !includes_twice_cons. intros H.
      apply orb_false_iff in H. destruct H as [H1 H2].
      rewrite (Hq H2), orb_false_r.
      destruct (Ascii.eqb "," c); [|reflexivity]. cbn [andb] in *.
      destruct (startsWith out [","]); [|reflexivity].
      now rewrite (Hs eq_refl) in H1.
    + cbn [startsWith]. now rewrite !andb_true_r.
  - intros b f out Hm Hne [Hq Hs].
    unfold ws, closer in Hm. read_match Hm. rewrite Ht. read_groups Hg.
    rewrite app_nil_r.
    match goal with
    | H : class_matches plain false [One "}"; One "]"] ?c = true |- _ =>
        rename H into Hcl
    end.
    match goal with
    | H : Forall (fun a => class_matches plain false [Space] a = true) ?w |- _ =>
        rename H into Hws
    end.
    change (js ",,") with [","; ","] in *. change (js ",") with [","] in *.
    split.
    + intros Hno.
      match type of Hno with
      | includes (?c :: ?u ++ ?v) _ = false =>
          apply (@includes_app_r (c :: u) v) in Hno
      end.
      specialize (Hq Hno).
      rewrite <- app_assoc. apply includes_twice_app; [|].
      * intros Hin. rewrite Forall_forall in Hws. apply Hws in Hin. discriminate.
      * cbn [app]. rewrite includes_twice_cons, Hq, orb_false_r.
        match goal with |- (Ascii.eqb "," ?c && _)%bool = false =>
          destruct (Ascii.eqb_spec "," c) as [<-|]; [discriminate Hcl | reflexivity]
        end.
    + intros _. reflexivity.
  - intros b s0 f Hm.
    unfold ws, closer in Hm. read_match Hm. rewrite Ht. discriminate.
Qed.

(** X11.  The text returned by [fixArrayElementSeparation] has no two
    commas in a row: Fix 8 replaces every run of commas by one comma and its
    second replacement only removes commas that stand before a closing
    bracket or brace. *)
Theorem X11_repaired_text_has_no_double_comma :
  forall s : str, includes (fixArrayElementSeparation s) (js ",,") = false.
Proof.
  intros s. unfold fixArrayElementSeparation. cbv zeta.
  apply fix8b_no_double, fix8a_no_double.
Qed.

(** ** The first match of a pattern *)

Lemma matcher_nil fl r x :
  (forall w y, ~ matches fl r x w y) -> matcher fl r x = [].
Proof.
  intros H. destruct (matcher fl r x) as [|y l] eqn:E; [reflexivity|].
  exfalso. assert (Hin : In y (matcher fl r x)) by (rewrite E; now left).
  apply matcher_sound in Hin. destruct Hin as (w & Hw). now apply (H w y).
Qed.

Lemma matcher_lit fl (k : str) : forall k' b t cs,
  Forall2 (fun a c => canon_eq fl a c = true) k k' ->
  matcher fl (lit k) {| before := b; rest := k' ++ t; caps := cs |} =
  [{| before := rev k' ++ b; rest := t; caps := cs |}].
Proof.
  induction k as [|a k IH]; intros k' b t cs H; inversion H as [|? c ? k'' Hc H']; subst.
  - reflexivity.
  - destruct k as [|a' k].
    + inversion H'; subst. cbn [lit matcher app rev]. unfold step1. cbn [rest].
      rewrite Hc. reflexivity.
    + change (lit (a :: a' :: k)) with (Seq (Chr a) (lit (a' :: k))).
      cbn [matcher app]. unfold step1 at 1. cbn [rest before caps]. rewrite Hc.
      cbn [flat_map]. rewrite app_nil_r, IH by exact H'.
      cbn [rev]. now rewrite <- app_assoc.
Qed.

Lemma matcher_opt_class fl neg items x :
  matcher fl (opt (Cls neg items)) x =
  step1 x (class_matches fl neg items) ++ [x].
Proof.
  unfold opt. cbn [matcher groups_of]. rewrite repeat_matcher_S.
  cbn [max_zero Nat.eqb negb andb pred max_pred]. cbv zeta.
  destruct x as [b s cs]. rewrite clear_nil. unfold step1. cbn [rest before caps].
  destruct s as [|c t]; [reflexivity|].
  destruct (class_matches fl neg items c); [|reflexivity].
  cbn [flat_map rest length Nat.add].
  replace (S (length t) <=? length t)%nat with false
    by (symmetry; apply Nat.leb_gt; lia).
  cbn [repeat_matcher max_zero app]. reflexivity.
Qed.

Lemma advance_eq (k : nat) : forall b s cs,
  k <= length s ->
  advance k {| before := b; rest := s; caps := cs |} =
  {| before := rev (firstn k s) ++ b; rest := skipn k s; caps := cs |}.
Proof.
  induction k as [|k IH]; intros b s cs Hk; [reflexivity|].
  destruct s as [|c s]; [simpl in Hk; lia|].
  cbn [advance rest before caps firstn skipn rev]. rewrite IH by (simpl in Hk; lia).
  now rewrite <- app_assoc.
Qed.

Lemma prefix_len_app (ok : ascii -> bool) (w t : str) :
  Forall (fun c => ok c = true) w ->
  match t with [] => True | c :: _ => ok c = false end ->
  prefix_len ok (w ++ t) = length w.
Proof.
  intros Hw Ht. induction Hw as [|a w Ha _ IH]; cbn [app prefix_len length].
  - destruct t as [|c t]; [reflexivity|]. cbn [prefix_len]. now rewrite Ht.
  - now rewrite Ha, IH.
Qed.

Lemma matcher_star_class fl neg items b (w t : str) cs :
  Forall (fun c => class_matches fl neg items c = true) w ->
  match t with [] => True | c :: _ => class_matches fl neg items c = false end ->
  exists l,
    matcher fl (star (Cls neg items)) {| before := b; rest := w ++ t; caps := cs |} =
    {| before := rev w ++ b; rest := t; caps := cs |} :: l.
Proof.
  intros Hw Ht. unfold star. cbn [matcher groups_of rest Nat.add].
  change (matcher fl (Cls neg items))
    with (fun z => step1 z (class_matches fl neg items)).
  rewrite star_class by lia. rewrite (prefix_len_app _ _ Hw Ht).
  destruct (countdown_head (length w)) as [l ->]. cbn [map].
  rewrite advance_eq by (rewrite length_app; lia).
  rewrite firstn_app, skipn_app, firstn_all, skipn_all, Nat.sub_diag.
  cbn [firstn skipn app]. rewrite app_nil_r. eauto.
Qed.

Lemma matcher_plus_class fl neg items b (w t : str) cs :
  w <> [] ->
  Forall (fun c => class_matches fl neg items c = true) w ->
  match t with [] => True | c :: _ => class_matches fl neg items c = false end ->
  exists l,
    matcher fl (plus (Cls neg items)) {| before := b; rest := w ++ t; caps := cs |} =
    {| before := rev w ++ b; rest := t; caps := cs |} :: l.
Proof.
  intros Hne Hw Ht. unfold plus. cbn [matcher groups_of rest Nat.add].
  change (matcher fl (Cls neg items))
    with (fun z => step1 z (class_matches fl neg items)).
  rewrite plus_class by lia.
  destruct w as [|a w]; [now destruct Hne|].
  pose proof (Forall_inv Hw) as Ha. pose proof (Forall_inv_tail Hw) as Hw'.
  cbn [app]. rewrite Ha. rewrite (prefix_len_app _ _ Hw' Ht).
  destruct (countdown_head (length w)) as [l ->]. cbn [map].
  rewrite advance_eq by (rewrite length_app; lia).
  rewrite firstn_app, skipn_app, firstn_all, skipn_all, Nat.sub_diag.
  cbn [firstn skipn app rev]. rewrite app_nil_r, <- app_assoc. eauto.
Qed.

Lemma consumed_eq b1 b2 (w t : str) cs1 cs2 :
  consumed {| before := b1; rest := w ++ t; caps := cs1 |}
           {| before := b2; rest := t; caps := cs2 |} = w.
Proof. apply consumed_app. reflexivity. Qed.

(** The leftmost match is found after a prefix in which no match starts. *)
Lemma exec_from_after fl r (p : str) : forall b t,
  (forall s1 s2, p = s1 ++ s2 -> s2 <> [] ->
                 match_here fl r (rev s1 ++ b) (s2 ++ t) = None) ->
  exec_from fl r b (p ++ t) = exec_from fl r (rev p ++ b) t.
Proof.
  induction p as [|c p IH]; intros b t H; [reflexivity|].
  cbn [app exec_from].
  pose proof (H [] (c :: p) eq_refl ltac:(discriminate)) as H0.
  cbn [rev app] in H0. rewrite H0.
  rewrite IH.
  - cbn [rev]. now rewrite <- app_assoc.
  - intros s1 s2 Hp Hne. specialize (H (c :: s1) s2). cbn [rev] in H.
    rewrite <- app_assoc in H. apply H; [now rewrite Hp | exact Hne].
Qed.

Lemma exec_from_here fl r b s f :
  match_here fl r b s = Some f -> exec_from fl r b s = Some f.
Proof. intros H. destruct s; cbn [exec_from]; now rewrite H. Qed.

(** ** The simplified prompt *)

Lemma matches_lit fl (k : str) : forall x w y,
  matches fl (lit k) x w y -> Forall2 (fun a c => canon_eq fl a c = true) k w.
Proof.
  induction k as [|a k IH]; intros x w y.
  - cbn [lit matches]. intros [-> _]. constructor.
  - destruct k as [|a' k].
    + cbn [lit matches]. intros (c & t & _ & Hc & -> & _). repeat constructor. exact Hc.
    + change (lit (a :: a' :: k)) with (Seq (Chr a) (lit (a' :: k))).
      cbn [matches]. intros (w1 & z & w2 & (c & t & _ & Hc & -> & _) & H2 & ->).
      constructor; [exact Hc | now apply IH in H2].
Qed.

Lemma canon_i_colon (a : ascii) : canon_eq flag_i ":" a = true -> a = ":".
Proof. destruct a as [[] [] [] [] [] [] [] []]; cbv; congruence. Qed.

Lemma canon_i_not_colon (k a : ascii) :
  canon_eq flag_i k a = true -> k <> ":" -> a <> ":".
Proof.
  intros H Hk ->. apply Hk. apply canon_i in H. revert H.
  destruct k as [[] [] [] [] [] [] [] []]; cbv; congruence.
Qed.

Lemma first_split (c : ascii) (a b x y : str) :
  ~ In c a -> ~ In c b -> a ++ c :: x = b ++ c :: y -> a = b /\ x = y.
Proof.
  revert b. induction a as [|d a IH]; intros b Ha Hb E.
  - destruct b as [|e b]; cbn [app] in E.
    + injection E as ->. now split.
    + injection E as -> _. exfalso. apply Hb. now left.
  - destruct b as [|e b]; cbn [app] in E.
    + injection E as -> _. exfalso. apply Ha. now left.
    + injection E as -> E. destruct (IH b) as [-> ->]; auto.
      * intros H. apply Ha. now right.
      * intros H. apply Hb. now right.
Qed.

Lemma keyword_tail (K s2 w : str) :
  Forall2 (fun a c => canon_eq flag_i a c = true) K (s2 ++ w) ->
  Forall2 (fun a c => canon_eq flag_i a c = true) (skipn (length K - length w) K) w
  /\ length K = length s2 + length w.
Proof.
  intros H. pose proof (Forall2_length H) as Hl. rewrite length_app in Hl.
  apply Forall2_app_inv_r in H. destruct H as (K1 & K2 & H1 & H2 & ->).
  apply Forall2_length in H1. pose proof (Forall2_length H2) as Hl2.
  rewrite length_app in *. split; [|exact Hl].
  replace (length K1 + length K2 - length w) with (length K1) by lia.
  rewrite skipn_app, skipn_all, Nat.sub_diag. exact H2.
Qed.

Lemma no_colon_canon (K w : str) :
  ~ In ":" K -> Forall2 (fun a c => canon_eq flag_i a c = true) K w -> ~ In ":" w.
Proof.
  intros HK H. induction H as [|a c K w Hc _ IH]; [auto|].
  intros [->|Hin].
  - apply (canon_i_not_colon Hc); [|reflexivity]. intros ->. apply HK. now left.
  - apply IH; [|exact Hin]. intros Hk. apply HK. now right.
Qed.

Ltac no_colon :=
  cbn [list_ascii_of_string In app];
  intros Hcolon; repeat (destruct Hcolon as [Hcolon|Hcolon]; [discriminate Hcolon|]);
  exact Hcolon.

Lemma opt_chr_matches fl c x w y :
  reps (matches fl (Chr c)) [] 0 (Some 1) x w y ->
  w = [] \/ exists a, w = [a] /\ canon_eq fl c a = true.
Proof.
  intros H. inversion H as [| |? ? ? w1 z w2 ? _ Hstep _ Hrest]; subst.
  - now left.
  - right. cbn [matches] in Hstep. destruct Hstep as (a & t & _ & Ha & -> & _).
    exists a. split; [|exact Ha].
    cbn [pred max_pred] in Hrest.
    inversion Hrest as [| |? ? ? ? ? ? ? Hz]; subst; try reflexivity; discriminate.
Qed.

(** The four keywords of the query pattern. *)
Lemma keyword_not_before (K s2 : str) :
  In K [js "Query"; js "Question"; js "User ask"; js "User asks"] ->
  s2 <> [] ->
  ~ Forall2 (fun a c => canon_eq flag_i a c = true) K (s2 ++ js "Query").
Proof.
  intros HK Hne H. apply keyword_tail in H. destruct H as [H Hl].
  cbn [In] in HK. destruct HK as [<-|[<-|[<-|[<-|[]]]]]; cbn in H, Hl.
  - destruct s2; [now destruct Hne | simpl in Hl; lia].
  - inversion H as [|? ? ? ? Hc _]; subst. vm_compute in Hc. discriminate.
  - inversion H as [|? ? ? ? Hc _]; subst. vm_compute in Hc. discriminate.
  - inversion H as [|? ? ? ? Hc _]; subst. vm_compute in Hc. discriminate.
Qed.

(** No match of the query pattern starts before the first colon of the
    text, unless it starts at [Query] itself. *)
Lemma queryPattern_not_before (s1 s2 tail : str) :
  ~ In ":" s2 -> s2 <> [] ->
  match_here flag_i queryPattern (rev s1) (s2 ++ js "Query:" ++ tail) = None.
Proof.
  intros Hs2 Hne. apply match_here_none. intros w y Hm.
  unfold queryPattern in Hm.
  change (seq ?l) with
    (Seq (Alt (lit (js "Query"))
            (Alt (lit (js "Question")) (Seq (lit (js "User ask")) (opt (Chr "s")))))
         (Seq (Chr ":")
            (seq [star ws; opt (Cls false [One dq; One sq]);
                  Group 1 (plus (Cls true [One dq; One sq; One lf]));
                  opt (Cls false [One dq; One sq])]))) in Hm.
  cbn [matches] in Hm.
  destruct Hm as (w1 & z & w2 & Hkey & (w3 & z' & w4 & (a & t & Hr & Ha & -> & _) & _ & ->) & ->).
  apply canon_i_colon in Ha. subst a.
  assert (Hk : exists K, In K [js "Query"; js "Question"; js "User ask"; js "User asks"]
                         /\ Forall2 (fun a c => canon_eq flag_i a c = true) K w1
                         /\ rest (start (rev s1) (s2 ++ js "Query:" ++ tail)) = w1 ++ rest z).
  { destruct Hkey as [Hk|[Hk|(u1 & z1 & u2 & Hk & Hopt & ->)]].
    - exists (js "Query"). split; [cbn; tauto|].
      split; [now apply matches_lit in Hk | now apply matches_rest in Hk].
    - exists (js "Question"). split; [cbn; tauto|].
      split; [now apply matches_lit in Hk | now apply matches_rest in Hk].
    - pose proof (matches_rest _ _ _ _ _ Hk) as R1.
      pose proof (reps_rest (@matches_rest flag_i (Chr "s")) Hopt) as R2.
      apply matches_lit in Hk. unfold opt in Hopt. cbn [groups_of] in Hopt.
      apply opt_chr_matches in Hopt. destruct Hopt as [->|(c & -> & Hc)].
      + exists (js "User ask"). split; [cbn; tauto|]. rewrite app_nil_r.
        split; [exact Hk|]. rewrite R1, R2. reflexivity.
      + exists (js "User asks"). split; [cbn; tauto|].
        split; [|now rewrite R1, R2, <- app_assoc].
        change (js "User asks") with (js "User ask" ++ ["s"]).
        apply Forall2_app; [exact Hk|]. now repeat constructor. }
  destruct Hk as (K & HK & Hcanon & Hrest).
  cbn [start rest] in Hrest. rewrite Hr in Hrest.
  assert (Hw1 : w1 = s2 ++ js "Query").
  { change (s2 ++ js "Query:" ++ tail) with (s2 ++ js "Query" ++ ":" :: tail) in Hrest.
    rewrite app_assoc in Hrest.
    apply first_split in Hrest; [now destruct Hrest | |].
    - intros Hin. apply in_app_or in Hin. destruct Hin as [Hin|Hin]; [now apply Hs2|].
      revert Hin. no_colon.
    - eapply no_colon_canon; [|exact Hcanon].
      cbn [In] in HK. destruct HK as [<-|[<-|[<-|[<-|[]]]]]; no_colon. }
  rewrite Hw1 in Hcanon. exact (keyword_not_before HK Hne Hcanon).
Qed.

Lemma matcher_seq_head fl r1 r2 x z l y l' :
  matcher fl r1 x = z :: l -> matcher fl r2 z = y :: l' ->
  exists l'', matcher fl (Seq r1 r2) x = y :: l''.
Proof.
  intros H1 H2. cbn [matcher]. rewrite H1. cbn [flat_map]. rewrite H2.
  cbn [app]. eexists. reflexivity.
Qed.

Lemma quote_class_i (c : ascii) :
  class_matches flag_i false [One dq; One sq] c = (Ascii.eqb c dq || Ascii.eqb c sq)%bool.
Proof. destruct c as [[] [] [] [] [] [] [] []]; reflexivity. Qed.

Lemma query_class_i (c : ascii) :
  class_matches flag_i true [One dq; One sq; One lf] c =
  negb (Ascii.eqb c dq || Ascii.eqb c sq || Ascii.eqb c lf)%bool.
Proof. destruct c as [[] [] [] [] [] [] [] []]; reflexivity. Qed.

(** The match of the query pattern at [Query:]. *)
Lemma queryPattern_here (b blank quote q tail : str) :
  Forall (fun c => is_space c = true) blank ->
  optional_quote quote ->
  (exists c t, q = c :: t /\ is_space c = false) ->
  Forall (fun c => c <> dq /\ c <> sq /\ c <> lf) q ->
  (tail = [] \/ exists c r, tail = c :: r /\ ends_query c) ->
  exists f,
    match_here flag_i queryPattern b (js "Query:" ++ blank ++ quote ++ q ++ tail) = Some f
    /\ group_text f 1 = q.
Proof.
  intros Hblank Hquote (c0 & t0 & Hq0 & Hc0) Hq Htail.
  assert (Hqc : Forall (fun c => class_matches flag_i true [One dq; One sq; One lf] c = true) q).
  { eapply Forall_impl; [|exact Hq]. intros c (H1 & H2 & H3). cbn beta.
    rewrite query_class_i.
    destruct (Ascii.eqb_spec c dq), (Ascii.eqb_spec c sq), (Ascii.eqb_spec c lf);
      first [reflexivity | congruence]. }
  assert (Hstop : match tail with
                  | [] => True
                  | c :: _ => class_matches flag_i true [One dq; One sq; One lf] c = false
                  end).
  { destruct Htail as [->|(c & r & -> & Hc)]; [exact I|].
    rewrite query_class_i. destruct Hc as [-> | [-> | ->] ]; reflexivity. }
  assert (Hhead : match quote ++ q ++ tail with
                  | [] => True
                  | c :: _ => class_matches flag_i false [Space] c = false
                  end).
  { destruct Hquote as [-> | [-> | ->] ]; cbn [app]; try reflexivity.
    subst q. cbn [app]. now rewrite space_class_i. }
  assert (Hbl : Forall (fun c => class_matches flag_i false [Space] c = true) blank).
  { eapply Forall_impl; [|exact Hblank]. intros c Hc. cbn beta. now rewrite space_class_i. }
  (* the group and what follows it *)
  assert (Hgroup : forall b' cs, exists y l,
             matcher flag_i
               (Seq (Group 1 (plus (Cls true [One dq; One sq; One lf])))
                    (opt (Cls false [One dq; One sq])))
               {| before := b'; rest := q ++ tail; caps := cs |} = y :: l
             /\ caps y = (1, Some q) :: cs).
  { intros b' cs.
    destruct (@matcher_plus_class flag_i true [One dq; One sq; One lf] b' q tail cs)
      as (l1 & E1); auto.
    { subst q. discriminate. }
    cbn [matcher]. cbn [matcher] in E1. rewrite E1. cbn [map flat_map].
    rewrite consumed_eq.
    fold (opt (Cls false [One dq; One sq])). rewrite matcher_opt_class.
    unfold step1. cbn [rest before caps].
    destruct tail as [|c r]; [cbn [app]; eauto|].
    destruct (class_matches flag_i false [One dq; One sq] c); cbn [app]; eauto. }
  (* the optional quote before the group *)
  assert (Hquoted : forall b' cs, exists y l,
             matcher flag_i
               (Seq (opt (Cls false [One dq; One sq]))
                    (Seq (Group 1 (plus (Cls true [One dq; One sq; One lf])))
                         (opt (Cls false [One dq; One sq]))))
               {| before := b'; rest := quote ++ q ++ tail; caps := cs |} = y :: l
             /\ caps y = (1, Some q) :: cs).
  { intros b' cs. cbn [matcher]. fold (opt (Cls false [One dq; One sq])).
    rewrite matcher_opt_class. unfold step1. cbn [rest before caps].
    destruct Hquote as [-> | [-> | ->] ]; cbn [app].
    - subst q. cbn [app]. rewrite quote_class_i.
      pose proof (Forall_inv Hq) as (H1 & H2 & _).
      destruct (Ascii.eqb_spec c0 dq); [congruence|].
      destruct (Ascii.eqb_spec c0 sq); [congruence|].
      cbn [orb app flat_map]. rewrite app_nil_r.
      destruct (Hgroup b' cs) as (y & l & E & Hy). cbn [matcher app] in E.
      rewrite E. eauto.
    - rewrite quote_class_i. cbn [Ascii.eqb Bool.eqb orb andb app flat_map].
      destruct (Hgroup (dq :: b') cs) as (y & l & E & Hy). cbn [matcher] in E.
      change (Ascii.eqb dq dq) with true. cbn [orb app flat_map].
      rewrite E. cbn [app]. eauto.
    - rewrite quote_class_i.
      destruct (Hgroup (sq :: b') cs) as (y & l & E & Hy). cbn [matcher] in E.
      change (Ascii.eqb sq dq || Ascii.eqb sq sq)%bool with true. cbn [app flat_map].
      rewrite E. cbn [app]. eauto. }
  destruct (@matcher_star_class flag_i false [Space] (rev (js "Query:") ++ b)
              blank (quote ++ q ++ tail) []) as (l2 & E2); auto.
  destruct (Hquoted (rev blank ++ rev (js "Query:") ++ b) []) as (y & l3 & E3 & Hy).
  assert (E : exists l, matcher flag_i queryPattern
                          (start b (js "Query:" ++ blank ++ quote ++ q ++ tail)) = y :: l).
  { unfold queryPattern, start.
    change (seq ?l) with
      (Seq (Alt (lit (js "Query"))
              (Alt (lit (js "Question")) (Seq (lit (js "User ask")) (opt (Chr "s")))))
           (Seq (Chr ":")
              (Seq (star ws)
                 (Seq (opt (Cls false [One dq; One sq]))
                    (Seq (Group 1 (plus (Cls true [One dq; One sq; One lf])))
                       (opt (Cls false [One dq; One sq]))))))).
    change (js "Query:" ++ blank ++ quote ++ q ++ tail)
      with (js "Query" ++ ":" :: blank ++ quote ++ q ++ tail).
    assert (E0 : exists l,
               matcher flag_i
                 (Alt (lit (js "Query"))
                    (Alt (lit (js "Question")) (Seq (lit (js "User ask")) (opt (Chr "s")))))
                 {| before := b; rest := js "Query" ++ ":" :: blank ++ quote ++ q ++ tail;
                    caps := [] |} =
               {| before := rev (js "Query") ++ b;
                  rest := ":" :: blank ++ quote ++ q ++ tail; caps := [] |} :: l).
    { cbn [matcher]. rewrite matcher_lit by (repeat constructor). cbn [app]. eauto. }
    destruct E0 as (l0 & E0).
    eapply matcher_seq_head; [exact E0|].
    cbn [matcher]. unfold step1 at 1. cbn [rest before caps].
    change (canon_eq flag_i ":" ":") with true. cbn [flat_map].
    unfold ws. cbn [matcher] in E2.
    change (":" :: rev (js "Query") ++ b) with (rev (js "Query:") ++ b).
    rewrite E2. cbn [flat_map]. cbn [matcher] in E3. rewrite E3. cbn [app]. eauto. }
  destruct E as (l & E). unfold match_here. rewrite E.
  eexists. split; [reflexivity|].
  unfold group_text. cbn [groups]. rewrite Hy. reflexivity.
Qed.

Lemma queryPattern_needs_colon (prompt : str) :
  ~ In ":" prompt -> exec flag_i queryPattern prompt = None.
Proof.
  intros H. unfold exec. apply exec_from_none. intros s1 s2 Hs.
  apply match_here_none. intros w y Hm.
  pose proof (matches_rest _ _ _ _ _ Hm) as Hrest. cbn [start rest] in Hrest.
  unfold queryPattern in Hm.
  change (seq ?l) with
    (Seq (Alt (lit (js "Query"))
            (Alt (lit (js "Question")) (Seq (lit (js "User ask")) (opt (Chr "s")))))
         (Seq (Chr ":")
            (seq [star ws; opt (Cls false [One dq; One sq]);
                  Group 1 (plus (Cls true [One dq; One sq; One lf]));
                  opt (Cls false [One dq; One sq])]))) in Hm.
  cbn [matches] in Hm.
  destruct Hm as (w1 & z & w2 & _ & (w3 & z' & w4 & (a & t & _ & Ha & -> & _) & _ & ->) & ->).
  apply canon_i_colon in Ha. subst a.
  apply H. rewrite Hs, Hrest. apply in_or_app. right.
  apply in_or_app. left. apply in_or_app. right. cbn [app]. now left.
Qed.

(** X12.  For a prompt without a colon the query pattern has no match and
    [createSimplifiedPrompt] asks for the default query. *)
Theorem X12_prompt_without_query_gets_default :
  forall prompt : str,
    ~ In ":" prompt -> createSimplifiedPrompt prompt = simplified default_query.
Proof.
  intros prompt H. unfold createSimplifiedPrompt. now rewrite queryPattern_needs_colon.
Qed.

Lemma X12_witness :
  ~ In ":" (js "Summarise the attached report") /\
  createSimplifiedPrompt (js "Summarise the attached report") = simplified default_query.
Proof.
  assert (H : ~ In ":" (js "Summarise the attached report")) by no_colon.
  split; [exact H|]. exact (@X12_prompt_without_query_gets_default _ H).
Defined.

(** X13.  When the first colon of the prompt is the one of [Query:], the
    simplified prompt is built around the text that follows it: the white
    space and one opening quote after the colon are skipped, and the query
    runs up to the next quote or line feed, or to the end of the prompt. *)
Theorem X13_query_is_extracted :
  forall before blank quote q tail : str,
    ~ In ":" before ->
    Forall (fun c => is_space c = true) blank ->
    optional_quote quote ->
    (exists c t, q = c :: t /\ is_space c = false) ->
    Forall (fun c => c <> dq /\ c <> sq /\ c <> lf) q ->
    (tail = [] \/ exists c r, tail = c :: r /\ ends_query c) ->
    createSimplifiedPrompt (before ++ js "Query:" ++ blank ++ quote ++ q ++ tail)
    = simplified q.
Proof.
  intros before blank quote q tail Hb Hblank Hquote Hq0 Hq Htail.
  destruct (@queryPattern_here (rev before) blank quote q tail)
    as (f & Hf & Hg); auto.
  unfold createSimplifiedPrompt, exec.
  rewrite exec_from_after.
  - rewrite app_nil_r, (exec_from_here _ _ _ _ Hf), Hg. reflexivity.
  - intros s1 s2 Hs Hne. rewrite app_nil_r.
    apply queryPattern_not_before; [|exact Hne].
    intros Hin. apply Hb. rewrite Hs. apply in_or_app. now right.
Qed.

Lemma X13_witness :
  let prompt :=
    js "You are a research agent." ++ [lf] ++ js "Query: " ++ [dq]
    ++ js "What is Rocq?" ++ [dq; lf] ++ js "Answer in JSON." in
  createSimplifiedPrompt prompt = simplified (js "What is Rocq?").
Proof.
  intros prompt.
  apply (@X13_query_is_extracted (js "You are a research agent." ++ [lf])
           (js " ") [dq] (js "What is Rocq?") ([dq; lf] ++ js "Answer in JSON.")).
  - no_colon.
  - repeat constructor.
  - right. now left.
  - eexists _, _. split; reflexivity.
  - repeat constructor; discriminate.
  - right. eexists _, _. split; [reflexivity | now left].
Defined.

(** ** The resilient decoder *)

Lemma in_trimStart (c : ascii) (s : str) : In c (trimStart s) -> In c s.
Proof.
  induction s as [|a s IH]; cbn [trimStart]; [auto|].
  destruct (is_space a); [right; auto | auto].
Qed.

Lemma in_trim (c : ascii) (s : str) : In c (trim s) -> In c s.
Proof.
  unfold trim, trimEnd. intros H. apply in_rev in H. apply in_trimStart in H.
  apply in_rev in H. now apply in_trimStart.
Qed.

Lemma in_skipn (c : ascii) (n : nat) (s : str) : In c (skipn n s) -> In c s.
Proof. intros H. rewrite <- (firstn_skipn n s). apply in_or_app. now right. Qed.

(** A text without [c] has no match of [open [\s\S]* c]. *)
Lemma exec_delimited_none (o c : ascii) (s : str) :
  ~ In c s -> exec plain (seq [Chr o; star any; Chr c]) s = None.
Proof.
  intros H. unfold exec. apply exec_from_none. intros s1 s2 Hs.
  apply match_here_none. intros w y Hm.
  pose proof (matches_rest _ _ _ _ _ Hm) as Hrest. cbn [start rest] in Hrest.
  cbn [seq matches] in Hm.
  destruct Hm as (w1 & z & w2 & _ & (w3 & z' & w4 & _ & (a & t & _ & Ha & -> & _) & ->) & ->).
  apply canon_exact in Ha; [|reflexivity]. subst a.
  apply H. rewrite Hs, Hrest. apply in_or_app. right.
  apply in_or_app. left. apply in_or_app. right. apply in_or_app. right. now left.
Qed.

(** X14.  A text that is not valid JSON and has neither a closing brace
    nor a closing bracket is rejected with the error "Invalid JSON after all
    extraction attempts": no object and no array can be extracted. *)
Theorem X14_text_without_closing_bracket_is_rejected :
  forall text : str,
    Json.parse text = Json.Fail Json.SyntaxError ->
    ~ In "}" text -> ~ In "]" text ->
    parseJsonWithResilience text
    = Throws (js "Invalid JSON after all extraction attempts").
Proof.
  intros text Hp Hbrace Hbracket. unfold parseJsonWithResilience, try_parse at 1.
  rewrite Hp. cbv zeta.
  set (cleanText := if (includes text (js "<think>") && includes text (js "</think>"))%bool
                    then _ else _).
  assert (Hsub : forall c, In c cleanText -> In c text).
  { intros c. subst cleanText.
    destruct (_ && _)%bool; [|auto].
    destruct (lastIndexOf text (js "</think>")); [|auto].
    intros H. apply in_trim in H. unfold substringFrom in H. now apply in_skipn in H. }
  rewrite !exec_delimited_none; [reflexivity | |]; intros H; apply Hsub in H; auto.
Qed.

Lemma X14_witness :
  Json.parse (js "The answer is 42") = Json.Fail Json.SyntaxError /\
  parseJsonWithResilience (js "The answer is 42")
  = Throws (js "Invalid JSON after all extraction attempts").
Proof.
  assert (H : Json.parse (js "The answer is 42") = Json.Fail Json.SyntaxError)
    by (vm_compute; reflexivity).
  split; [exact H|].
  apply (@X14_text_without_closing_bracket_is_rejected _ H);
    cbn [list_ascii_of_string In]; intros Hin;
    repeat (destruct Hin as [Hin|Hin]; [discriminate Hin|]); exact Hin.
Defined.

Lemma includes_suffix (s p : str) :
  includes s p = false -> forall u v, s = u ++ v -> startsWith v p = false.
Proof.
  induction s as [|c s IH]; intros H u v Hs.
  - symmetry in Hs. apply app_eq_nil in Hs. destruct Hs as [-> ->].
    cbn [includes] in H. now apply orb_false_iff in H.
  - cbn [includes] in H. apply orb_false_iff in H. destruct H as [H1 H2].
    destruct u as [|d u]; cbn [app] in Hs.
    + now subst v.
    + injection Hs as _ Hs. now apply (IH H2 u v).
Qed.

Lemma lastIndexOf_from_none (s p : str) : forall i found,
  (forall u v, s = u ++ v -> startsWith v p = false) ->
  lastIndexOf_from i s p found = found.
Proof.
  induction s as [|c s IH]; intros i found H; cbn [lastIndexOf_from].
  - now rewrite (H [] [] eq_refl).
  - rewrite (H [] (c :: s) eq_refl). apply IH.
    intros u v Hs. apply (H (c :: u) v). now rewrite Hs.
Qed.

Lemma lastIndexOf_from_last (a : str) : forall i s p found,
  s <> [] ->
  startsWith s p = true ->
  (forall u v, s = u ++ v -> u <> [] -> startsWith v p = false) ->
  lastIndexOf_from i (a ++ s) p found = Some (i + length a).
Proof.
  induction a as [|c a IH]; intros i s p found Hne Hs Hlater.
  - cbn [app length]. destruct s as [|c s]; [now destruct Hne|].
    cbn [lastIndexOf_from]. rewrite Hs, lastIndexOf_from_none.
    + f_equal. lia.
    + intros u v E. apply (Hlater (c :: u) v); [now rewrite E | discriminate].
  - cbn [app length lastIndexOf_from]. rewrite IH by assumption. f_equal. lia.
Qed.

Lemma includes_prefix (p s : str) : includes (p ++ s) p = true.
Proof.
  pose proof (startsWith_app p s) as H.
  destruct (p ++ s); cbn [includes]; now rewrite H.
Qed.

Lemma includes_later (a s p : str) : includes s p = true -> includes (a ++ s) p = true.
Proof.
  intros H. induction a as [|c a IH]; [exact H|].
  cbn [app includes]. rewrite IH. apply orb_true_r.
Qed.

(** The text after the last closing think tag. *)
Lemma after_think (reasoning post : str) :
  includes post (js "</think>") = false ->
  let text := js "<think>" ++ reasoning ++ js "</think>" ++ post in
  Json.parse text = Json.Fail Json.SyntaxError /\
  includes text (js "<think>") = true /\
  includes text (js "</think>") = true /\
  exists thinkEnd,
    lastIndexOf text (js "</think>") = Some thinkEnd /\
    substringFrom (thinkEnd + 8) text = post.
Proof.
  intros Hpost text. split; [|split; [|split]].
  - unfold Json.parse, text.
    replace (2 * length (js "<think>" ++ reasoning ++ js "</think>" ++ post) + 2)
      with (S (2 * length (js "<think>" ++ reasoning ++ js "</think>" ++ post) + 1)) by lia.
    reflexivity.
  - apply includes_prefix.
  - unfold text. apply includes_later, includes_later. apply includes_prefix.
  - exists (length (js "<think>" ++ reasoning)). unfold text, lastIndexOf.
    rewrite app_assoc. split.
    + rewrite lastIndexOf_from_last; [reflexivity | discriminate | apply startsWith_app |].
      intros u v E Hne.
      do 8 (destruct u as [|? u]; [first [now destruct Hne
                                         | cbn [app] in E; subst v; reflexivity]
                                  | cbn [app list_ascii_of_string] in E;
                                    injection E as <- E]).
      now apply (@includes_suffix post (js "</think>") Hpost u v).
    + unfold substringFrom.
      rewrite skipn_app, skipn_all2 by lia.
      replace (length (js "<think>" ++ reasoning) + 8 - length (js "<think>" ++ reasoning))
        with 8 by lia.
      reflexivity.
Qed.

Lemma try_parse_failed (t : str) wrap otherwise :
  Json.parse t = Json.Fail Json.SyntaxError -> try_parse t wrap otherwise = otherwise.
Proof. intros H. unfold try_parse. now rewrite H. Qed.

(** X15.  When the text starts with an opening think tag, what stands
    between that tag and the last closing think tag has no influence on the
    result: the decoder extracts from the text after the last closing
    tag. *)
Theorem X15_think_block_is_ignored :
  forall reasoning reasoning' post : str,
    includes post (js "</think>") = false ->
    parseJsonWithResilience (js "<think>" ++ reasoning ++ js "</think>" ++ post)
    = parseJsonWithResilience (js "<think>" ++ reasoning' ++ js "</think>" ++ post).
Proof.
  intros reasoning reasoning' post Hpost.
  destruct (@after_think reasoning post Hpost) as (P1 & T1 & C1 & e1 & L1 & S1).
  destruct (@after_think reasoning' post Hpost) as (P2 & T2 & C2 & e2 & L2 & S2).
  unfold parseJsonWithResilience.
  rewrite (@try_parse_failed _ _ _ P1), (@try_parse_failed _ _ _ P2).
  rewrite T1, T2, C1, C2, L1, L2, S1, S2. reflexivity.
Qed.

Lemma X15_witness :
  let post := js " {" ++ dq :: js "a" ++ dq :: js ": 1}" in
  includes post (js "</think>") = false /\
  parseJsonWithResilience
    (js "<think>" ++ js "The user wants {x}" ++ js "</think>" ++ post)
  = Returns (Json.Object [(js "a", Json.Number (js "1"))]).
Proof.
  intros post.
  assert (H : includes post (js "</think>") = false) by (vm_compute; reflexivity).
  split; [exact H|].
  rewrite (@X15_think_block_is_ignored (js "The user wants {x}") [] post H).
  vm_compute. reflexivity.
Defined.

(** ** Partial content of an error message *)



Lemma not_quote_chars fl (w : str) :
  fl = flag_i \/ fl = plain ->
  Forall (fun c => class_matches fl true [One dq] c = true) w -> ~ In dq w.
Proof.
  intros Hfl H Hin. rewrite Forall_forall in H. apply H in Hin.
  destruct Hfl as [-> | ->]; discriminate Hin.
Qed.


Lemma unescapeNewlines_no_quote (v : str) : ~ In dq v -> ~ In dq (unescapeNewlines v).
Proof.
  unfold unescapeNewlines.
  apply (@replace_all_rel (fun a b => ~ In dq a -> ~ In dq b)); auto.
  - intros c a b H Hn [->|Hin]; [apply Hn; now left|].
    apply H; [|exact Hin]. intros Ha. apply Hn. now right.
  - intros a a' b b' Ha Hb Hn Hin. apply in_app_or in Hin.
    destruct Hin as [Hin|Hin]; [apply Ha in Hin | apply Hb in Hin]; auto;
      intros H; apply Hn; apply in_or_app; auto.
  - intros b s f _ _. cbn [expand flat_map app In]. intros [H|[]]. discriminate H.
Qed.





Lemma quoted_group (fl : flags) (r : regex) (s : str) (f : found) :
  fl = flag_i \/ fl = plain ->
  (exists pre_, r = Seq pre_ (Seq (Group 1 (plus not_quote)) (Chr dq))) \/
  r = Seq (Chr dq) (Seq (Group 1 (star not_quote)) (Chr dq)) ->
  exec fl r s = Some f -> ~ In dq (group_text f 1).
Proof.
  intros Hfl Hr He. unfold exec in He. apply exec_from_some in He.
  destruct He as (s1 & s2 & _ & Hm).
  apply match_here_some in Hm. destruct Hm as (w & y & Hm & _ & Hg & _).
  unfold group_text. rewrite Hg. unfold not_quote in Hr.
  assert (Main : forall x min w' z,
             matches fl (Seq (Group 1 (Rep (Cls true [One dq]) min None true)) (Chr dq))
               x w' z ->
             exists v, capture 1 (caps z) = Some v /\ ~ In dq v).
  { intros x min w' z H. cbn [matches groups_of] in H.
    destruct H as (w1 & z1 & w2 & (z2 & Hreps & ->) & (a & t & _ & _ & _ & ->) & _).
    apply reps_class in Hreps. destruct Hreps as (Hall & _ & _).
    exists w1. split; [reflexivity|]. now apply (@not_quote_chars fl). }
  destruct Hr as [(pre_ & ->) | ->]; cbn [matches] in Hm;
    destruct Hm as (w1 & z & w2 & _ & Hm & _);
    apply Main in Hm; destruct Hm as (v & -> & Hv); exact Hv.
Qed.

(** X17.  A text returned by [extractPartialContent] holds no double
    quote. *)
Theorem X17_extracted_content_has_no_quote :
  forall (message : str) (content : str),
    extractPartialContent message = Some content -> ~ In dq content.
Proof.
  intros message content. unfold extractPartialContent.
  destruct (exec flag_i contentPattern message) as [f|] eqn:E1.
  - intros H. injection H as <-. apply unescapeNewlines_no_quote.
    apply (@quoted_group flag_i contentPattern message f); [now left | | exact E1].
    left. eexists. reflexivity.
  - destruct (exec flag_i partialJsonPattern message) as [j|]; [|discriminate].
    destruct (indexOf _ _) as [i|]; [|discriminate].
    destruct (exec flag_i valuePattern _) as [f|] eqn:E2; [|discriminate].
    intros H. injection H as <-. apply unescapeNewlines_no_quote.
    apply (@quoted_group flag_i valuePattern (substringFrom (i + 10) (Regex.text j)) f);
      [now left | now right | exact E2].
Qed.

Lemma X17_witness :
  let message := js "Bad response {" ++ content_key ++ js ": " ++ dq :: js "two"
                 ++ [bs] ++ js "nlines" ++ dq :: js "}" in
  extractPartialContent message = Some (js "two" ++ lf :: js "lines") /\
  ~ In dq (js "two" ++ lf :: js "lines").
Proof.
  intros message.
  assert (H : extractPartialContent message = Some (js "two" ++ lf :: js "lines"))
    by (vm_compute; reflexivity).
  split; [exact H|]. exact (@X17_extracted_content_has_no_quote _ _ H).
Defined.

Lemma startsWith_prefix (s p : str) :
  startsWith s p = true -> exists b, s = p ++ b.
Proof.
  revert s. induction p as [|a p IH]; intros s; cbn [startsWith].
  - intros _. now exists s.
  - destruct s as [|c s]; [discriminate|].
    rewrite andb_true_iff, Ascii.eqb_eq. intros (-> & H).
    destruct (IH s H) as (b & ->). now exists b.
Qed.

Lemma indexOf_from_contains (s p : str) : forall i k,
  indexOf_from i s p = Some k -> contains s p.
Proof.
  induction s as [|c s IH]; intros i k; cbn [indexOf_from].
  - destruct (startsWith [] p) eqn:E; [|discriminate]. intros _.
    apply startsWith_prefix in E. destruct E as (b & E). now exists [], b.
  - destruct (startsWith (c :: s) p) eqn:E.
    + intros _. apply startsWith_prefix in E. destruct E as (b & E). now exists [], b.
    + intros H. apply IH in H. destruct H as (a & b & ->). now exists (c :: a), b.
Qed.

Lemma contains_inside (a t b p : str) : contains t p -> contains (a ++ t ++ b) p.
Proof.
  intros (u & v & ->). exists (a ++ u), (v ++ b). now rewrite <- !app_assoc.
Qed.

Lemma contains_lower (s p : str) :
  contains s p -> contains (toLowerCase s) (toLowerCase p).
Proof.
  intros (a & b & ->). exists (toLowerCase a), (toLowerCase b).
  unfold toLowerCase. now rewrite !map_app.
Qed.

(** X18.  When the message does not hold the key [content] between double
    quotes, in whatever letter case, [extractPartialContent] returns
    [null]. *)
Theorem X18_message_without_content_key_gives_null :
  forall message : str,
    includes (toLowerCase message) content_key = false ->
    extractPartialContent message = None.
Proof.
  intros message H.
  assert (Hn : ~ contains (toLowerCase message) content_key).
  { intros Hc. apply includes_contains in Hc. congruence. }
  unfold extractPartialContent.
  destruct (exec flag_i contentPattern message) as [f|] eqn:E1.
  - exfalso. apply Hn. unfold exec in E1. apply exec_from_some in E1.
    destruct E1 as (s1 & s2 & Hs & Hm).
    apply match_here_some in Hm. destruct Hm as (w & y & Hm & _ & _ & _ & _ & Hw).
    unfold contentPattern in Hm.
    change (seq ?l) with
      (Seq (lit (content_key ++ [":"; dq]))
           (Seq (Group 1 (plus not_quote)) (Chr dq))) in Hm.
    cbn [matches] in Hm. destruct Hm as (w1 & z & w2 & Hk & _ & ->).
    apply matches_lit, same_letters_canon in Hk. unfold same_letters in Hk.
    rewrite Hs, Hw. unfold toLowerCase in *. rewrite !map_app, Hk.
    rewrite <- !app_assoc. apply contains_inside.
    exists [], (map lower_char [":"; dq]). reflexivity.
  - destruct (exec flag_i partialJsonPattern message) as [j|] eqn:E2; [|reflexivity].
    destruct (indexOf (Regex.text j) (dq :: js "content" ++ [dq])) as [i|] eqn:E3;
      [|reflexivity].
    exfalso. apply Hn. unfold indexOf in E3. apply indexOf_from_contains in E3.
    unfold exec in E2. apply exec_from_some in E2.
    destruct E2 as (s1 & s2 & Hs & Hm).
    apply match_here_some in Hm. destruct Hm as (w & y & _ & Ht & _ & _ & _ & Hw).
    rewrite Hs, Hw, <- Ht.
    apply (@contains_lower _ (dq :: js "content" ++ [dq])).
    now apply contains_inside.
Qed.

Lemma X18_witness :
  includes (toLowerCase (js "Request failed with status 500")) content_key = false /\
  extractPartialContent (js "Request failed with status 500") = None.
Proof.
  assert (H : includes (toLowerCase (js "Request failed with status 500")) content_key
              = false) by (vm_compute; reflexivity).
  split; [exact H|]. exact (@X18_message_without_content_key_gives_null _ H).
Defined.

(** ** Sanitized responses *)

Lemma endsWith_app (s p : str) : endsWith (s ++ p) p = true.
Proof. unfold endsWith. rewrite rev_app_distr. apply startsWith_app. Qed.

Lemma startsWith_char_app (c : ascii) (s t : str) :
  s <> [] -> startsWith (s ++ t) [c] = startsWith s [c].
Proof. destruct s; [intros H; now destruct H | reflexivity]. Qed.

Lemma startsWith_char (c d : ascii) (s : str) :
  startsWith s [c] = true -> c <> d -> startsWith s [d] = false.
Proof.
  destruct s as [|a s]; [discriminate|]. cbn [startsWith].
  rewrite !andb_true_r, Ascii.eqb_eq. intros -> H.
  apply Ascii.eqb_neq. congruence.
Qed.

Lemma brace_not_bracket : "{" <> "[".
Proof. discriminate. Qed.

(** X19.  A text returned by [sanitizeResponse] that starts with an
    opening brace ends with a closing brace, and one that starts with an
    opening bracket ends with a closing bracket. *)
Theorem X19_sanitized_text_closes_its_first_bracket :
  forall text : str,
    (startsWith (sanitizeResponse text) (js "{") = true ->
     endsWith (sanitizeResponse text) (js "}") = true) /\
    (startsWith (sanitizeResponse text) (js "[") = true ->
     endsWith (sanitizeResponse text) (js "]") = true).
Proof.
  intros text. unfold sanitizeResponse. cbv zeta.
  set (c := replace_all plain loneBracePattern (expand []) _).
  change (js "{") with ["{"]. change (js "}") with ["}"].
  change (js "[") with ["["]. change (js "]") with ["]"].
  destruct (startsWith c ["{"]) eqn:S1.
  - assert (Hne : c <> []) by (intros E; rewrite E in S1; discriminate).
    pose proof (@startsWith_char "{" "[" c S1 brace_not_bracket) as S2.
    destruct (endsWith c ["}"]) eqn:E1; cbn [negb andb].
    + rewrite S2. cbn [andb]. split; intros Hx; congruence.
    + rewrite (@startsWith_char_app "[" c ["}"] Hne), S2. cbn [andb].
      rewrite (@startsWith_char_app "[" c ["}"] Hne), S2.
      split; intros Hx; [apply endsWith_app | congruence].
  - cbn [andb].
    destruct (startsWith c ["["]) eqn:S2.
    + assert (Hne : c <> []) by (intros E; rewrite E in S2; discriminate).
      destruct (endsWith c ["]"]) eqn:E2; cbn [negb andb].
      * split; intros Hx; congruence.
      * rewrite (@startsWith_char_app "{" c ["]"] Hne), S1.
        split; intros Hx; [congruence | apply endsWith_app].
    + cbn [andb]. split; intros Hx; congruence.
Qed.

Lemma dots_class (c : ascii) :
  class_matches plain false [Space; One "."] c = (is_space c || Ascii.eqb "." c)%bool.
Proof. unfold class_matches. cbn. now rewrite orb_false_r. Qed.

(** A text that begins with three full stops and goes on with full stops
    and white space only is a match of the ellipsis pattern. *)
Lemma ellipsisPattern_here (b tl : str) :
  Forall (fun c => class_matches plain false [Space; One "."] c = true) tl ->
  match_here plain ellipsisPattern b (js "..." ++ tl) <> None.
Proof.
  intros H. unfold match_here, ellipsisPattern, start.
  change (seq ?l) with
    (Seq (lit (js "...")) (Seq (star (Cls false [Space; One "."])) Eol)).
  cbn [matcher]. rewrite matcher_lit by (repeat constructor).
  cbn [flat_map]. rewrite app_nil_r.
  destruct (@matcher_star_class plain false [Space; One "."] (rev (js "...") ++ b)
              tl [] []) as (l & E); [exact H | exact I |].
  rewrite app_nil_r in E. cbn [matcher] in E. rewrite E. cbn [flat_map].
  unfold at_line_end. cbn [rest app]. discriminate.
Qed.

Lemma endsWith_cons (c : ascii) (out p : str) :
  endsWith out p = false -> length p <= length out ->
  endsWith (c :: out) p = false.
Proof.
  unfold endsWith. cbn [rev]. intros H Hl.
  destruct (startsWith (rev out ++ [c]) (rev p)) eqn:E; [|reflexivity].
  apply startsWith_prefix in E. destruct E as (b & E).
  assert (Hb : b <> []).
  { intros ->. rewrite app_nil_r in E. apply (f_equal (@length ascii)) in E.
    rewrite length_app, !length_rev in E. simpl in E. lia. }
  destruct (rev b) as [|d b'] eqn:Eb.
  { apply (f_equal (@rev ascii)) in Eb. rewrite rev_involutive in Eb. now subst. }
  apply (f_equal (@rev ascii)) in Eb. rewrite rev_involutive in Eb. cbn [rev] in Eb.
  subst b. rewrite app_assoc in E. apply app_inj_tail in E. destruct E as [E _].
  rewrite E, startsWith_app in H. discriminate.
Qed.

(** The ellipsis pattern: what is left does not end in three full stops. *)
Lemma ellipsis_removed (s : str) :
  endsWith (replace_all plain ellipsisPattern (expand []) s) (js "...") = false.
Proof.
  assert (Main :
    exists m, s = replace_all plain ellipsisPattern (expand []) s ++ m /\
      (m = [] \/ exists tl, m = js "..." ++ tl /\
         Forall (fun c => class_matches plain false [Space; One "."] c = true) tl) /\
      endsWith (replace_all plain ellipsisPattern (expand []) s) (js "...") = false).
  { apply (@replace_all_cases plain ellipsisPattern (expand [])
             (fun _ s out => exists m, s = out ++ m /\
                (m = [] \/ exists tl, m = js "..." ++ tl /\
                   Forall (fun c => class_matches plain false [Space; One "."] c = true) tl) /\
                endsWith out (js "...") = false)).
    - intros b _. exists []. repeat split. now left.
    - intros b c s0 out Hnone (m & Hs & Hm & Hq). exists m.
      split; [now rewrite Hs|]. split; [exact Hm|].
      destruct (Nat.le_gt_cases 3 (length out)) as [Hl|Hl].
      { now apply endsWith_cons. }
      destruct (endsWith (c :: out) (js "...")) eqn:E; [|reflexivity]. exfalso.
      unfold endsWith in E. apply startsWith_prefix in E. destruct E as (u & E).
      apply (f_equal (@rev ascii)) in E. rewrite rev_involutive, rev_app_distr in E.
      cbn [rev list_ascii_of_string app] in E.
      assert (Hu : rev u = []).
      { apply (f_equal (@length ascii)) in E. rewrite length_app in E.
        cbn [length] in E. destruct (rev u); [reflexivity | simpl in E; lia]. }
      rewrite Hu in E. cbn [app] in E. injection E as -> ->.
      assert (Hall : Forall (fun c => class_matches plain false [Space; One "."] c = true) m).
      { destruct Hm as [->|(tl & -> & Htl)]; [constructor|].
        cbn [list_ascii_of_string app]. repeat (constructor; [reflexivity|]). exact Htl. }
      apply (@ellipsisPattern_here b m Hall).
      rewrite <- Hnone, Hs. reflexivity.
    - intros b f out Hm Hne (m & Hs & _ & Hq).
      cbn [expand flat_map app].
      apply match_here_some in Hm. destruct Hm as (w & y & Hm & Ht & _ & Hp & _).
      unfold ellipsisPattern in Hm.
      change (seq ?l) with
        (Seq (lit (js "...")) (Seq (star (Cls false [Space; One "."])) Eol)) in Hm.
      cbn [matches] in Hm.
      destruct Hm as (w1 & z & w2 & Hlit & (w3 & z' & w4 & Hreps & (Hend & -> & ->) & ->) & ->).
      apply matches_lit in Hlit.
      assert (Hw1 : w1 = js "...").
      { clear -Hlit. cbn [list_ascii_of_string] in Hlit.
        repeat match goal with
               | H : Forall2 _ (_ :: _) _ |- _ =>
                   inversion H as [|? ? ? ? Hc ?]; subst; clear H;
                   apply canon_exact in Hc; [|reflexivity]; subst
               | H : Forall2 _ [] _ |- _ => inversion H; subst; clear H
               end. reflexivity. }
      unfold star in Hreps. cbn [groups_of] in Hreps.
      apply reps_class in Hreps. destruct Hreps as (Hall & _ & _).
      unfold at_line_end in Hend. cbn [plain multiline andb] in Hend.
      rewrite <- Hp in Hend. destruct (post f) as [|c t] eqn:Epost; [|discriminate].
      symmetry in Hs. apply app_eq_nil in Hs. destruct Hs as [-> ->].
      exists (text f). split; [now rewrite app_nil_r|]. split; [|reflexivity].
      right. exists w3. rewrite Ht, Hw1, app_nil_r. now split.
    - intros b s0 f Hm.
      apply match_here_some in Hm. destruct Hm as (w & y & Hm & Ht & _).
      unfold ellipsisPattern in Hm.
      change (seq ?l) with
        (Seq (lit (js "...")) (Seq (star (Cls false [Space; One "."])) Eol)) in Hm.
      cbn [matches] in Hm. destruct Hm as (w1 & z & w2 & Hlit & _ & ->).
      apply matches_lit in Hlit. rewrite Ht.
      inversion Hlit; subst. discriminate. }
  destruct Main as (m & _ & _ & H). exact H.
Qed.

(** The pattern of a lone opening brace matches the whole text only. *)
Lemma loneBrace_all_or_nothing (s : str) :
  replace_all plain loneBracePattern (expand []) s = s \/
  replace_all plain loneBracePattern (expand []) s = [].
Proof.
  assert (Main : (([] : str) = [] ->
                  replace_all plain loneBracePattern (expand []) s = s \/
                  replace_all plain loneBracePattern (expand []) s = []) /\
                 (([] : str) <> [] ->
                  replace_all plain loneBracePattern (expand []) s = s)).
  { apply (@replace_all_cases plain loneBracePattern (expand [])
             (fun b s out => (b = [] -> out = s \/ out = []) /\ (b <> [] -> out = s))).
    - intros b _. split; auto.
    - intros b c s0 out _ [_ H2].
      assert (E : out = s0) by (apply H2; discriminate). subst out. split; auto.
    - intros b f out Hm Hne [_ H2].
      cbn [expand flat_map app].
      apply match_here_some in Hm. destruct Hm as (w & y & Hm & Ht & _ & Hp & _).
      unfold loneBracePattern in Hm. cbn [seq matches] in Hm.
      destruct Hm as (w1 & z1 & w2 & (Hbol & -> & ->) &
                      (w3 & z3 & w4 & _ & (w5 & z5 & w6 & _ &
                         (w7 & z7 & w8 & _ & (Hend & -> & ->) & ->) & ->) & ->) & ->).
      unfold at_line_start in Hbol. cbn [start before plain multiline andb] in Hbol.
      unfold at_line_end in Hend. cbn [plain multiline andb] in Hend.
      rewrite <- Hp in Hend. destruct (post f) as [|c t] eqn:Epost; [|discriminate].
      destruct b as [|c b]; [|discriminate].
      assert (E : out = []).
      { apply H2. rewrite app_nil_r. intros E. apply (f_equal (@rev ascii)) in E.
        rewrite rev_involutive in E. now apply Hne. }
      subst out. split; [intros _; now right | intros H; now destruct H].
    - intros b s0 f Hm.
      apply match_here_some in Hm. destruct Hm as (w & y & Hm & Ht & _).
      unfold loneBracePattern in Hm. cbn [seq matches] in Hm.
      destruct Hm as (w1 & z1 & w2 & _ &
                      (w3 & z3 & w4 & _ & (w5 & z5 & w6 & (a & t & _ & _ & -> & _) & _ & ->)
                       & ->) & ->).
      rewrite Ht. intros E. apply app_eq_nil in E. destruct E as [_ E].
      apply app_eq_nil in E. destruct E as [_ E]. discriminate. }
  destruct Main as [H _]. now apply H.
Qed.

Lemma endsWith_other (c : ascii) (s p : str) :
  hd_error (rev p) <> Some c -> p <> [] -> endsWith (s ++ [c]) p = false.
Proof.
  unfold endsWith. rewrite rev_app_distr. cbn [rev app].
  destruct (rev p) as [|d t] eqn:E.
  - intros _ Hp. apply (f_equal (@rev ascii)) in E. rewrite rev_involutive in E. now subst.
  - intros H _. cbn [hd_error] in H. cbn [startsWith].
    destruct (Ascii.eqb_spec d c) as [->|]; [now destruct H | reflexivity].
Qed.

Lemma closing_keeps (b : bool) (c : ascii) (s : str) :
  c <> "." ->
  endsWith s (js "...") = false ->
  endsWith (if b then s ++ [c] else s) (js "...") = false.
Proof.
  intros Hc H. destruct b; [|exact H].
  apply endsWith_other; [|discriminate]. cbn. congruence.
Qed.

(** X20.  A text returned by [sanitizeResponse] does not end in three
    full stops: a trailing ellipsis is removed together with the full stops
    and white space after it, and the later steps add at most a closing
    brace or bracket. *)
Theorem X20_sanitized_text_has_no_trailing_ellipsis :
  forall text : str, endsWith (sanitizeResponse text) (js "...") = false.
Proof.
  intros text. unfold sanitizeResponse. cbv zeta.
  set (c1 := replace_all flag_i reallyPattern (expand []) (trim text)).
  pose proof (ellipsis_removed c1) as H2.
  set (c2 := replace_all plain ellipsisPattern (expand []) c1) in *.
  assert (H3 : endsWith (replace_all plain loneBracePattern (expand []) c2) (js "...")
               = false).
  { destruct (loneBrace_all_or_nothing c2) as [-> | ->]; [exact H2 | reflexivity]. }
  set (c3 := replace_all plain loneBracePattern (expand []) c2) in *.
  apply (@closing_keeps _ "]"); [discriminate|].
  apply (@closing_keeps _ "}"); [discriminate|]. exact H3.
Qed.

Lemma trimStart_app_ink (a : str) (c : ascii) (s : str) :
  Forall (fun x => is_space x = true) a -> is_space c = false ->
  trimStart (a ++ c :: s) = c :: s.
Proof.
  intros Ha Hc. induction Ha as [|x a Hx _ IH]; cbn [app trimStart].
  - now rewrite Hc.
  - now rewrite Hx.
Qed.

Lemma trim_around (a b : str) (c : ascii) :
  Forall (fun x => is_space x = true) a ->
  Forall (fun x => is_space x = true) b ->
  is_space c = false ->
  trim (a ++ c :: b) = [c].
Proof.
  intros Ha Hb Hc. unfold trim, trimEnd. rewrite trimStart_app_ink by assumption.
  cbn [rev]. rewrite trimStart_app_ink; [reflexivity | | exact Hc].
  now apply Forall_rev.
Qed.

(** X21.  A response that is an opening brace and white space only is
    sanitized to the empty text: the brace is removed, not closed. *)
Theorem X21_lone_opening_brace_is_removed :
  forall a b : str,
    Forall (fun c => is_space c = true) a ->
    Forall (fun c => is_space c = true) b ->
    sanitizeResponse (a ++ js "{" ++ b) = [].
Proof.
  intros a b Ha Hb. unfold sanitizeResponse.
  change (a ++ js "{" ++ b) with (a ++ "{" :: b).
  rewrite trim_around by (assumption || reflexivity).
  reflexivity.
Qed.

Lemma X21_witness : sanitizeResponse (js "  {" ++ [lf]) = [].
Proof.
  apply (@X21_lone_opening_brace_is_removed (js "  ") [lf]); repeat constructor.
Defined.

(** ** Merging with a blank text *)

Lemma tokens_from_nonempty g cur s : tokens_from g cur s <> [].
Proof.
  revert g cur. induction s as [|c s IH]; intros g cur; cbn [tokens_from];
    [discriminate|].
  destruct (is_space c); [destruct g|]; first [apply IH | discriminate].
Qed.

(** The last token of a text that ends with a character that is not white
    space ends with that character. *)
Lemma tokens_from_snoc (c : ascii) (s : str) : forall g cur,
  is_space c = false ->
  exists l w, tokens_from g cur (s ++ [c]) = l ++ [w ++ [c]].
Proof.
  induction s as [|a s IH]; intros g cur Hc; cbn [app tokens_from].
  - rewrite Hc. exists [], (rev cur). reflexivity.
  - destruct (is_space a).
    + destruct g.
      * apply IH, Hc.
      * destruct (IH true [] Hc) as (l & w & E). exists (rev cur :: l), w.
        now rewrite E.
    + apply IH, Hc.
Qed.

(** The first token of a text that starts with a character that is not
    white space starts with that character. *)
Lemma tokens_from_ink (s : str) : forall cur,
  cur <> [] -> exists w l, tokens_from false cur s = w :: l /\ w <> [].
Proof.
  induction s as [|a s IH]; intros cur Hcur; cbn [tokens_from].
  - exists (rev cur), []. split; [reflexivity|]. intros E.
    apply (f_equal (@rev ascii)) in E. rewrite rev_involutive in E. now apply Hcur.
  - destruct (is_space a).
    + exists (rev cur), (tokens_from true [] s). split; [reflexivity|]. intros E.
      apply (f_equal (@rev ascii)) in E. rewrite rev_involutive in E. now apply Hcur.
    + apply IH. discriminate.
Qed.

Lemma trim_ends (s : str) :
  trim s <> [] ->
  (exists c t, trim s = c :: t /\ is_space c = false) /\
  (exists t c, trim s = t ++ [c] /\ is_space c = false).
Proof.
  unfold trim, trimEnd. intros H.
  destruct (trimStart (rev (trimStart s))) as [|d u] eqn:E; [now destruct H|].
  pose proof (trimStart_head _ E) as Hd. split.
  - destruct (trimStart s) as [|c t] eqn:Es.
    + cbn [rev trimStart] in E. discriminate.
    + pose proof (trimStart_head _ Es) as Hc.
      assert (Hin : In d (c :: t)).
      { apply in_rev. apply in_trimStart. rewrite E. now left. }
      (* the reverse of the trimmed text starts with the same character *)
      assert (Hsuf : exists v, rev (c :: t) = v ++ d :: u).
      { clear -E. revert E. generalize (rev (c :: t)) as r.
        induction r as [|x r IH]; cbn [trimStart]; [discriminate|].
        destruct (is_space x).
        - intros H. destruct (IH H) as (v & ->). now exists (x :: v).
        - intros H. injection H as -> ->. now exists []. }
      destruct Hsuf as (v & Hv).
      apply (f_equal (@rev ascii)) in Hv. rewrite rev_involutive, rev_app_distr in Hv.
      cbn [rev] in Hv. rewrite <- app_assoc in Hv.
      cbn [rev]. destruct (rev u) as [|x ru] eqn:Eru.
      * exists d, []. now split.
      * cbn [app] in Hv. injection Hv as -> _.
        exists x, (ru ++ [d]). now split.
  - exists (rev u), d. cbn [rev]. now split.
Qed.

Lemma sliceLast_one (A : Type) (l : list A) (x : A) : sliceLast 1 (l ++ [x]) = [x].
Proof.
  unfold sliceLast. rewrite length_app. cbn [length].
  replace (length l + 1 - 1) with (length l) by lia.
  rewrite skipn_app, skipn_all, Nat.sub_diag. reflexivity.
Qed.

Lemma toLowerCase_nil (w : str) : toLowerCase w = [] -> w = [].
Proof. destruct w; [reflexivity | discriminate]. Qed.

(** ** The merge of two partial responses *)










(** X22.  Merging with a blank text: when the second text is blank and
    the first is not, the result is the trimmed first text followed by two
    line feeds; when the first is blank and the second is not, it is two
    line feeds followed by the trimmed second text; when both are blank it
    is empty. *)
Theorem X22_merge_with_blank_text :
  forall first second : str,
    (trim first <> [] -> trim second = [] ->
     combinePartialResponses first second = trim first ++ [lf; lf]) /\
    (trim first = [] -> trim second <> [] ->
     combinePartialResponses first second = [lf; lf] ++ trim second) /\
    (trim first = [] -> trim second = [] ->
     combinePartialResponses first second = []).
Proof.
  intros first second. unfold combinePartialResponses. rewrite !split_ws_tokens.
  split; [|split].
  - intros H1 H2. rewrite H2.
    destruct (trim_ends _ H1) as [_ (t & c & E & Hc)]. rewrite E.
    destruct (@tokens_from_snoc c t false [] Hc) as (l & w & Et).
    change (tokens (t ++ [c])) with (tokens_from false [] (t ++ [c])). rewrite Et.
    change (tokens []) with [[] : str].
    match goal with
    | |- context [Nat.min 10 ?x] =>
        replace (Nat.min 10 x) with 1 by (rewrite length_app; cbn [length]; lia)
    end.
    cbn [overlap_loop]. rewrite sliceLast_one. cbn [firstn join].
    destruct (JS.eqb _ _) eqn:Eq; [|now rewrite app_nil_r].
    apply eqb_eq in Eq. cbn [toLowerCase map] in Eq.
    apply toLowerCase_nil in Eq. destruct w; discriminate.
  - intros H1 H2. rewrite H1.
    destruct (trim_ends _ H2) as [(c & t & E & Hc) _]. rewrite E.
    change (tokens (c :: t)) with (tokens_from false [] (c :: t)).
    cbn [tokens_from]. rewrite Hc.
    destruct (@tokens_from_ink t [c]) as (w & l & Et & Hw); [discriminate|].
    rewrite Et. change (tokens []) with [[] : str].
    match goal with
    | |- context [Nat.min 10 ?x] =>
        replace (Nat.min 10 x) with 1 by (cbn [length]; lia)
    end.
    cbn [overlap_loop sliceLast length skipn Nat.sub firstn join].
    destruct (JS.eqb _ _) eqn:Eq; [|reflexivity].
    apply eqb_eq in Eq. cbn [toLowerCase map] in Eq. symmetry in Eq.
    apply toLowerCase_nil in Eq. contradiction.
  - intros H1 H2. rewrite H1, H2. reflexivity.
Qed.

Lemma ends_in_ink_cons (c : ascii) (s : str) :
  ends_in_ink (c :: s) -> s <> [] -> ends_in_ink s.
Proof.
  unfold ends_in_ink. rewrite last_char_cons. destruct s; [intros _ H; now destruct H | auto].
Qed.

Lemma tokens_from_gap (s : str) :
  starts_in_ink s -> tokens_from true [] s = tokens s.
Proof.
  unfold tokens. destruct s as [|c s]; [reflexivity|]. cbn [starts_in_ink tokens_from].
  now intros ->.
Qed.

(** The tokens of two texts separated by an empty line. *)
Lemma tokens_from_break (a b : str) : forall g cur,
  (a = [] -> g = false) -> ends_in_ink a -> starts_in_ink b ->
  tokens_from g cur (a ++ lf :: lf :: b) = tokens_from g cur a ++ tokens b.
Proof.
  induction a as [|c a IH]; intros g cur Hg Ha Hb.
  - rewrite (Hg eq_refl). cbn [app tokens_from].
    change (is_space lf) with true. cbn iota. now rewrite tokens_from_gap.
  - cbn [app tokens_from].
    assert (Hne : is_space c = true -> a <> []).
    { intros Hc ->. unfold ends_in_ink, last_char in Ha. cbn in Ha. congruence. }
    destruct (is_space c) eqn:Hc.
    + specialize (Hne eq_refl).
      destruct g; [|cbn [app]; f_equal]; apply IH; auto;
        try (intros E; now destruct Hne); now apply ends_in_ink_cons with (c := c).
    + apply IH; auto. destruct a as [|d a]; [exact I|].
      apply ends_in_ink_cons with (c := c); [exact Ha | discriminate].
Qed.

Lemma tokens_break (a b : str) :
  ends_in_ink a -> starts_in_ink b ->
  tokens (a ++ [lf; lf] ++ b) = tokens a ++ tokens b.
Proof. intros Ha Hb. unfold tokens at 1 2. now apply tokens_from_break. Qed.

(** A token that holds no white space is its own only token. *)
Lemma tokens_from_word (w : str) : forall cur,
  spaceless w -> tokens_from false cur w = [rev cur ++ w].
Proof.
  induction w as [|c w IH]; intros cur H; cbn [tokens_from].
  - now rewrite app_nil_r.
  - pose proof (Forall_inv H) as Hc. cbn beta in Hc. rewrite Hc.
    rewrite IH by exact (Forall_inv_tail H). cbn [rev]. now rewrite <- app_assoc.
Qed.

Lemma tokens_from_word_then (w rest : str) : forall cur,
  spaceless w ->
  tokens_from false cur (w ++ " " :: rest) = (rev cur ++ w) :: tokens_from true [] rest.
Proof.
  induction w as [|c w IH]; intros cur H; cbn [app tokens_from].
  - change (is_space " ") with true. cbn iota. now rewrite app_nil_r.
  - pose proof (Forall_inv H) as Hc. cbn beta in Hc. rewrite Hc.
    rewrite IH by exact (Forall_inv_tail H). cbn [rev]. now rewrite <- app_assoc.
Qed.

Lemma join_starts_in_ink (l : list str) :
  Forall inked l -> starts_in_ink (join (js " ") l).
Proof.
  intros H. destruct H as [|w l [Hne Hw] Hl]; [exact I|].
  destruct w as [|c w]; [now destruct Hne|].
  pose proof (Forall_inv Hw) as Hc.
  destruct l; cbn [join app starts_in_ink]; exact Hc.
Qed.

(** Joining by single blanks and cutting at white space are inverse on
    non-empty tokens. *)
Lemma tokens_join (l : list str) :
  l <> [] -> Forall inked l -> tokens (join (js " ") l) = l.
Proof.
  intros Hne H. induction H as [|w l [Hw1 Hw2] Hl IH]; [now destruct Hne|].
  destruct l as [|w' l].
  - cbn [join]. unfold tokens. now rewrite tokens_from_word.
  - change (join (js " ") (w :: w' :: l)) with (w ++ " " :: join (js " ") (w' :: l)).
    unfold tokens. rewrite tokens_from_word_then by exact Hw2.
    rewrite tokens_from_gap by (now apply join_starts_in_ink).
    cbn [rev app]. f_equal. apply IH. discriminate.
Qed.

(** The tokens of a text that starts and ends with ink are not empty. *)
Lemma tokens_from_inked (s : str) : forall g cur,
  (g = false -> cur <> []) ->
  match last_char s with Some c => is_space c = false | None => g = false end ->
  spaceless cur ->
  Forall inked (tokens_from g cur s).
Proof.
  induction s as [|c s IH]; intros g cur Hg Hlast Hcur.
  - cbn [tokens_from]. constructor; [|constructor]. split.
    + intros E. apply (f_equal (@rev ascii)) in E. rewrite rev_involutive in E.
      now apply (Hg Hlast).
    + unfold spaceless. now apply Forall_rev.
  - cbn [tokens_from]. rewrite last_char_cons in Hlast.
    destruct (is_space c) eqn:Hc.
    + assert (Hs : s <> []) by (intros ->; cbn in Hlast; congruence).
      assert (Hl : match last_char s with
                   | Some c0 => is_space c0 = false
                   | None => true = false
                   end).
      { destruct s as [|d s]; [now destruct Hs|].
        destruct (last_char (d :: s)) eqn:E; [exact Hlast|].
        apply last_char_none in E. discriminate. }
      destruct g.
      * apply IH; auto; discriminate.
      * constructor.
        -- split.
           ++ intros E. apply (f_equal (@rev ascii)) in E. rewrite rev_involutive in E.
              now apply (Hg eq_refl).
           ++ unfold spaceless. now apply Forall_rev.
        -- apply IH; [discriminate | exact Hl | constructor].
    + apply IH; [discriminate | | now constructor].
      destruct s as [|d s]; [reflexivity|].
      destruct (last_char (d :: s)) eqn:E; [exact Hlast|].
      apply last_char_none in E. discriminate.
Qed.

Lemma tokens_inked (s : str) :
  s <> [] -> starts_in_ink s -> ends_in_ink s -> Forall inked (tokens s).
Proof.
  intros Hne Hs He. destruct s as [|c s]; [now destruct Hne|].
  cbn [starts_in_ink] in Hs. unfold tokens. cbn [tokens_from]. rewrite Hs.
  apply tokens_from_inked.
  - discriminate.
  - unfold ends_in_ink in He. rewrite last_char_cons in He.
    destruct s as [|d s]; [reflexivity|].
    destruct (last_char (d :: s)) eqn:E; [exact He|].
    apply last_char_none in E. discriminate.
  - now repeat constructor.
Qed.

Lemma trim_inked (s : str) :
  starts_in_ink (trim s) /\ ends_in_ink (trim s) /\
  (trim s <> [] -> Forall inked (tokens (trim s))).
Proof.
  destruct (trim s) as [|c t] eqn:E.
  - repeat split. intros H. now destruct H.
  - assert (Hne : trim s <> []) by (rewrite E; discriminate).
    destruct (trim_ends _ Hne) as [(c' & t' & E1 & Hc') (t'' & c'' & E2 & Hc'')].
    rewrite <- E.
    assert (H1 : starts_in_ink (trim s)) by (rewrite E1; exact Hc').
    assert (H2 : ends_in_ink (trim s)).
    { rewrite E2. unfold ends_in_ink. rewrite last_char_app. exact Hc''. }
    repeat split; auto. intros _. now apply tokens_inked.
Qed.

Lemma tokens_blank_overlap (words : list str) :
  Forall inked words -> words <> [] ->
  overlap_at words [[]] 1 = false /\ overlap_at [[]] words 1 = false.
Proof.
  intros H Hne. unfold overlap_at. split.
  - destruct (JS.eqb _ _) eqn:E; [|reflexivity]. exfalso.
    apply eqb_eq in E. cbn [firstn join toLowerCase map] in E.
    apply toLowerCase_nil in E.
    destruct (rev words) as [|w r] eqn:Er.
    { apply (f_equal (@rev str)) in Er. rewrite rev_involutive in Er. now apply Hne. }
    apply (f_equal (@rev str)) in Er. rewrite rev_involutive in Er. cbn [rev] in Er.
    rewrite Er, sliceLast_one in E. cbn [join] in E.
    rewrite Er in H. apply Forall_app in H. destruct H as [_ H].
    apply Forall_inv in H. now destruct H.
  - destruct (JS.eqb _ _) eqn:E; [|reflexivity]. exfalso.
    apply eqb_eq in E. cbn [sliceLast length Nat.sub skipn join toLowerCase map] in E.
    symmetry in E. apply toLowerCase_nil in E.
    destruct words as [|w l]; [now destruct Hne|].
    apply Forall_inv in H. destruct H as [H _].
    destruct l; cbn [firstn join] in E; now apply H.
Qed.

(** X23.  The words of a merge: cut at white space, the text returned by
    [combinePartialResponses] is the words of the trimmed first text
    followed by the words of the trimmed second text without its first [k]
    words, for some [k] of at most 10.  No word of the first text is lost
    or changed. *)
Theorem X23_merge_keeps_the_words_of_the_first_text :
  forall first second : str,
    exists k,
      k <= 10 /\
      tokens (combinePartialResponses first second)
      = tokens (trim first) ++ skipn k (tokens (trim second)).
Proof.
  intros first second.
  destruct (trim_inked first) as (S1 & E1 & T1).
  destruct (trim_inked second) as (S2 & E2 & T2).
  unfold combinePartialResponses. rewrite !split_ws_tokens.
  assert (W1 : tokens (trim first) <> []) by apply tokens_from_nonempty.
  assert (W2 : tokens (trim second) <> []) by apply tokens_from_nonempty.
  assert (B1 : trim first = [] -> tokens (trim first) = [[]]) by (now intros ->).
  assert (B2 : trim second = [] -> tokens (trim second) = [[]]) by (now intros ->).
  remember (tokens (trim first)) as words1 eqn:D1.
  remember (tokens (trim second)) as words2 eqn:D2.
  pose proof (overlap_loop_spec words1 words2
                (Nat.min 10 (Nat.min (length words1) (length words2))) 1 0) as Hspec.
  cbv zeta in Hspec.
  remember (overlap_loop words1 words2
              (Nat.min 10 (Nat.min (length words1) (length words2))) 1 0) as ov eqn:Dov.
  destruct Hspec as [[Hr Hno]|(Hr & Hm & Hno)].
  - rewrite Hr. cbn [Nat.ltb Nat.leb]. exists 0. split; [lia|].
    cbn [skipn]. subst words1 words2. now apply tokens_break.
  - replace (0 <? ov)%nat with true by (symmetry; apply Nat.ltb_lt; lia).
    exists ov. split; [lia|].
    destruct (list_eq_dec ascii_dec (trim first) []) as [N1|N1];
      destruct (list_eq_dec ascii_dec (trim second) []) as [N2|N2].
    + rewrite (B1 N1), (B2 N2) in *. cbn [length] in Hr.
      assert (Hov : ov = 1) by lia.
      rewrite Hov. reflexivity.
    + exfalso. specialize (T2 N2). rewrite (B1 N1) in *. cbn [length] in Hr.
      assert (Hov : ov = 1) by lia.
      rewrite Hov in Hm.
      destruct (@tokens_blank_overlap words2 T2 W2) as [_ H]. congruence.
    + exfalso. specialize (T1 N1). rewrite (B2 N2) in *. cbn [length] in Hr.
      assert (Hov : ov = 1) by lia.
      rewrite Hov in Hm.
      destruct (@tokens_blank_overlap words1 T1 W1) as [H _]. congruence.
    + specialize (T1 N1). specialize (T2 N2). apply tokens_join.
      * intros E. apply app_eq_nil in E. destruct E as [E _]. now apply W1.
      * apply Forall_app. split; [exact T1|].
        rewrite <- (firstn_skipn ov words2) in T2. apply Forall_app in T2. tauto.
Qed.

(** A text without [o] has no match of [o [\s\S]* close]. *)
Lemma exec_opened_none (o c : ascii) (s : str) :
  ~ In o s -> exec plain (seq [Chr o; star any; Chr c]) s = None.
Proof.
  intros H. unfold exec. apply exec_from_none. intros s1 s2 Hs.
  apply match_here_none. intros w y Hm.
  pose proof (matches_rest _ _ _ _ _ Hm) as Hrest. cbn [start rest] in Hrest.
  cbn [seq matches] in Hm.
  destruct Hm as (w1 & z & w2 & (a & t & _ & Ha & -> & _) & _ & ->).
  apply canon_exact in Ha; [|reflexivity]. subst a.
  apply H. rewrite Hs, Hrest. apply in_or_app. right. now left.
Qed.

(** X24.  From a text without opening brace the decoder can only recover
    an array: a value it returns is the value of the text itself, when the
    text is valid JSON, or an array. *)
Theorem X24_without_brace_only_arrays_are_recovered :
  forall (text : str) (v : Json.value),
    ~ In "{" text ->
    parseJsonWithResilience text = Returns v ->
    (exists rest, Json.parse text = Json.Ok v rest) \/ (exists items, v = Json.Array items).
Proof.
  intros text v Hbrace. unfold parseJsonWithResilience, try_parse at 1.
  destruct (Json.parse text) as [v0 r|e] eqn:Ep.
  { intros H. injection H as <-. left. now exists r. }
  destruct e; try discriminate. cbv zeta.
  set (cleanText := if (includes text (js "<think>") && includes text (js "</think>"))%bool
                    then _ else _).
  assert (Hsub : forall c, In c cleanText -> In c text).
  { intros c. subst cleanText.
    destruct (_ && _)%bool; [|auto].
    destruct (lastIndexOf text (js "</think>")); [|auto].
    intros H. apply in_trim in H. unfold substringFrom in H. now apply in_skipn in H. }
  rewrite exec_opened_none by (intros H; apply Hsub in H; auto).
  destruct (exec plain _ cleanText) as [arrayMatch|]; [|discriminate].
  unfold try_parse. intros H.
  destruct (Json.parse (cleanJsonText (Regex.text arrayMatch))) as [v1 r1|e1];
    [|destruct e1; discriminate H].
  injection H as <-. right.
  destruct v1; cbn [as_array]; eauto.
Qed.

Lemma X24_witness :
  let text := js "Here you go: [1, 2]" in
  ~ In "{" text /\
  parseJsonWithResilience text
  = Returns (Json.Array [Json.Number (js "1"); Json.Number (js "2")]) /\
  ((exists rest,
       Json.parse text
       = Json.Ok (Json.Array [Json.Number (js "1"); Json.Number (js "2")]) rest)
   \/ exists items,
        Json.Array [Json.Number (js "1"); Json.Number (js "2")] = Json.Array items).
Proof.
  intros text.
  assert (H1 : ~ In "{" text).
  { cbn [text list_ascii_of_string In]. intros Hin.
    repeat (destruct Hin as [Hin|Hin]; [discriminate Hin|]). exact Hin. }
  assert (H2 : parseJsonWithResilience text
               = Returns (Json.Array [Json.Number (js "1"); Json.Number (js "2")]))
    by (vm_compute; reflexivity).
  split; [exact H1|]. split; [exact H2|].
  exact (@X24_without_brace_only_arrays_are_recovered text _ H1 H2).
Defined.

(** X25.  The query around which [createSimplifiedPrompt] builds its
    prompt is never empty and holds no quote and no line feed: it is the
    default query or the first group of the query pattern. *)
Theorem X25_simplified_prompt_holds_a_one_line_query :
  forall prompt : str,
    exists query,
      createSimplifiedPrompt prompt = simplified query /\
      query <> [] /\
      Forall (fun c => c <> dq /\ c <> sq /\ c <> lf) query.
Proof.
  intros prompt. unfold createSimplifiedPrompt.
  destruct (exec flag_i queryPattern prompt) as [f|] eqn:E.
  - exists (group_text f 1). split; [reflexivity|].
    unfold exec in E. apply exec_from_some in E. destruct E as (s1 & s2 & _ & Hm).
    apply match_here_some in Hm. destruct Hm as (w & y & Hm & _ & Hg & _).
    unfold group_text. rewrite Hg. unfold queryPattern in Hm.
    change (seq ?l) with
      (Seq (Alt (lit (js "Query"))
              (Alt (lit (js "Question")) (Seq (lit (js "User ask")) (opt (Chr "s")))))
           (Seq (Chr ":")
              (Seq (star ws)
                 (Seq (opt (Cls false [One dq; One sq]))
                    (Seq (Group 1 (plus (Cls true [One dq; One sq; One lf])))
                       (opt (Cls false [One dq; One sq]))))))) in Hm.
    cbn [matches] in Hm.
    destruct Hm as (w1 & z1 & w2 & _ & (w3 & z3 & w4 & _ & (w5 & z5 & w6 & _ &
                      (w7 & z7 & w8 & _ & (w9 & z9 & w10 & (z & Hreps & ->) & Hopt & _)
                       & _) & _) & _) & _).
    unfold plus, opt in *. cbn [groups_of] in *.
    apply reps_class in Hreps. destruct Hreps as (Hall & _ & Hl). specialize (Hl eq_refl).
    apply reps_class in Hopt. destruct Hopt as (_ & -> & _).
    cbn [caps capture Nat.eqb]. split; [destruct w9; [simpl in Hl; lia | discriminate]|].
    eapply Forall_impl; [|exact Hall]. intros c Hc. cbn beta in Hc.
    rewrite query_class_i in Hc. apply negb_true_iff in Hc.
    apply orb_false_iff in Hc. destruct Hc as [Hc H3].
    apply orb_false_iff in Hc. destruct Hc as [H1 H2].
    repeat split; intros ->; discriminate.
  - exists default_query. split; [reflexivity|]. split; [discriminate|].
    repeat constructor; discriminate.
Qed.
